(** * halmos/config.py: layered configuration resolution

    A shallow embedding of [src/halmos/config.py]: the value codecs
    ([ParseTimeout], [ParseCSVTraceEvent], [ParseCSVInt], [ParseErrorCodes],
    [ParseArrayLengths]), the [Config] layer chain with [value_with_source],
    [with_overrides] and [resolved_solver_command], the config-file locator
    [resolve_config_files] and [TomlParser.parse_dict].

    Python strings are modelled as [string] (code points 0..255), Python
    [int] as [Z], [set[int]] as [gset Z], a [dict] as an association list in
    insertion order, and [float] durations as exact rationals [Q]. *)

From Stdlib Require Import ZArith QArith String Ascii List Lia Bool.
From stdpp Require Import gmap strings list.

Local Open Scope string_scope.
Local Open Scope list_scope.
Set Warnings "-register-all".

(** ** Results of Python calls *)

(** The exceptions the modelled code raises, and [sys.exit]. *)
Inductive PyExc : Type :=
| ValueError (msg : string)
| TypeError (msg : string)
| AttributeError (msg : string)
| RuntimeError (msg : string).

Inductive Outcome (A : Type) : Type :=
| Return (a : A)
| Raise (e : PyExc)
| SysExit (code : Z).
Arguments Return {A} a.
Arguments Raise {A} e.
Arguments SysExit {A} code.

Definition bind {A B} (m : Outcome A) (f : A -> Outcome B) : Outcome B :=
  match m with
  | Return a => f a
  | Raise e => Raise e
  | SysExit c => SysExit c
  end.

Notation "'let*' x ':=' m 'in' k" := (bind m (fun x => k))
  (at level 10, x name, m at level 100, k at level 200).

(** [[f(x) for x in xs]] for a fallible [f]: stops at the first failure. *)
Fixpoint traverse {A B} (f : A -> Outcome B) (xs : list A) : Outcome (list B) :=
  match xs with
  | [] => Return []
  | x :: xs' =>
      let* y := f x in let* ys := traverse f xs' in Return (y :: ys)
  end.

(** ** Python [str] methods *)

Module PyStr.

(** [str.isspace] on one character, for the code points below 256. *)
Definition is_space (c : ascii) : bool :=
  let n := nat_of_ascii c in
  (((9 <=? n) && (n <=? 13)) || ((28 <=? n) && (n <=? 32))
   || (n =? 133) || (n =? 160))%nat.

Fixpoint lstrip (s : string) : string :=
  match s with
  | EmptyString => EmptyString
  | String c s' => if is_space c then lstrip s' else s
  end.

Fixpoint rstrip (s : string) : string :=
  match s with
  | EmptyString => EmptyString
  | String c s' =>
      match rstrip s' with
      | EmptyString => if is_space c then EmptyString else String c EmptyString
      | r => String c r
      end
  end.

(** [s.strip()] *)
Definition strip (s : string) : string := rstrip (lstrip s).

(** [s.split(sep)] for a one-character separator: always at least one
    piece, empty pieces kept. *)
Fixpoint split (sep : ascii) (s : string) : list string :=
  match s with
  | EmptyString => [EmptyString]
  | String c s' =>
      if Ascii.eqb c sep then EmptyString :: split sep s'
      else match split sep s' with
           | h :: t => String c h :: t
           | [] => [String c EmptyString]
           end
  end.

(** [s.split()] with no argument: the maximal runs of non-space
    characters. *)
Fixpoint split_ws (s : string) : list string :=
  match s with
  | EmptyString => []
  | String c s' =>
      if is_space c then split_ws s'
      else match s' with
           | EmptyString => [String c EmptyString]
           | String c' _ =>
               if is_space c' then String c EmptyString :: split_ws s'
               else match split_ws s' with
                    | w :: ws => String c w :: ws
                    | [] => [String c EmptyString]
                    end
           end
  end.

(** [sep.join(xs)] *)
Definition join (sep : string) (xs : list string) : string :=
  String.concat sep xs.

(** [s.replace(old, new)] for one-character [old] and [new]. *)
Fixpoint replace (old new : ascii) (s : string) : string :=
  match s with
  | EmptyString => EmptyString
  | String c s' =>
      String (if Ascii.eqb c old then new else c) (replace old new s')
  end.

(** Truthiness of a string. *)
Definition truthy (s : string) : bool :=
  match s with EmptyString => false | _ => true end.

End PyStr.

(** ** Python [int] parsing and formatting *)

Module PyInt.

Definition digit_value (c : ascii) : option Z :=
  let n := Z.of_nat (nat_of_ascii c) in
  if ((48 <=? n) && (n <=? 57))%Z then Some (n - 48)%Z
  else if ((97 <=? n) && (n <=? 122))%Z then Some (n - 87)%Z
  else if ((65 <=? n) && (n <=? 90))%Z then Some (n - 55)%Z
  else None.

(** Where the digit scanner stands: [us_ok] says an underscore may come
    next, [end_ok] that the literal may end here. *)
Record scan := { us_ok : bool; end_ok : bool }.
Definition at_start := {| us_ok := false; end_ok := false |}.
Definition after_prefix := {| us_ok := true; end_ok := false |}.
Definition after_digit := {| us_ok := true; end_ok := true |}.
Definition after_underscore := {| us_ok := false; end_ok := false |}.

(** Digits in [base], single underscores allowed between digits. *)
Fixpoint digits (base : Z) (s : string) (acc : Z) (st : scan) : option Z :=
  match s with
  | EmptyString => if end_ok st then Some acc else None
  | String c s' =>
      if Ascii.eqb c "_"
      then if us_ok st then digits base s' acc after_underscore else None
      else match digit_value c with
           | Some d =>
               if (d <? base)%Z
               then digits base s' (acc * base + d)%Z after_digit
               else None
           | None => None
           end
  end.

Definition split_sign (s : string) : bool * string :=
  match s with
  | String "-" s' => (true, s')
  | String "+" s' => (false, s')
  | _ => (false, s)
  end.

Definition apply_sign (neg : bool) (o : option Z) : option Z :=
  option_map (fun z => if neg then (- z)%Z else z) o.

(** [int(s)]: base ten, surrounding white space ignored. CPython also
    refuses a decimal literal of more than 4300 digits
    ([sys.int_info.default_max_str_digits]); that limit is not part of
    [int]: a statement that needs a number to be accepted carries it as
    the hypothesis [within_digit_limit]. *)
Definition int (s : string) : option Z :=
  let (neg, body) := split_sign (PyStr.strip s) in
  apply_sign neg (digits 10 body 0 at_start).

(** [int(s, 0)]: the base is read off the literal's prefix; a decimal
    literal that starts with [0] must be zero. *)
Definition int0 (s : string) : option Z :=
  let (neg, body) := split_sign (PyStr.strip s) in
  apply_sign neg
    match body with
    | String "0" (String p rest) =>
        if Ascii.eqb p "x" || Ascii.eqb p "X" then digits 16 rest 0 after_prefix
        else if Ascii.eqb p "o" || Ascii.eqb p "O" then digits 8 rest 0 after_prefix
        else if Ascii.eqb p "b" || Ascii.eqb p "B" then digits 2 rest 0 after_prefix
        else match digits 10 body 0 at_start with
             | Some 0%Z => Some 0%Z
             | _ => None
             end
    | _ => digits 10 body 0 at_start
    end.

Definition digit_char (d : Z) : ascii :=
  if (d <? 10)%Z then ascii_of_nat (Z.to_nat (d + 48))
  else ascii_of_nat (Z.to_nat (d + 87)).

(** The digits of [n >= 0] in [base], most significant first, in front of
    [acc]. *)
Fixpoint render (fuel : nat) (base n : Z) (acc : string) : string :=
  match fuel with
  | O => acc
  | S fuel' =>
      let acc' := String (digit_char (n mod base)) acc in
      if (n <? base)%Z then acc' else render fuel' base (n / base) acc'
  end.

Definition render_nat (base n : Z) : string :=
  render (S (Z.to_nat (Z.log2 n))) base n EmptyString.

(** [str(n)], for [n] within the same limit of 4300 decimal digits. *)
Definition str (n : Z) : string :=
  if (n <? 0)%Z then String "-" (render_nat 10 (- n)) else render_nat 10 n.

(** [format(n, "02x")]: lower-case hexadecimal, zero-padded to width two,
    the sign counted in the width. *)
Definition format_02x (n : Z) : string :=
  if (n <? 0)%Z then String "-" (render_nat 16 (- n))
  else if (n <? 16)%Z then String "0" (render_nat 16 n)
  else render_nat 16 n.

End PyInt.

(** ** Python's [re]: a backtracking matcher *)

Module Re.

(** The part of the pattern syntax the source uses. [Star] is greedy;
    [Grp i r] is the capturing group number [i]. *)
Inductive regex : Type :=
| Eps
| Cls (p : ascii -> bool)
| Cat (r1 r2 : regex)
| Alt (r1 r2 : regex)
| Star (r : regex)
| Grp (i : nat) (r : regex)
| Bol
| Eol.

Definition Chr (c : ascii) : regex := Cls (Ascii.eqb c).
Definition Plus (r : regex) : regex := Cat r (Star r).

(** Group number and captured text, most recent first. *)
Definition captures := list (nat * string).

Fixpoint group (caps : captures) (i : nat) : string :=
  match caps with
  | [] => EmptyString
  | (j, txt) :: caps' => if Nat.eqb i j then txt else group caps' i
  end.

(** The text consumed between the suffix [s] and its suffix [s']. *)
Definition taken (s s' : string) : string :=
  substring 0 (String.length s - String.length s') s.

(** [$] matches at the end and just before a final newline. *)
Definition at_end (s : string) : bool :=
  match s with
  | EmptyString => true
  | String c EmptyString => Ascii.eqb c "010"
  | _ => false
  end.

Section Engine.
Context {R : Type}.
(** the whole subject string, for [^] *)
Variable whole : string.

(** [go r s caps k]: match [r] at the front of [s], then continue with
    [k] on the rest; alternatives are tried in the order a backtracking
    engine tries them, the first success wins. A [Star] iteration must
    consume input. *)
Fixpoint go (r : regex) (s : string) (caps : captures)
         (k : string -> captures -> option R) {struct r} : option R :=
  match r with
  | Eps => k s caps
  | Cls p =>
      match s with
      | String c s' => if p c then k s' caps else None
      | EmptyString => None
      end
  | Cat r1 r2 => go r1 s caps (fun s1 c1 => go r2 s1 c1 k)
  | Alt r1 r2 =>
      match go r1 s caps k with
      | Some x => Some x
      | None => go r2 s caps k
      end
  | Star r1 =>
      (fix loop (fuel : nat) (s : string) (caps : captures) {struct fuel}
         : option R :=
         match fuel with
         | O => k s caps
         | S fuel' =>
             match go r1 s caps
                     (fun s' c' =>
                        if (String.length s' <? String.length s)%nat
                        then loop fuel' s' c' else None) with
             | Some x => Some x
             | None => k s caps
             end
         end) (String.length s) s caps
  | Grp i r1 => go r1 s caps (fun s' c' => k s' ((i, taken s s') :: c'))
  | Bol =>
      if (String.length s =? String.length whole)%nat
      then k s caps else None
  | Eol => if at_end s then k s caps else None
  end.
End Engine.

(** [re.match(r, s)]: the groups of a match at the start of [s]. *)
Definition re_match (r : regex) (s : string) : option captures :=
  go s r s [] (fun _ caps => Some caps).

(** One scan step of [re.findall]: where the match ends, and its groups. *)
Definition match_at (whole : string) (r : regex) (s : string)
  : option (string * captures) :=
  go whole r s [] (fun s' caps => Some (s', caps)).

Fixpoint scan (whole : string) (r : regex) (fuel : nat) (s : string)
  : list captures :=
  match fuel with
  | O => []
  | S fuel' =>
      match match_at whole r s with
      | Some (s', caps) =>
          caps :: (if (String.length s' <? String.length s)%nat
                   then scan whole r fuel' s'
                   else match s with
                        | EmptyString => []
                        | String _ t => scan whole r fuel' t
                        end)
      | None =>
          match s with
          | EmptyString => []
          | String _ t => scan whole r fuel' t
          end
      end
  end.

(** [re.findall(r, s)] for a pattern with three groups: the non-overlapping
    matches from left to right, each as the tuple of its groups, a group
    that took no part being the empty string. *)
Definition findall3 (r : regex) (s : string) : list (string * string * string) :=
  map (fun caps => (group caps 1, group caps 2, group caps 3))
      (scan s r (S (String.length s)) s).

End Re.

(** ** Truthiness and the codec helpers *)

Class Truthy (A : Type) := truthy : A -> bool.
#[global] Instance list_truthy {A} : Truthy (list A) :=
  fun l => match l with [] => false | _ => true end.
#[global] Instance string_truthy : Truthy string := PyStr.truthy.
#[global] Instance intset_truthy : Truthy (gset Z) :=
  fun s => negb (bool_decide (s = ∅)).

(** A Python [dict] with string keys, in insertion order. *)
Definition dict (V : Type) : Type := list (string * V).

Fixpoint dict_get {V} (d : dict V) (k : string) : option V :=
  match d with
  | [] => None
  | (k', v) :: d' => if String.eqb k k' then Some v else dict_get d' k
  end.

(** [d[k] = v]: an existing key keeps its place. *)
Fixpoint dict_set {V} (d : dict V) (k : string) (v : V) : dict V :=
  match d with
  | [] => [(k, v)]
  | (k', v') :: d' =>
      if String.eqb k k' then (k, v) :: d' else (k', v') :: dict_set d' k v
  end.

Definition dict_keys {V} (d : dict V) : list string := map fst d.

Definition ensure_non_empty {A} `{Truthy A} (values : A) : Outcome A :=
  if truthy values then Return values
  else Raise (ValueError "required a non-empty list").

(** [parse_csv]: the stripped, non-empty pieces. *)
Definition parse_csv (values : string) (sep : ascii) : list string :=
  List.filter truthy (map PyStr.strip (PyStr.split sep values)).

(** [int(x)] and [int(x, 0)] inside the comprehensions; [repr] is written
    for a string without quotes or escapes. *)
Definition py_repr (s : string) : string := "'" +:+ s +:+ "'".

Definition int_ (x : string) : Outcome Z :=
  match PyInt.int x with
  | Some n => Return n
  | None =>
      Raise (ValueError ("invalid literal for int() with base 10: " +:+ py_repr x))
  end.

Definition int0_ (x : string) : Outcome Z :=
  match PyInt.int0 x with
  | Some n => Return n
  | None =>
      Raise (ValueError ("invalid literal for int() with base 0: " +:+ py_repr x))
  end.

Inductive TraceEvent : Type := LOG | SSTORE | SLOAD.

Definition TraceEvent_value (e : TraceEvent) : string :=
  match e with LOG => "LOG" | SSTORE => "SSTORE" | SLOAD => "SLOAD" end.

Definition TraceEvent_members : list TraceEvent := [LOG; SSTORE; SLOAD].

(** [TraceEvent(x)]: look the member up by value. *)
Definition TraceEvent_of (x : string) : Outcome TraceEvent :=
  match find (fun e => String.eqb (TraceEvent_value e) x) TraceEvent_members with
  | Some e => Return e
  | None => Raise (ValueError (py_repr x +:+ " is not a valid TraceEvent"))
  end.

(** ** The value codecs *)

(** Modelled from the spec: [parse_time] of [halmos.utils], which is not
    among the sources. The spec gives "an external time-string parser
    [parseDuration(text, defaultUnit) -> numeric seconds]", a duration with
    a unit as in [200ms], [5s], [2m], [1h], and [parse("5s") == 5]. The
    text is a decimal number, optionally with a fraction, followed by an
    optional unit; without a unit the default unit applies. *)
Module ParseTime.

Definition is_digit (c : ascii) : bool :=
  let n := nat_of_ascii c in ((48 <=? n) && (n <=? 57))%nat.

(** Plain decimal digits: the value and how many there were. *)
Fixpoint number (s : string) (acc : Z) (len : nat) : Z * nat * string :=
  match s with
  | String c s' =>
      if is_digit c
      then number s' (acc * 10 + (Z.of_nat (nat_of_ascii c) - 48))%Z (S len)
      else (acc, len, s)
  | EmptyString => (acc, len, s)
  end.

Definition unit_seconds (u : string) : option Q :=
  if String.eqb u "ms" then Some (1 # 1000)%Q
  else if String.eqb u "s" then Some 1%Q
  else if String.eqb u "m" then Some 60%Q
  else if String.eqb u "h" then Some 3600%Q
  else None.

Definition parse_time (arg : string) (default_unit : string) : Outcome Q :=
  let invalid := Raise (ValueError ("invalid time: " +:+ arg)) in
  let '(whole, n, rest) := number arg 0 0 in
  match n with
  | O => invalid
  | S _ =>
      let '(value, rest) :=
        match rest with
        | String "." frac =>
            let '(f, m, rest') := number frac 0 0 in
            ((inject_Z whole + (f # Pos.of_nat (10 ^ m)))%Q, rest')
        | _ => (inject_Z whole, rest)
        end in
      let u := if truthy rest then rest else default_unit in
      match unit_seconds u with
      | Some factor => Return (value * factor)%Q
      | None => invalid
      end
  end.

End ParseTime.

(** [int(x)] of a [float]: truncation towards zero. *)
Definition float_to_int (x : Q) : Z := Z.quot (Qnum x) (Zpos (Qden x)).

Module ParseTimeout.

Definition parse (values : string) : Outcome Q :=
  ParseTime.parse_time values "ms".

Definition unparse (value : Q) : string :=
  if Qle_bool 1 value
  then PyInt.str (float_to_int value) +:+ "s"
  else PyInt.str (float_to_int (value * 1000)%Q) +:+ "ms".

End ParseTimeout.

Module ParseCSVTraceEvent.

Definition parse (values : string) : Outcome (list TraceEvent) :=
  match traverse TraceEvent_of (parse_csv values ",") with
  | Raise (ValueError _) =>
      let valid := PyStr.join ", " (map TraceEvent_value TraceEvent_members) in
      Raise (ValueError ("the list of valid trace events is: " +:+ valid))
  | r => r
  end.

Definition unparse (values : list TraceEvent) : string :=
  PyStr.join "," (map TraceEvent_value values).

End ParseCSVTraceEvent.

Module ParseCSVInt.

Definition parse (values : string) : Outcome (list Z) :=
  let* xs := traverse int_ (parse_csv values ",") in
  ensure_non_empty xs.

Definition unparse (values : list Z) : string :=
  PyStr.join "," (map PyInt.str values).

End ParseCSVInt.

Module ParseErrorCodes.

Definition parse (values : string) : Outcome (gset Z) :=
  let values := PyStr.strip values in
  if String.eqb values "*" then Return ∅
  else
    let* xs := traverse int0_ (parse_csv values ",") in
    ensure_non_empty (list_to_set xs : gset Z).

(** The members are written in the iteration order of the set, here the
    order of [elements]. *)
Definition unparse (values : gset Z) : string :=
  if negb (truthy values) then "*"
  else PyStr.join "," (map (fun v => "0x" +:+ PyInt.format_02x v) (elements values)).

End ParseErrorCodes.

Module ParseArrayLengths.

Definition not_in (cs : string) (c : ascii) : bool :=
  match index 0 (String c EmptyString) cs with
  | Some _ => false
  | None => true
  end.

Definition name_char : ascii -> bool := not_in "=,{}".
Definition digit : ascii -> bool := ParseTime.is_digit.
Definition digit_or_comma (c : ascii) : bool := digit c || Ascii.eqb c ",".

Import Re.

(** [^([^=,\{\}]+=(\{[\d,]+\}|\d+)(,|$))*$] *)
Definition format_re : regex :=
  Cat Bol
    (Cat (Star (Grp 1
            (Cat (Plus (Cls name_char))
               (Cat (Chr "=")
                  (Cat (Grp 2 (Alt (Cat (Chr "{")
                                      (Cat (Plus (Cls digit_or_comma)) (Chr "}")))
                                   (Plus (Cls digit))))
                       (Grp 3 (Alt (Chr ",") Eol)))))))
         Eol).

(** [([^=,\{\}]+)=(?:\{([\d,]+)\}|(\d+))] *)
Definition entry_re : regex :=
  Cat (Grp 1 (Plus (Cls name_char)))
    (Cat (Chr "=")
       (Alt (Cat (Chr "{") (Cat (Grp 2 (Plus (Cls digit_or_comma))) (Chr "}")))
            (Grp 3 (Plus (Cls digit))))).

(** The dictionary comprehension: entries are evaluated in order, the
    first failure aborts, a repeated name keeps its latest sizes. *)
Fixpoint build (matches : list (string * string * string))
         (acc : dict (list Z)) : Outcome (dict (list Z)) :=
  match matches with
  | [] => Return acc
  | (name, sizes_lst, single_size) :: rest =>
      let key := PyStr.strip name in
      let sizes := if truthy sizes_lst then sizes_lst else single_size in
      let* xs := traverse int_ (parse_csv sizes ",") in
      let* xs := ensure_non_empty xs in
      build rest (dict_set acc key xs)
  end.

Definition parse (values : option string) : Outcome (dict (list Z)) :=
  match values with
  | None => Return []
  | Some values =>
      if negb (truthy values) then Return []
      else
        let values := PyStr.join "" (PyStr.split_ws values) in
        match re_match format_re values with
        | None =>
            Raise (ValueError ("invalid array lengths format: " +:+ values))
        | Some _ => build (findall3 entry_re values) []
        end
  end.

Definition unparse (values : dict (list Z)) : string :=
  PyStr.join ","
    (map (fun '(k, vs) =>
            k +:+ "={" +:+ PyStr.join "," (map PyInt.str vs) +:+ "}")
         values).

End ParseArrayLengths.

(** ** Configuration values and the field schema *)

(** The Python values a configuration field holds: what the command line
    and a TOML document supply, and what the codecs produce. The absent
    value [None] is the [None] of [option Value]. *)
Inductive Value : Type :=
| VBool (b : bool)
| VInt (n : Z)
| VFloat (x : Q)
| VStr (s : string)
| VList (xs : list Value)
| VDict (kvs : list (string * Value))
| VIntSet (s : gset Z)
| VEvent (e : TraceEvent).

#[global] Instance value_truthy : Truthy Value :=
  fun v =>
    match v with
    | VBool b => b
    | VInt n => negb (n =? 0)%Z
    | VFloat x => negb (Qeq_bool x 0)
    | VStr s => truthy s
    | VList xs => truthy xs
    | VDict kvs => truthy kvs
    | VIntSet s => truthy s
    | VEvent _ => true
    end.

#[global] Instance option_truthy {A} `{Truthy A} : Truthy (option A) :=
  fun o => match o with Some a => truthy a | None => false end.

Definition type_name (v : option Value) : string :=
  match v with
  | None => "NoneType"
  | Some (VBool _) => "bool"
  | Some (VInt _) => "int"
  | Some (VFloat _) => "float"
  | Some (VStr _) => "str"
  | Some (VList _) => "list"
  | Some (VDict _) => "dict"
  | Some (VIntSet _) => "set"
  | Some (VEvent _) => "TraceEvent"
  end.

Definition no_attribute {A} (v : option Value) (attr : string) : Outcome A :=
  Raise (AttributeError
           (py_repr (type_name v) +:+ " object has no attribute " +:+ py_repr attr)).

Definition outcome_map {A B} (f : A -> B) (m : Outcome A) : Outcome B :=
  let* a := m in Return (f a).

(** The argparse actions of the schema, each with its [parse]. The codecs
    are written for text; handed another value they fail where the first
    string method is called ([ParseArrayLengths.parse] first returns the
    empty dictionary for any falsy value). *)
Inductive Action : Type :=
| ParseTimeout_
| ParseCSVTraceEvent_
| ParseCSVInt_
| ParseErrorCodes_
| ParseArrayLengths_.

Definition Action_parse (a : Action) (values : option Value) : Outcome Value :=
  match a, values with
  | ParseTimeout_, Some (VStr s) => outcome_map VFloat (ParseTimeout.parse s)
  (* Modelled from the spec: [parse_time] is described on text only; here
     it refuses every other value. *)
  | ParseTimeout_, _ => Raise (ValueError "invalid time")
  | ParseCSVTraceEvent_, Some (VStr s) =>
      outcome_map (fun es => VList (map VEvent es)) (ParseCSVTraceEvent.parse s)
  | ParseCSVTraceEvent_, _ => no_attribute values "split"
  | ParseCSVInt_, Some (VStr s) =>
      outcome_map (fun xs => VList (map VInt xs)) (ParseCSVInt.parse s)
  | ParseCSVInt_, _ => no_attribute values "split"
  | ParseErrorCodes_, Some (VStr s) => outcome_map VIntSet (ParseErrorCodes.parse s)
  | ParseErrorCodes_, _ => no_attribute values "strip"
  | ParseArrayLengths_, Some (VStr s) =>
      outcome_map (fun d => VDict (map (fun '(k, xs) => (k, VList (map VInt xs))) d))
           (ParseArrayLengths.parse (Some s))
  | ParseArrayLengths_, _ =>
      if truthy values then no_attribute values "split" else Return (VDict [])
  end.

(** What the process sees of its surroundings. *)
Record Env : Type := {
  getcwd : string;
  cpu_count : option Z;
  path_exists : string -> bool
}.

(** [os.path.join(a, b)] on POSIX. *)
Fixpoint ends_with_slash (a : string) : bool :=
  match a with
  | EmptyString => false
  | String c EmptyString => Ascii.eqb c "/"
  | String _ a' => ends_with_slash a'
  end.

Definition path_join (a b : string) : string :=
  match b with
  | String "/" _ => b
  | _ =>
      match a with
      | EmptyString => b
      | _ => if ends_with_slash a then a +:+ b else a +:+ "/" +:+ b
      end
  end.

Inductive GlobalDefault : Type :=
| Literal (v : option Value)
| Callable (f : Env -> Value).

Record FieldInfo : Type := {
  fd_name : string;
  global_default : GlobalDefault;
  action : option Action
}.

Definition arg (name : string) (d : GlobalDefault) : FieldInfo :=
  {| fd_name := name; global_default := d; action := None |}.
Definition arg_with (name : string) (d : GlobalDefault) (a : Action) : FieldInfo :=
  {| fd_name := name; global_default := d; action := Some a |}.
Definition str_ (s : string) : GlobalDefault := Literal (Some (VStr s)).
Definition int_lit (n : Z) : GlobalDefault := Literal (Some (VInt n)).
Definition false_ : GlobalDefault := Literal (Some (VBool false)).
Definition none_ : GlobalDefault := Literal None.

(** The fields of the [Config] dataclass that are not internal, in
    declaration order. *)
Definition schema : list FieldInfo := [
  arg "root" (Callable (fun e => VStr (getcwd e)));
  arg "config" (Callable (fun e => VStr (path_join (getcwd e) "halmos.toml")));
  arg "contract" (str_ "");
  arg "match_contract" (str_ "");
  arg "function" (str_ "(check|invariant)_");
  arg "match_test" (str_ "");
  arg_with "panic_error_codes" (str_ "0x01") ParseErrorCodes_;
  arg "invariant_depth" (int_lit 2);
  arg "loop" (int_lit 2);
  arg "width" (int_lit 0);
  arg "depth" (int_lit 0);
  arg_with "array_lengths" none_ ParseArrayLengths_;
  arg_with "default_array_lengths" (str_ "0,1,2") ParseCSVInt_;
  arg_with "default_bytes_lengths" (str_ "0,65,1024") ParseCSVInt_;
  arg "storage_layout" (str_ "solidity");
  arg "ffi" false_;
  arg "version" false_;
  arg "coverage_output" none_;
  arg "verbose" (int_lit 0);
  arg "statistics" false_;
  arg "no_status" false_;
  arg "debug" false_;
  arg "debug_config" false_;
  arg "profile_instructions" false_;
  arg "json_output" none_;
  arg "minimal_json_output" false_;
  arg "print_steps" false_;
  arg "print_mem" false_;
  arg "print_states" false_;
  arg "print_success_states" false_;
  arg "print_failed_states" false_;
  arg "print_blocked_states" false_;
  arg "print_setup_states" false_;
  arg "print_full_model" false_;
  arg "early_exit" false_;
  arg "dump_smt_queries" false_;
  arg "dump_smt_directory" (str_ "");
  arg "disable_gc" false_;
  arg "trace_memory" false_;
  arg_with "trace_events"
    (str_ (PyStr.join "," (map TraceEvent_value TraceEvent_members)))
    ParseCSVTraceEvent_;
  arg "forge_build_out" (str_ "out");
  arg "solver" (str_ "yices");
  arg "smt_exp_by_const" (int_lit 2);
  arg_with "solver_timeout_branching" (str_ "1ms") ParseTimeout_;
  arg_with "solver_timeout_assertion" (str_ "60s") ParseTimeout_;
  arg "solver_max_memory" (int_lit 0);
  arg "solver_command" (str_ "");
  arg "solver_threads"
    (Callable (fun e => VInt (match cpu_count e with
                              | Some n => if (n =? 0)%Z then 1%Z else n
                              | None => 1%Z
                              end)));
  arg "cache_solver" false_;
  arg "symbolic_jump" false_;
  arg "flamegraph" false_;
  arg "test_parallel" false_;
  arg "solver_parallel" false_;
  arg "log" none_;
  arg "uninterpreted_unknown_calls"
    (str_ "0x150b7a02,0x1626ba7e,0xf23a6e61,0xbc197c81");
  arg "return_size_of_unknown_calls" (int_lit 32)
].

Definition internal_fields : list string := ["_parent"; "_source"].
Definition Config_fields : list string := map fd_name schema.

Definition is_in (k : string) (ks : list string) : bool :=
  existsb (String.eqb k) ks.

(** ** Logging *)

(** Modelled from the spec: [warn] of [halmos.logs], which is not among the
    sources. A warning is non-fatal; with [allow_duplicate=False] it is
    "deduplicated so repeated resolution does not spam": a text already
    emitted that way is not emitted again. *)
Record Logs : Type := {
  emitted : list string;
  unique_seen : gset string
}.

Definition no_logs : Logs := {| emitted := []; unique_seen := ∅ |}.

Definition warn (text : string) (allow_duplicate : bool) (lg : Logs) : Logs :=
  if allow_duplicate
  then {| emitted := emitted lg ++ [text]; unique_seen := unique_seen lg |}
  else if bool_decide (text ∈ unique_seen lg) then lg
       else {| emitted := emitted lg ++ [text];
               unique_seen := {[text]} ∪ unique_seen lg |}.

(** ** Config layers *)

Inductive ConfigSource : Type :=
| void
| default
| config_file
| contract_annotation
| function_annotation
| command_line.

(** The [IntEnum] value. *)
Definition source_value (s : ConfigSource) : Z :=
  match s with
  | void => 0
  | default => 1
  | config_file => 2
  | contract_annotation => 3
  | function_annotation => 4
  | command_line => 5
  end.

Definition source_name (s : ConfigSource) : string :=
  match s with
  | void => "void"
  | default => "default"
  | config_file => "config_file"
  | contract_annotation => "contract_annotation"
  | function_annotation => "function_annotation"
  | command_line => "command_line"
  end.

#[global] Instance source_truthy : Truthy ConfigSource :=
  fun s => negb (source_value s =? 0)%Z.

Definition source_gt (a b : ConfigSource) : bool :=
  (source_value b <? source_value a)%Z.
Definition source_ge (a b : ConfigSource) : bool :=
  (source_value b <=? source_value a)%Z.
Definition source_eq (a b : ConfigSource) : bool :=
  (source_value a =? source_value b)%Z.

(** One layer: the parent link, the source tag, and the fields that are
    not [None]. *)
Inductive Config : Type :=
  mkConfig (_parent : option Config) (_source : ConfigSource)
           (_values : gmap string Value).

Definition _parent (c : Config) : option Config :=
  match c with mkConfig p _ _ => p end.
Definition _source (c : Config) : ConfigSource :=
  match c with mkConfig _ s _ => s end.
Definition _values (c : Config) : gmap string Value :=
  match c with mkConfig _ _ m => m end.

(** [object.__getattribute__(current, name)] for a field name. *)
Definition getattr (current : Config) (name : string) : option Value :=
  _values current !! name.

(** The call [Config(_parent=..., _source=..., **kwargs)] of the generated
    [__init__]: a keyword given twice is refused when the call is put
    together, an unknown keyword when the arguments are bound, each with the
    first offending key. A field left out, or given as [None], is [None]. *)
Definition Config_init (parent : option Config) (source : ConfigSource)
           (kwargs : dict (option Value)) : Outcome Config :=
  match find (fun k => is_in k internal_fields) (dict_keys kwargs) with
  | Some k =>
      Raise (TypeError
               ("halmos.config.Config() got multiple values for keyword argument "
                +:+ py_repr k))
  | None =>
      match find (fun k => negb (is_in k Config_fields)) (dict_keys kwargs) with
      | Some k =>
          Raise (TypeError
                   ("Config.__init__() got an unexpected keyword argument "
                    +:+ py_repr k))
      | None =>
          Return (mkConfig parent source
                    (fold_left (fun m '(k, v) =>
                                  match v with
                                  | Some v => <[k := v]> m
                                  | None => delete k m
                                  end) kwargs ∅))
      end
  end.

(** [str(e).split()[-1]] *)
Definition last_token (msg : string) : string :=
  List.last (PyStr.split_ws msg) EmptyString.

(** The call [self.with_overrides(source=source, **overrides)]. Binding
    the arguments comes first: an override named like one of the method's
    own parameters is refused there, outside the [try]. *)
Definition with_overrides (self : Config) (source : ConfigSource)
           (overrides : dict (option Value)) (lg : Logs)
  : Outcome Config * Logs :=
  if is_in "source" (dict_keys overrides) then
    (Raise (TypeError
              ("halmos.config.Config.with_overrides() got multiple values "
               +:+ "for keyword argument 'source'")), lg)
  else if is_in "self" (dict_keys overrides) then
    (Raise (TypeError
              ("Config.with_overrides() got multiple values "
               +:+ "for argument 'self'")), lg)
  else
    match Config_init (Some self) source overrides with
    | Raise (TypeError e) =>
        (SysExit 2,
         warn ("error: unrecognized argument: " +:+ last_token e) true lg)
    | r => (r, lg)
    end.

(** The [while current is not None] loop of [value_with_source]. *)
Fixpoint value_with_source_from (current : Config) (name : string)
         (best : option Value * ConfigSource) : option Value * ConfigSource :=
  let best :=
    match getattr current name with
    | Some value =>
        if source_gt (_source current) (snd best)
        then (Some value, _source current) else best
    | None => best
    end in
  match current with
  | mkConfig (Some parent) _ _ => value_with_source_from parent name best
  | mkConfig None _ _ => best
  end.

Definition value_with_source (self : Config) (name : string)
  : option Value * ConfigSource :=
  value_with_source_from self name (None, void).

(** The layers from [self] up to the root. *)
Fixpoint chain (self : Config) : list Config :=
  self :: match self with
          | mkConfig (Some parent) _ _ => chain parent
          | mkConfig None _ _ => []
          end.

(** [_create_default_config] *)
Fixpoint default_values (e : Env) (fs : list FieldInfo)
         (values : dict (option Value)) : Outcome (dict (option Value)) :=
  match fs with
  | [] => Return values
  | f :: fs' =>
      let raw_value :=
        match global_default f with
        | Literal v => v
        | Callable g => Some (g e)
        end in
      let* v := match action f with
                | Some a => outcome_map Some (Action_parse a raw_value)
                | None => Return raw_value
                end in
      default_values e fs' (dict_set values (fd_name f) v)
  end.

Definition _create_default_config (e : Env) : Outcome Config :=
  let* values := default_values e schema [] in
  Config_init None default values.

(** ** Listing the layers *)

(** [dict(items)]: a pair whose key is already there replaces its value. *)
Definition dict_of {V} (items : list (string * V)) : dict V :=
  fold_left (fun d '(k, v) => dict_set d k v) items [].

(** [fields(self)]: the internal fields first, then the options. *)
Definition dataclass_fields : list string := internal_fields ++ Config_fields.

(** The loop of [Config.values]. *)
Fixpoint values_from (self : Config) (skip_empty : bool) (fs : list string)
  : list (string * option Value) :=
  match fs with
  | [] => []
  | name :: fs' =>
      if is_in name internal_fields then values_from self skip_empty fs'
      else
        let field_value := getattr self name in
        match field_value with
        | None =>
            if skip_empty then values_from self skip_empty fs'
            else (name, field_value) :: values_from self skip_empty fs'
        | Some _ => (name, field_value) :: values_from self skip_empty fs'
        end
  end.

Definition values (self : Config) : list (string * option Value) :=
  let skip_empty := match _parent self with Some _ => true | None => false end in
  values_from self skip_empty dataclass_fields.

(** An [OrderedDict] keyed by [ConfigSource]: [d[k] = v] keeps the place
    of a key that is already there. *)
Fixpoint layers_set {V} (d : list (ConfigSource * V)) (k : ConfigSource) (v : V)
  : list (ConfigSource * V) :=
  match d with
  | [] => [(k, v)]
  | (k', v') :: d' =>
      if source_eq k k' then (k', v) :: d' else (k', v') :: layers_set d' k v
  end.

Fixpoint values_by_layer (self : Config)
  : list (ConfigSource * dict (option Value)) :=
  match self with
  | mkConfig None source _ => [(source, dict_of (values self))]
  | mkConfig (Some parent) source _ =>
      layers_set (values_by_layer parent) source (dict_of (values self))
  end.

Section FormattedLayers.

(** The text [str(v)] of a value inside an f-string. *)
Variable format_value : option Value -> string.

Definition newline : string := String "010" EmptyString.

(** The lines of one layer: its heading, then one line for each value. *)
Definition layer_lines (entry : ConfigSource * dict (option Value))
  : list string :=
  (source_name (fst entry) +:+ ":")
  :: map (fun '(field, value) =>
            "  " +:+ field +:+ ": " +:+ format_value value)
         (snd entry).

Definition formatted_layers (self : Config) : string :=
  PyStr.join newline (flat_map layer_lines (values_by_layer self)).

End FormattedLayers.

(** ** The solver command *)

Section SolverCommand.

(** The collaborators of [resolved_solver_command]: the solver registry
    [halmos.solvers.get_solver_command] ([None] when the solver is not
    found), [shlex.split], and the text [str(v)] of a value inside an
    f-string. *)
Variable get_solver_command : option Value -> option (list string).
Variable shlex_split : string -> Outcome (list string).
Variable format_value : option Value -> string.

Definition same_level_warning (solver_source : ConfigSource) : string :=
  "--solver-command and --solver are both provided at the same "
  +:+ "precedence level (" +:+ source_name solver_source +:+ "), "
  +:+ "--solver-command will be used and --solver will be ignored".

(** The branch that uses [--solver-command]: [shlex.split] reads a
    string; any other value has no [read] method. *)
Definition use_solver_command (solver_command : option Value)
  : Outcome (list string) :=
  match solver_command with
  | Some (VStr text) => shlex_split text
  | _ => no_attribute solver_command "read"
  end.

(** The branch that resolves [--solver <name>] through the registry. *)
Definition lookup_named_solver (solver : option Value)
  : Outcome (list string) :=
  match get_solver_command solver with
  | Some ((_ :: _) as command) => Return command
  | _ =>
      Raise (RuntimeError
               ("Solver '" +:+ format_value solver
                +:+ "' could not be found or installed."))
  end.

(** The body of the property. *)
Definition resolved_solver_command (self : Config) (lg : Logs)
  : Outcome (list string) * Logs :=
  let '(solver, solver_source) := value_with_source self "solver" in
  let '(solver_command, solver_command_source) :=
    value_with_source self "solver_command" in
  if truthy solver_command && truthy solver_command_source
     && source_ge solver_command_source solver_source
  then
    let lg :=
      if source_eq solver_command_source solver_source
      then warn (same_level_warning solver_source) false lg
      else lg in
    (use_solver_command solver_command, lg)
  else (lookup_named_solver solver, lg).

(** A [Config] object: the layer and the slot of its instance dictionary
    where [cached_property] keeps the value once the body has returned. *)
Record ConfigObject : Type := {
  layer : Config;
  cached_solver_command : option (list string)
}.

Definition new_object (c : Config) : ConfigObject :=
  {| layer := c; cached_solver_command := None |}.

(** Reading [obj.resolved_solver_command]. *)
Definition get_resolved_solver_command (obj : ConfigObject) (lg : Logs)
  : Outcome (list string) * ConfigObject * Logs :=
  match cached_solver_command obj with
  | Some command => (Return command, obj, lg)
  | None =>
      match resolved_solver_command (layer obj) lg with
      | (Return command, lg') =>
          (Return command,
           {| layer := layer obj; cached_solver_command := Some command |},
           lg')
      | (r, lg') => (r, obj, lg')
      end
  end.

End SolverCommand.

(** ** The config-file locator *)

(** What [parse_known_args] makes of the argument list for the two options
    the locator declares: a system exit (a usage error, or the help flag),
    or the values given for [--root] and [--config], [None] for an option
    that does not occur. *)
Inductive KnownArgs : Type :=
| ArgExit (code : Z)
| ArgValues (root : option string) (config : option string).

Section Locator.

Variable parse_known_args : list string -> KnownArgs.

Definition resolve_config_files (e : Env) (args : list string)
           (include_missing : bool) : Outcome (list string) :=
  match parse_known_args args with
  | ArgExit code => SysExit code
  | ArgValues root config =>
      (* [--root] has the default [os.getcwd()], [--config] has none *)
      let root := match root with Some r => r | None => getcwd e end in
      let default_config_path := path_join root "halmos.toml" in
      let conventional :=
        if negb include_missing && negb (path_exists e default_config_path)
        then Return []
        else Return [default_config_path] in
      match config with
      | Some file => if truthy file then Return [file] else conventional
      | None => conventional
      end
  end.

End Locator.

(** A reading of the argument list for the spellings [--root DIR],
    [--config FILE], [-h] and [--help]; every other argument is left
    alone, as [parse_known_args] leaves the arguments it does not know. *)
Fixpoint scan_args (args : list string) (root config : option string)
  : KnownArgs :=
  match args with
  | [] => ArgValues root config
  | a :: rest =>
      if String.eqb a "-h" || String.eqb a "--help" then ArgExit 0
      else if String.eqb a "--root" then
        match rest with
        | v :: rest' => scan_args rest' (Some v) config
        | [] => ArgExit 2
        end
      else if String.eqb a "--config" then
        match rest with
        | v :: rest' => scan_args rest' root (Some v)
        | [] => ArgExit 2
        end
      else scan_args rest root config
  end.

Definition simple_known_args (args : list string) : KnownArgs :=
  scan_args args None None.

(** ** The config-file reader *)

Module TomlParser.

(** The [actions] table: the action of each schema field. *)
Definition actions (key : string) : option Action :=
  match find (fun f => String.eqb (fd_name f) key) schema with
  | Some f => action f
  | None => None
  end.

(** The loop over [data.items()]. *)
Fixpoint translate (items : list (string * Value)) (result : dict Value)
  : Outcome (dict Value) :=
  match items with
  | [] => Return result
  | (key, value) :: items' =>
      let key := PyStr.replace "-" "_" key in
      let* v := match actions key with
                | Some a => Action_parse a (Some value)
                | None => Return value
                end in
      translate items' (dict_set result key v)
  end.

Definition parse_dict (parsed : dict Value) (lg : Logs)
  : Outcome (dict Value) * Logs :=
  if negb (length parsed =? 1)%nat then
    (SysExit 2,
     warn ("error: expected a single `[global]` section in the toml file, "
           +:+ "got " +:+ PyInt.str (Z.of_nat (length parsed)) +:+ ": "
           +:+ PyStr.join ", " (dict_keys parsed)) true lg)
  else
    match dict_get parsed "global" with
    | None =>
        match dict_keys parsed with
        | key :: _ =>
            (SysExit 2,
             warn ("error: expected a `[global]` section in the toml file, got '"
                   +:+ key +:+ "'") true lg)
        | [] => (no_attribute None "items", lg)
        end
    | Some (VDict items) => (translate items [], lg)
    | Some data => (no_attribute (Some data) "items", lg)
    end.

End TomlParser.

(** * Vocabulary of the properties *)

(** ** Layers *)

(** What a layer says about a field, when it says something. *)
Definition opinion (name : string) (L : Config) : option (Value * ConfigSource) :=
  match getattr L name with
  | Some v => Some (v, _source L)
  | None => None
  end.

(** The opinions along the chain, leaf first. *)
Definition entries (self : Config) (name : string) : list (Value * ConfigSource) :=
  omap (opinion name) (chain self).

(** One step of the loop, seen from the opinions. *)
Definition better (best : option Value * ConfigSource) (e : Value * ConfigSource)
  : option Value * ConfigSource :=
  if source_gt (snd e) (snd best) then (Some (fst e), snd e) else best.

(** Defaults, a config file that sets [loop], a command line that does not. *)
Definition layered_config : Config :=
  mkConfig
    (Some (mkConfig (Some (mkConfig None default {["loop" := VInt 2]}))
                    config_file {["loop" := VInt 4]}))
    command_line ∅.

(** ** The solver command *)

(** The guard of the override branch, without the source's truthiness
    test, which a present value makes redundant. *)
Definition command_overrides (self : Config) : bool :=
  truthy (fst (value_with_source self "solver_command"))
  && source_ge (snd (value_with_source self "solver_command"))
               (snd (value_with_source self "solver")).

Definition same_level (self : Config) : bool :=
  source_eq (snd (value_with_source self "solver_command"))
            (snd (value_with_source self "solver")).

(** A registry that knows [yices], a [shlex.split] for text without quotes
    or escapes, and [str] for the values a solver name takes. *)
Definition sample_registry (solver : option Value) : option (list string) :=
  match solver with
  | Some (VStr "yices") => Some ["yices-smt2"; "--smt2-model-format"]
  | _ => None
  end.

Definition sample_shlex (text : string) : Outcome (list string) :=
  Return (PyStr.split_ws text).

Definition sample_format (v : option Value) : string :=
  match v with
  | Some (VStr s) => s
  | Some (VInt n) => PyInt.str n
  | Some (VBool true) => "True"
  | Some (VBool false) => "False"
  | _ => "None"
  end.

Definition sample_env : Env :=
  {| getcwd := "/project"; cpu_count := Some 4%Z; path_exists := fun _ => false |}.

(** Both options on the command line, above the defaults. *)
Definition tied_config : Config :=
  mkConfig (Some (mkConfig None default
                    {["solver" := VStr "yices"; "solver_command" := VStr ""]}))
           command_line
           {["solver" := VStr "z3"; "solver_command" := VStr "z3 -in"]}.

(** An empty [--solver-command] on the command line, above the defaults. *)
Definition empty_command_config : Config :=
  mkConfig (Some (mkConfig None default
                    {["solver" := VStr "yices"; "solver_command" := VStr ""]}))
           command_line
           {["solver_command" := VStr ""]}.

(** ** Outcomes *)

Definition no_exit {A} (r : Outcome A) : Prop :=
  match r with SysExit _ => False | _ => True end.

(** ** Characters and strings *)

Fixpoint chars_all (p : ascii -> bool) (s : string) : bool :=
  match s with
  | EmptyString => true
  | String c s' => p c && chars_all p s'
  end.

Definition no_space (s : string) : Prop :=
  forallb (fun c => negb (PyStr.is_space c)) (list_ascii_of_string s) = true.

(** The text with its white space removed. *)
Fixpoint without_space (s : string) : string :=
  match s with
  | EmptyString => EmptyString
  | String c t =>
      if PyStr.is_space c then without_space t else String c (without_space t)
  end.

Definition no_comma (x : string) : bool :=
  chars_all (fun c => negb (Ascii.eqb c ",")) x.

(** A token: not empty, and free of white space and commas. *)
Definition csv_char (c : ascii) : bool :=
  negb (PyStr.is_space c) && negb (Ascii.eqb c ",").

Definition token (x : string) : Prop := x <> "" /\ chars_all csv_char x = true.

(** What the parsers need to know about one digit character. *)
Definition plain_char (c : ascii) : bool :=
  negb (PyStr.is_space c) && negb (Ascii.eqb c ",") && negb (Ascii.eqb c "_")
  && negb (Ascii.eqb c "-") && negb (Ascii.eqb c "+") && negb (Ascii.eqb c "*")
  && ParseArrayLengths.name_char c.

(** Digits, most significant first, as text and as a number. *)
Definition digit_string (ds : list Z) : string :=
  string_of_list_ascii (map PyInt.digit_char ds).

Definition digits_value (base : Z) (ds : list Z) (acc : Z) : Z :=
  fold_left (fun a d => a * base + d)%Z ds acc.

(** ** The matcher *)

(** The loop of [Re.go] for [Star], by name. *)
Section StarLoop.
Import Re.
Context {R : Type}.
Variable whole : string.

Definition star_loop (r1 : regex) (k : string -> captures -> option R)
  : nat -> string -> captures -> option R :=
  fix loop (fuel : nat) (s : string) (caps : captures) {struct fuel} : option R :=
    match fuel with
    | O => k s caps
    | S fuel' =>
        match go whole r1 s caps
                (fun s' c' =>
                   if (String.length s' <? String.length s)%nat
                   then loop fuel' s' c' else None) with
        | Some x => Some x
        | None => k s caps
        end
    end.

End StarLoop.

(** [s] does not start with a character of the class. *)
Definition stops (p : ascii -> bool) (s : string) : Prop :=
  match s with
  | EmptyString => True
  | String c _ => p c = false
  end.


(** ** Array lengths *)

(** No name comes with an empty list of sizes. *)
Definition sizes_present (d : dict (list Z)) : Prop :=
  Forall (fun kv => snd kv <> []) d.

Definition name_ok (c : ascii) : bool :=
  ParseArrayLengths.name_char c && negb (PyStr.is_space c).

(** A name the codec can produce: not empty, without white space and
    without the characters of the syntax. *)
Definition valid_name (k : string) : Prop :=
  k <> "" /\ chars_all name_ok k = true.

(** An entry the codec can produce. *)
Definition valid_entry (kv : string * list Z) : Prop :=
  valid_name (fst kv) /\ snd kv <> [] /\ Forall (fun v => 0 <= v)%Z (snd kv).

(** The two ways to write the sizes of a name: a list in braces, or one
    bare integer. *)
Inductive sizes_syntax : Type :=
| Braced (vs : list Z)
| Bare (v : Z).

Definition sizes_of (x : sizes_syntax) : list Z :=
  match x with
  | Braced vs => vs
  | Bare v => [v]
  end.

Definition valid_written (kx : string * sizes_syntax) : Prop :=
  valid_entry (fst kx, sizes_of (snd kx)).

(** The dictionary that a list of written entries stands for, and the way
    [unparse] writes a dictionary. *)
Definition meaning (l : list (string * sizes_syntax)) : dict (list Z) :=
  map (fun kx => (fst kx, sizes_of (snd kx))) l.

Definition braced (d : dict (list Z)) : list (string * sizes_syntax) :=
  map (fun kv => (fst kv, Braced (snd kv))) d.

(** The text: of a list of sizes, of the sizes of one entry with what
    follows them, of one entry, of all entries, and of what follows an
    entry. *)
Definition sizes_text (vs : list Z) : string :=
  PyStr.join "," (map PyInt.str vs).

Definition sizes_then (x : sizes_syntax) (rest : string) : string :=
  match x with
  | Braced vs => String "{" (sizes_text vs +:+ String "}" rest)
  | Bare v => PyInt.str v +:+ rest
  end.

Definition entry_text (kx : string * sizes_syntax) : string :=
  fst kx +:+ String "=" (sizes_then (snd kx) "").

Definition entries_text (l : list (string * sizes_syntax)) : string :=
  PyStr.join "," (map entry_text l).

Definition tail_text (l : list (string * sizes_syntax)) : string :=
  match l with
  | [] => ""
  | _ => String "," (entries_text l)
  end.

(** The groups [findall] finds for one entry, and the tuple made of them. *)
Definition entry_captures (kx : string * sizes_syntax) : Re.captures :=
  match snd kx with
  | Braced vs => [(2, sizes_text vs); (1, fst kx)]
  | Bare v => [(3, PyInt.str v); (1, fst kx)]
  end.

Definition entry_groups (kx : string * sizes_syntax) : string * string * string :=
  match snd kx with
  | Braced vs => (fst kx, sizes_text vs, "")
  | Bare v => (fst kx, "", PyInt.str v)
  end.



(** The repeated group of the format pattern, and what follows it. *)
Definition format_group : Re.regex :=
  Re.Grp 1
    (Re.Cat (Re.Plus (Re.Cls ParseArrayLengths.name_char))
       (Re.Cat (Re.Chr "=")
          (Re.Cat (Re.Grp 2
                     (Re.Alt (Re.Cat (Re.Chr "{")
                                (Re.Cat (Re.Plus (Re.Cls ParseArrayLengths.digit_or_comma))
                                        (Re.Chr "}")))
                             (Re.Plus (Re.Cls ParseArrayLengths.digit))))
                  (Re.Grp 3 (Re.Alt (Re.Chr ",") Re.Eol))))).

Definition format_end (whole : string) (s : string) (caps : Re.captures)
  : option Re.captures :=
  Re.go whole Re.Eol s caps (fun _ caps => Some caps).

(** ** The limit on decimal digits *)

(** [sys.int_info.default_max_str_digits]: [int] of a decimal literal and
    [str] of an integer raise [ValueError] beyond that many digits. *)
Definition max_str_digits : Z := 4300.

(** An integer that [str] writes and [int] reads back. *)
Definition within_digit_limit (n : Z) : Prop :=
  (Z.abs n < 10 ^ max_str_digits)%Z.

(** ** Timeouts *)

(** A whole number of seconds, or below one second a whole number of
    milliseconds. *)
Definition whole_timeout (value : Q) : Prop :=
  (0 <= value)%Q
  /\ ((exists n : Z, (1 <= n)%Z /\ (value == inject_Z n)%Q)
      \/ (exists m : Z, (0 <= m < 1000)%Z /\ (value == m # 1000)%Q)).

(** ** Layers, listed *)

#[global] Instance ConfigSource_eq_dec : EqDecision ConfigSource.
Proof. solve_decision. Defined.

Fixpoint layers_get {V} (d : list (ConfigSource * V)) (k : ConfigSource)
  : option V :=
  match d with
  | [] => None
  | (k', v) :: d' => if source_eq k k' then Some v else layers_get d' k
  end.

(** The layer nearest to the leaf that carries the source [s]. *)
Definition nearest_with_source (self : Config) (s : ConfigSource)
  : option Config :=
  find (fun L => source_eq (_source L) s) (chain self).

(** ** The default configuration *)

(** The options that have no default value. *)
Definition without_default : list string :=
  ["coverage_output"; "json_output"; "log"].

(** The layer [_create_default_config] returns, when it returns one. *)
Definition is_default_config (e : Env) (cfg : Config) : Prop :=
  _create_default_config e = Return cfg.

(** What [_create_default_config] finds for one field. *)
Definition default_field_ok (cfg : Config) (name : string) : bool :=
  match value_with_source cfg name with
  | (None, void) => is_in name without_default
  | (Some _, default) => negb (is_in name without_default)
  | _ => false
  end.

(** ** Lists of items *)

Definition blank_or_comma (c : ascii) : bool :=
  PyStr.is_space c || Ascii.eqb c ",".

Definition free_of (sep : ascii) (x : string) : bool :=
  chars_all (fun c => negb (Ascii.eqb c sep)) x.

(** The sizes written last for a name. *)
Definition last_sizes (l : list (string * sizes_syntax)) (name : string)
  : option (list Z) :=
  option_map (fun kx => sizes_of (snd kx))
             (find (fun kx => String.eqb (fst kx) name) (rev l)).

(** ** Items of a config file *)

(** What the reader makes of one item of the [global] table: the hyphens
    of the key become underscores, and a value whose field has a codec is
    parsed by it. *)
Definition translated (item entry : string * Value) : Prop :=
  fst entry = PyStr.replace "-" "_" (fst item)
  /\ match TomlParser.actions (fst entry) with
     | Some a => Action_parse a (Some (snd item)) = Return (snd entry)
     | None => snd entry = snd item
     end.

(** The keyword arguments [**overrides] for the result of the reader. *)
Definition as_overrides (d : dict Value) : dict (option Value) :=
  map (fun kv => (fst kv, Some (snd kv))) d.

(** * Properties *)

(** ** Sample evaluations *)

Example int0_samples :
  map PyInt.int0 ["0x01"; "2"; "01"; "00"; "0_0"; "1_000"; "0x_1f"; "-0x10";
                  "0x-1"; "0x"; "1__0"; "_1"; "0b11"; "0o17"; " 7 "]
  = [Some 1; Some 2; None; Some 0; Some 0; Some 1000; Some 31; Some (-16);
     None; None; None; None; Some 3; Some 15; Some 7]%Z.
Proof. reflexivity. Qed.

Example str_samples :
  map PyInt.str [0; 7; 10; 1024; -5]%Z = ["0"; "7"; "10"; "1024"; "-5"]
  /\ map PyInt.format_02x [0; 5; 255; 4096; -1]%Z
     = ["00"; "05"; "ff"; "1000"; "-1"].
Proof. split; reflexivity. Qed.

Example array_lengths_samples :
  ParseArrayLengths.parse (Some "a={1,2},b=3") = Return [("a", [1; 2]); ("b", [3])]%Z
  /\ ParseArrayLengths.parse (Some "a={1,2") =
       Raise (ValueError "invalid array lengths format: a={1,2")
  /\ ParseArrayLengths.parse (Some " x = { 1 , 2 } , y=4, ") =
       Return [("x", [1; 2]); ("y", [4])]%Z
  /\ ParseArrayLengths.parse (Some "a={,}") =
       Raise (ValueError "required a non-empty list")
  /\ ParseArrayLengths.parse (Some "a=1,a=2") = Return [("a", [2])]%Z
  /\ ParseArrayLengths.parse (Some "a=1b=2") =
       Raise (ValueError "invalid array lengths format: a=1b=2")
  /\ ParseArrayLengths.unparse [("a", [1; 2]); ("b", [3])]%Z = "a={1,2},b={3}".
Proof. repeat split; vm_compute; reflexivity. Qed.

Example timeout_samples :
  ParseTimeout.parse "5s" = Return (5 * 1)%Q
  /\ ParseTimeout.unparse (1 # 2)%Q = "500ms"
  /\ ParseTimeout.unparse 5%Q = "5s"
  /\ ParseTimeout.unparse (3 # 2)%Q = "1s".
Proof. repeat split; vm_compute; reflexivity. Qed.

(** ** Precedence resolution *)

Lemma Config_chain_ind (P : Config -> Prop) :
  (forall s m, P (mkConfig None s m)) ->
  (forall p s m, P p -> P (mkConfig (Some p) s m)) ->
  forall c, P c.
Proof.
  intros Hroot Hstep. fix IH 1. intros [[p|] s m].
  - apply Hstep, IH.
  - apply Hroot.
Qed.

Lemma value_with_source_from_entries (c : Config) (name : string) :
  forall best,
    value_with_source_from c name best = fold_left better (entries c name) best.
Proof.
  induction c as [s m | p s m IH] using Config_chain_ind; intros best;
    unfold entries; simpl; unfold opinion, getattr; simpl.
  - destruct (m !! name) as [v|]; simpl; [|reflexivity].
    unfold better; simpl. reflexivity.
  - rewrite IH. unfold entries, opinion, getattr.
    destruct (m !! name) as [v|]; simpl; reflexivity.
Qed.

Lemma fold_better_spec (es : list (Value * ConfigSource)) :
  forall b,
    (fold_left better es b = b
     /\ Forall (fun e => (source_value (snd e) <= source_value (snd b))%Z) es)
    \/ (exists pre e post,
          es = pre ++ e :: post
          /\ (source_value (snd b) < source_value (snd e))%Z
          /\ Forall (fun e' => (source_value (snd e') < source_value (snd e))%Z) pre
          /\ Forall (fun e' => (source_value (snd e') <= source_value (snd e))%Z) post
          /\ fold_left better es b = (Some (fst e), snd e)).
Proof.
  induction es as [|a es IH]; intros b; simpl.
  - left. split; [reflexivity | constructor].
  - destruct (Z.ltb_spec (source_value (snd b)) (source_value (snd a))) as [Hlt|Hge].
    + assert (Hba : better b a = (Some (fst a), snd a)).
      { unfold better, source_gt. apply Z.ltb_lt in Hlt. rewrite Hlt. reflexivity. }
      rewrite Hba. right.
      destruct (IH (Some (fst a), snd a)) as [[Heq Hall] | Hex].
      * exists [], a, es. simpl in *. repeat split; auto.
      * destruct Hex as (pre & e & post & -> & Hlt' & Hpre & Hpost & Heq).
        simpl in Hlt'. exists (a :: pre), e, post. simpl.
        repeat split; auto; try lia.
    + assert (Hba : better b a = b).
      { unfold better, source_gt. apply Z.ltb_ge in Hge. rewrite Hge. reflexivity. }
      rewrite Hba.
      destruct (IH b) as [[Heq Hall] | Hex].
      * left. split; auto.
      * right. destruct Hex as (pre & e & post & -> & Hlt' & Hpre & Hpost & Heq).
        exists (a :: pre), e, post. simpl. repeat split; auto.
        constructor; auto. lia.
Qed.

Lemma omap_split {A B} (f : A -> option B) (l : list A) :
  forall pre e post,
    omap f l = pre ++ e :: post ->
    exists lpre x lpost,
      l = lpre ++ x :: lpost /\ omap f lpre = pre /\ f x = Some e
      /\ omap f lpost = post.
Proof.
  induction l as [|a l IH]; intros pre e post H; simpl in H.
  - destruct pre; discriminate.
  - destruct (f a) as [b|] eqn:Hfa.
    + destruct pre as [|b' pre]; simpl in H.
      * injection H as -> <-. exists [], a, l. auto.
      * injection H as -> H.
        destruct (IH _ _ _ H) as (lpre & x & lpost & -> & <- & Hx & <-).
        exists (a :: lpre), x, lpost. simpl. rewrite Hfa. auto.
    + destruct (IH _ _ _ H) as (lpre & x & lpost & -> & <- & Hx & <-).
      exists (a :: lpre), x, lpost. simpl. rewrite Hfa. auto.
Qed.

Lemma Forall_omap_opinion (P : ConfigSource -> Prop) (name : string) (l : list Config) :
  Forall (fun e => P (snd e)) (omap (opinion name) l) ->
  forall L, L ∈ l -> is_Some (getattr L name) -> P (_source L).
Proof.
  induction l as [|a l IH]; intros HF L HL [v Hv].
  - inversion HL.
  - simpl in HF. apply elem_of_cons in HL as [->|HL].
    + unfold opinion in HF. rewrite Hv in HF. inversion HF; subst. assumption.
    + apply IH; eauto. destruct (opinion name a); [inversion HF|]; assumption.
Qed.

Lemma value_with_source_fold (self : Config) (name : string) :
  value_with_source self name = fold_left better (entries self name) (None, void).
Proof. apply value_with_source_from_entries. Qed.

Lemma source_value_void (s : ConfigSource) :
  (0 <= source_value s)%Z /\ ((source_value s <= 0)%Z -> s = void).
Proof. destruct s; simpl; split; try lia; intros; try lia; reflexivity. Qed.

Lemma value_with_source_winner (self : Config) (name : string) :
  (value_with_source self name = (None, void)
   /\ forall L, L ∈ chain self -> getattr L name = None \/ _source L = void)
  \/ (exists pre L post v,
        chain self = pre ++ L :: post
        /\ getattr L name = Some v
        /\ _source L <> void
        /\ (forall L', L' ∈ pre -> is_Some (getattr L' name) ->
                       (source_value (_source L') < source_value (_source L))%Z)
        /\ (forall L', L' ∈ post -> is_Some (getattr L' name) ->
                       (source_value (_source L') <= source_value (_source L))%Z)
        /\ value_with_source self name = (Some v, _source L)).
Proof.
  rewrite value_with_source_fold.
  destruct (fold_better_spec (entries self name) (None, void))
    as [[Heq Hall] | (pre & e & post & Hes & Hlt & Hpre & Hpost & Heq)].
  - left. split; [assumption|]. intros L HL.
    destruct (getattr L name) as [v|] eqn:Hv; [right | left; reflexivity].
    apply source_value_void.
    apply (Forall_omap_opinion (fun s => (source_value s <= 0)%Z) name (chain self));
      eauto.
  - right. unfold entries in Hes.
    destruct (omap_split _ _ _ _ _ Hes) as (lpre & L & lpost & Hch & <- & HL & <-).
    unfold opinion in HL. destruct (getattr L name) as [v|] eqn:Hv; [|discriminate].
    injection HL as <-. simpl in *.
    exists lpre, L, lpost, v. repeat split; auto.
    + intros Hs. rewrite Hs in Hlt. simpl in Hlt. lia.
    + intros L' HL'.
      apply (Forall_omap_opinion
               (fun s => (source_value s < source_value (_source L))%Z) name lpre);
        assumption.
    + intros L' HL'.
      apply (Forall_omap_opinion
               (fun s => (source_value s <= source_value (_source L))%Z) name lpost);
        assumption.
Qed.

(** C1, as amended: walking from the leaf through the parent links,
    [value_with_source] returns the value and the source of the first layer
    that has the field set and whose source is above [void] and at least
    as high as that of every other layer with the field set: layers nearer
    the leaf that set the field are strictly lower, layers further away are
    lower or equal, so of two layers with the same source the one nearer
    the leaf wins. When no layer sets the field, or only layers tagged
    [void] do, the result is [(None, void)]. The result depends only on the
    layers that set the field: layers that leave it unset change nothing. *)
Theorem value_with_source_resolves (self : Config) (name : string) :
  ((value_with_source self name = (None, void)
    /\ forall L, L ∈ chain self -> getattr L name = None \/ _source L = void)
   \/ (exists pre L post v,
         chain self = pre ++ L :: post
         /\ getattr L name = Some v
         /\ _source L <> void
         /\ (forall L', L' ∈ pre -> is_Some (getattr L' name) ->
                        (source_value (_source L') < source_value (_source L))%Z)
         /\ (forall L', L' ∈ post -> is_Some (getattr L' name) ->
                        (source_value (_source L') <= source_value (_source L))%Z)
         /\ value_with_source self name = (Some v, _source L)))
  /\ (forall other : Config,
        entries other name = entries self name ->
        value_with_source other name = value_with_source self name).
Proof.
  split; [apply value_with_source_winner|].
  intros other H. rewrite !value_with_source_fold, H. reflexivity.
Qed.

Lemma value_with_source_resolves_witness :
  value_with_source layered_config "loop" = (Some (VInt 4), config_file).
Proof.
  refine (eq_trans
            (eq_sym (proj2 (value_with_source_resolves layered_config "loop")
                       (mkConfig (Some (mkConfig None default {["loop" := VInt 2]}))
                                 config_file {["loop" := VInt 4]}) _)) _).
  - vm_compute. reflexivity.
  - vm_compute. reflexivity.
Defined.

(** C1 as stated fails for a layer tagged [void]: it sets the field and is
    the only layer, so its source is the highest among the layers that set
    the field, and yet its value is not returned. *)
Lemma void_layer_is_ignored :
  let c := mkConfig None void {["loop" := VInt 3]} in
  chain c = [c]
  /\ getattr c "loop" = Some (VInt 3)
  /\ value_with_source c "loop" = (None, void)
  /\ value_with_source c "loop" <> (Some (VInt 3), _source c).
Proof.
  cbv zeta. split; [reflexivity|]. split; [vm_compute; reflexivity|].
  assert (H : value_with_source (mkConfig None void {["loop" := VInt 3]}) "loop"
              = (None, void)) by (vm_compute; reflexivity).
  split; [exact H|]. rewrite H. discriminate.
Qed.

Lemma value_with_source_shape (self : Config) (name : string) :
  value_with_source self name = (None, void)
  \/ exists v s, value_with_source self name = (Some v, s) /\ s <> void.
Proof.
  destruct (value_with_source_winner self name) as [[H _] | H].
  - left. assumption.
  - right. destruct H as (pre & L & post & v & _ & _ & Hs & _ & _ & Heq).
    exists v, (_source L). auto.
Qed.

Lemma source_truthy_nonvoid (s : ConfigSource) : s <> void -> truthy s = true.
Proof. destruct s; intros H; try reflexivity. contradiction. Qed.

(** ** The solver command *)

Section SolverCommandProperties.

Variable get_solver_command : option Value -> option (list string).
Variable shlex_split : string -> Outcome (list string).
Variable format_value : option Value -> string.

Let resolve := resolved_solver_command get_solver_command shlex_split format_value.
Let read := get_resolved_solver_command get_solver_command shlex_split format_value.
Let by_command := use_solver_command shlex_split.
Let by_name := lookup_named_solver get_solver_command format_value.

Lemma resolved_solver_command_unfold (self : Config) (lg : Logs) :
  resolve self lg =
  if command_overrides self
  then (by_command (fst (value_with_source self "solver_command")),
        if same_level self
        then warn (same_level_warning (snd (value_with_source self "solver")))
                  false lg
        else lg)
  else (by_name (fst (value_with_source self "solver")), lg).
Proof.
  unfold resolve, resolved_solver_command, command_overrides, same_level.
  destruct (value_with_source self "solver") as [solver ss].
  destruct (value_with_source_shape self "solver_command")
    as [H | (v & s & H & Hs)]; rewrite H; simpl.
  - reflexivity.
  - rewrite (source_truthy_nonvoid s Hs), andb_true_r. reflexivity.
Qed.

Lemma warn_unique_seen (w : string) (lg : Logs) :
  w ∈ unique_seen (warn w false lg).
Proof.
  unfold warn. case_bool_decide; simpl; [assumption | set_solver].
Qed.

Lemma warn_unique_again (w : string) (lg : Logs) :
  w ∈ unique_seen lg -> warn w false lg = lg.
Proof. intros H. unfold warn. rewrite bool_decide_eq_true_2; auto. Qed.

Lemma warn_unique_fresh (w : string) (lg : Logs) :
  w ∉ unique_seen lg -> emitted (warn w false lg) = emitted lg ++ [w].
Proof. intros H. unfold warn. rewrite bool_decide_eq_false_2; auto. Qed.

Lemma resolve_twice_logs (self : Config) (lg : Logs) :
  snd (resolve self (snd (resolve self lg))) = snd (resolve self lg)
  /\ fst (resolve self (snd (resolve self lg))) = fst (resolve self lg).
Proof.
  rewrite !resolved_solver_command_unfold.
  destruct (command_overrides self); simpl; [|auto].
  destruct (same_level self); simpl; [|auto].
  split; [|reflexivity]. apply warn_unique_again, warn_unique_seen.
Qed.

Lemma read_new_object (self : Config) (lg : Logs) :
  read (new_object self) lg =
  match resolve self lg with
  | (Return command, lg') =>
      (Return command,
       {| layer := self; cached_solver_command := Some command |}, lg')
  | (r, lg') => (r, new_object self, lg')
  end.
Proof. reflexivity. Qed.

Lemma read_cached (self : Config) (command : list string) (lg : Logs) :
  read {| layer := self; cached_solver_command := Some command |} lg =
  (Return command,
   {| layer := self; cached_solver_command := Some command |}, lg).
Proof. reflexivity. Qed.

Lemma read_twice (self : Config) (lg : Logs) :
  let first := read (new_object self) lg in
  let second := read (snd (fst first)) (snd first) in
  fst (fst second) = fst (fst first) /\ snd second = snd first
  /\ fst (fst first) = fst (resolve self lg) /\ snd first = snd (resolve self lg).
Proof.
  cbv zeta. rewrite read_new_object.
  destruct (resolve_twice_logs self lg) as [Hl Hr].
  destruct (resolve self lg) as [r lg1] eqn:Hres; simpl in Hl, Hr.
  destruct r as [command | e | code]; cbn [fst snd].
  - rewrite read_cached. auto.
  - rewrite read_new_object.
    destruct (resolve self lg1) as [r2 lg2]; simpl in *; subst. auto.
  - rewrite read_new_object.
    destruct (resolve self lg1) as [r2 lg2]; simpl in *; subst. auto.
Qed.

(** C2, as amended: the command given by [solver_command] is used in
    place of the registry lookup exactly when it is truthy (for a string:
    not empty) and its source is at least the source of [solver]; a
    present value never has the source [void], so the source's own
    truthiness test adds nothing. At equal sources the command is still
    used and the only difference is one deduplicated warning: reading the
    property twice on one object gives the same result twice and emits the
    warning once, unless its text was already emitted before. *)
Theorem solver_command_override_rule (self : Config) (lg : Logs) :
  let solver := fst (value_with_source self "solver") in
  let solver_source := snd (value_with_source self "solver") in
  let command := fst (value_with_source self "solver_command") in
  let command_source := snd (value_with_source self "solver_command") in
  let w := same_level_warning solver_source in
  resolve self lg =
    (if truthy command && source_ge command_source solver_source
     then (by_command command,
           if source_eq command_source solver_source
           then warn w false lg else lg)
     else (by_name solver, lg))
  /\ (let first := read (new_object self) lg in
      let second := read (snd (fst first)) (snd first) in
      fst (fst first) = fst (resolve self lg)
      /\ fst (fst second) = fst (fst first)
      /\ emitted (snd second) =
           if truthy command && source_ge command_source solver_source
              && source_eq command_source solver_source
              && negb (bool_decide (w ∈ unique_seen lg))
           then emitted lg ++ [w] else emitted lg).
Proof.
  cbv zeta. split.
  - apply resolved_solver_command_unfold.
  - destruct (read_twice self lg) as (H2 & Hl2 & H1 & Hl1).
    cbv zeta in H2, Hl2, H1, Hl1.
    split; [exact H1 | split; [exact H2 |]].
    rewrite Hl2, Hl1, resolved_solver_command_unfold.
    unfold command_overrides, same_level.
    destruct (truthy (value_with_source self "solver_command").1
              && source_ge (value_with_source self "solver_command").2
                   (value_with_source self "solver").2);
      cbn [andb snd]; [|reflexivity].
    destruct (source_eq (value_with_source self "solver_command").2
                (value_with_source self "solver").2);
      cbn [andb snd]; [|reflexivity].
    case_bool_decide; cbn [negb].
    + rewrite warn_unique_again; auto.
    + apply warn_unique_fresh; auto.
Qed.

(** C9: an empty or absent [solver_command] always leads to the registry
    lookup of the named solver, whatever its source, and emits nothing. *)
Theorem empty_solver_command_uses_registry (self : Config) (lg : Logs) :
  fst (value_with_source self "solver_command") = None
  \/ fst (value_with_source self "solver_command") = Some (VStr "") ->
  command_overrides self = false
  /\ resolve self lg = (by_name (fst (value_with_source self "solver")), lg).
Proof.
  intros H. rewrite resolved_solver_command_unfold.
  assert (Hc : command_overrides self = false).
  { unfold command_overrides. destruct H as [-> | ->]; reflexivity. }
  rewrite Hc. auto.
Qed.

(** The converse reading: whenever the command branch is taken, the
    command is a truthy value, so for text a non-empty string. *)
Lemma command_overrides_truthy (self : Config) :
  command_overrides self = true ->
  exists v, fst (value_with_source self "solver_command") = Some v
            /\ truthy v = true /\ v <> VStr "".
Proof.
  unfold command_overrides. intros H. apply andb_true_iff in H as [H _].
  destruct (value_with_source self "solver_command").1 as [v|]; [|discriminate].
  exists v. repeat split; auto. intros ->. discriminate.
Qed.

End SolverCommandProperties.

(** C2 as stated fails on the built-in default configuration: there
    [solver_command] is the empty string at source [default], the same
    source as [solver], so its source is greater than or equal to the
    solver's, and yet the registry lookup is used, not the command. The
    same happens when an empty [--solver-command] is given explicitly on
    the command line, above a [solver] from the defaults. *)
Lemma default_config_does_not_override :
  (exists self,
      _create_default_config sample_env = Return self
      /\ value_with_source self "solver" = (Some (VStr "yices"), default)
      /\ value_with_source self "solver_command" = (Some (VStr ""), default)
      /\ source_ge default default = true
      /\ resolved_solver_command sample_registry sample_shlex sample_format
           self no_logs
         = (Return ["yices-smt2"; "--smt2-model-format"], no_logs)
      /\ use_solver_command sample_shlex (Some (VStr "")) = Return [])
  /\ value_with_source empty_command_config "solver"
     = (Some (VStr "yices"), default)
  /\ value_with_source empty_command_config "solver_command"
     = (Some (VStr ""), command_line)
  /\ source_ge command_line default = true
  /\ resolved_solver_command sample_registry sample_shlex sample_format
       empty_command_config no_logs
     = (Return ["yices-smt2"; "--smt2-model-format"], no_logs).
Proof.
  split; [|repeat split; vm_compute; reflexivity].
  destruct (_create_default_config sample_env) as [self | e | code] eqn:H;
    [| vm_compute in H; discriminate ..].
  exists self. split; [reflexivity|].
  assert (Hs : value_with_source self "solver" = (Some (VStr "yices"), default)).
  { assert (Ha : match _create_default_config sample_env with
                 | Return c => value_with_source c "solver"
                 | _ => (None, void) end = (Some (VStr "yices"), default))
      by (vm_compute; reflexivity).
    rewrite H in Ha. exact Ha. }
  assert (Hc : value_with_source self "solver_command" = (Some (VStr ""), default)).
  { assert (Ha : match _create_default_config sample_env with
                 | Return c => value_with_source c "solver_command"
                 | _ => (None, void) end = (Some (VStr ""), default))
      by (vm_compute; reflexivity).
    rewrite H in Ha. exact Ha. }
  repeat split; auto.
  unfold resolved_solver_command. rewrite Hs, Hc. vm_compute. reflexivity.
Qed.

Example tied_config_warns_once :
  let first := get_resolved_solver_command sample_registry sample_shlex
                 sample_format (new_object tied_config) no_logs in
  let second := get_resolved_solver_command sample_registry sample_shlex
                 sample_format (snd (fst first)) (snd first) in
  fst (fst first) = Return ["z3"; "-in"]
  /\ fst (fst second) = Return ["z3"; "-in"]
  /\ emitted (snd second) = [same_level_warning command_line].
Proof. vm_compute. auto. Qed.

Lemma empty_solver_command_uses_registry_witness :
  value_with_source empty_command_config "solver_command"
    = (Some (VStr ""), command_line)
  /\ resolved_solver_command sample_registry sample_shlex sample_format
       empty_command_config no_logs
     = (Return ["yices-smt2"; "--smt2-model-format"], no_logs).
Proof.
  split; [vm_compute; reflexivity|].
  refine (eq_trans
            (proj2 (empty_solver_command_uses_registry sample_registry
                      sample_shlex sample_format empty_command_config no_logs _))
            _).
  - right. vm_compute. reflexivity.
  - vm_compute. reflexivity.
Defined.

(** ** Building a layer *)

Lemma split_ws_word (t : string) :
  t <> "" -> no_space t -> PyStr.split_ws t = [t].
Proof.
  unfold no_space. induction t as [|c t IH]; intros Hne Hns; [contradiction|].
  simpl in Hns. apply andb_true_iff in Hns as [Hc Ht].
  apply negb_true_iff in Hc. simpl. rewrite Hc.
  destruct t as [|c' t]; [reflexivity|].
  assert (Hc' : PyStr.is_space c' = false).
  { simpl in Ht. apply andb_true_iff in Ht as [Hc' _].
    apply negb_true_iff in Hc'. exact Hc'. }
  rewrite Hc'. rewrite IH; [reflexivity | discriminate | exact Ht].
Qed.

Lemma split_ws_cons (x : ascii) (s : string) :
  PyStr.split_ws (String x s) =
  if PyStr.is_space x then PyStr.split_ws s
  else match s with
       | EmptyString => [String x EmptyString]
       | String c' _ =>
           if PyStr.is_space c' then String x EmptyString :: PyStr.split_ws s
           else match PyStr.split_ws s with
                | w :: ws => String x w :: ws
                | [] => [String x EmptyString]
                end
       end.
Proof. reflexivity. Qed.

Lemma split_ws_nonempty (y : ascii) (a : string) :
  PyStr.is_space y = false -> PyStr.split_ws (String y a) <> [].
Proof.
  intros Hy. rewrite split_ws_cons, Hy.
  destruct a as [|z a]; [discriminate|].
  destruct (PyStr.is_space z); [discriminate|].
  destruct (PyStr.split_ws (String z a)); discriminate.
Qed.

Lemma split_ws_before_space (a : string) (c : ascii) (t : string) :
  PyStr.is_space c = true ->
  PyStr.split_ws (a +:+ String c t) = PyStr.split_ws a ++ PyStr.split_ws t.
Proof.
  intros Hc. induction a as [|x a IH].
  - simpl. rewrite Hc. reflexivity.
  - change (String x a +:+ String c t) with (String x (a +:+ String c t)).
    rewrite (split_ws_cons x (a +:+ String c t)), (split_ws_cons x a).
    destruct (PyStr.is_space x) eqn:Hx; [exact IH|].
    destruct a as [|y a].
    + simpl. rewrite Hc. reflexivity.
    + change (String y a +:+ String c t) with (String y (a +:+ String c t)) in *.
      cbv beta iota.
      destruct (PyStr.is_space y) eqn:Hy.
      * rewrite IH. reflexivity.
      * rewrite IH.
        pose proof (split_ws_nonempty y a Hy) as Hne.
        destruct (PyStr.split_ws (String y a)) as [|w ws]; [contradiction|].
        reflexivity.
Qed.

Lemma last_token_after_space (a t : string) :
  t <> "" -> no_space t -> last_token (a +:+ String " " t) = t.
Proof.
  intros Hne Hns. unfold last_token.
  rewrite split_ws_before_space by reflexivity.
  rewrite (split_ws_word t) by assumption.
  apply last_last.
Qed.

Lemma no_space_py_repr (k : string) : no_space k -> no_space (py_repr k).
Proof.
  unfold no_space, py_repr. intros H. simpl.
  induction k as [|c k IH]; simpl in *; [reflexivity|].
  apply andb_true_iff in H as [Hc Hk]. rewrite Hc. simpl. apply IH, Hk.
Qed.

(** An override key outside the schema never yields a layer. Unless it is
    named like a parameter of [with_overrides] itself, the outcome is the
    exit with status 2 after one warning, and when the first such key
    contains no white space the warning names it. *)
Lemma with_overrides_unknown_key
      (self : Config) (source : ConfigSource)
      (overrides : dict (option Value)) (lg : Logs) (k : string) :
  is_in "source" (dict_keys overrides) = false ->
  is_in "self" (dict_keys overrides) = false ->
  find (fun k => is_in k internal_fields) (dict_keys overrides) = None ->
  find (fun k => negb (is_in k Config_fields)) (dict_keys overrides) = Some k ->
  with_overrides self source overrides lg
  = (SysExit 2,
     warn ("error: unrecognized argument: "
           +:+ last_token ("Config.__init__() got an unexpected keyword argument "
                           +:+ py_repr k)) true lg)
  /\ (no_space k ->
      with_overrides self source overrides lg
      = (SysExit 2, warn ("error: unrecognized argument: " +:+ py_repr k) true lg)).
Proof.
  intros Hsource Hself Hint Hunk. unfold with_overrides, Config_init.
  rewrite Hsource, Hself, Hint, Hunk.
  split; [reflexivity|]. intros Hns.
  change ("Config.__init__() got an unexpected keyword argument " +:+ py_repr k)
    with ("Config.__init__() got an unexpected keyword argument"
          +:+ String " " (py_repr k)).
  rewrite last_token_after_space;
    [reflexivity | unfold py_repr; simpl; discriminate
     | apply no_space_py_repr, Hns].
Qed.

(** The three outcomes of [with_overrides]: a complete layer on top of
    [self], for overrides that are all fields of the schema; the exit with
    status 2 after one warning; or the [TypeError] of the call itself. There
    is no partial layer. *)
Lemma with_overrides_outcomes
      (self : Config) (source : ConfigSource)
      (overrides : dict (option Value)) (lg : Logs) :
  (exists c, with_overrides self source overrides lg = (Return c, lg)
             /\ _parent c = Some self /\ _source c = source
             /\ Forall (fun k => is_in k Config_fields = true) (dict_keys overrides))
  \/ (exists msg, with_overrides self source overrides lg
                  = (SysExit 2, warn msg true lg))
  \/ (exists msg, with_overrides self source overrides lg
                  = (Raise (TypeError msg), lg)
                  /\ (is_in "source" (dict_keys overrides) = true
                      \/ is_in "self" (dict_keys overrides) = true)).
Proof.
  unfold with_overrides, Config_init.
  destruct (is_in "source" (dict_keys overrides)) eqn:Hsource;
    [right; right; eauto|].
  destruct (is_in "self" (dict_keys overrides)) eqn:Hself;
    [right; right; eauto|].
  destruct (find _ (dict_keys overrides)) as [k|] eqn:Hint; [right; left; eauto|].
  destruct (find (fun k => negb (is_in k Config_fields)) (dict_keys overrides))
    as [k|] eqn:Hunk; [right; left; eauto|].
  left. eexists. repeat split.
  apply Forall_forall. intros k Hk.
  apply list_elem_of_In in Hk.
  apply (find_none _ _ Hunk) in Hk. apply negb_false_iff in Hk. exact Hk.
Qed.

(** C4, the failing inputs. An override named [source], which is not a
    field of the schema, collides with the parameter of [with_overrides]:
    the call raises [TypeError] before the [try] is entered, so there is
    neither the warning nor the exit status 2. An unknown key that contains
    a space does give the exit status 2, but the warning names only the
    fragment after the last space, with a stray quote. *)
Theorem with_overrides_failing_keys (self : Config) (lg : Logs) :
  with_overrides self config_file [("source", Some (VInt 1))] lg
  = (Raise (TypeError
              ("halmos.config.Config.with_overrides() got multiple values "
               +:+ "for keyword argument 'source'")), lg)
  /\ is_in "source" Config_fields = false
  /\ with_overrides self config_file [("foo bar", Some (VInt 1))] lg
     = (SysExit 2, warn "error: unrecognized argument: bar'" true lg).
Proof. repeat split. Qed.

Example with_overrides_samples (self : Config) :
  with_overrides self config_file [("loopp", Some (VInt 4))] no_logs
    = (SysExit 2,
       {| emitted := ["error: unrecognized argument: 'loopp'"];
          unique_seen := ∅ |})
  /\ with_overrides self config_file
       [("loop", Some (VInt 4)); ("_parent", None)] no_logs
    = (SysExit 2,
       {| emitted := ["error: unrecognized argument: '_parent'"];
          unique_seen := ∅ |})
  /\ with_overrides self command_line
       [("loop", Some (VInt 4)); ("solver", None)] no_logs
    = (Return (mkConfig (Some self) command_line {["loop" := VInt 4]}), no_logs).
Proof. repeat split. Qed.

(** A field set by a command-line leaf is resolved to that value, whatever
    the layers below hold. *)
Example command_line_leaf_wins (self : Config) :
  value_with_source
    (mkConfig (Some self) command_line {["loop" := VInt 4]}) "loop"
  = (Some (VInt 4), command_line).
Proof.
  unfold value_with_source. simpl.
  rewrite value_with_source_from_entries.
  destruct (fold_better_spec (entries self "loop") (Some (VInt 4), command_line))
    as [[Hf _] | (pre & e & post & _ & Hlt & _)]; [exact Hf|].
  simpl in Hlt. destruct (snd e); simpl in Hlt; lia.
Qed.

(** ** The config-file reader *)

Lemma no_exit_bind {A B} (m : Outcome A) (f : A -> Outcome B) :
  no_exit m -> (forall a, no_exit (f a)) -> no_exit (bind m f).
Proof. destruct m; simpl; auto. Qed.

Lemma no_exit_traverse {A B} (f : A -> Outcome B) (xs : list A) :
  (forall x, no_exit (f x)) -> no_exit (traverse f xs).
Proof.
  intros Hf. induction xs as [|x xs IH]; simpl; [exact I|].
  apply no_exit_bind; [apply Hf|]. intros y.
  apply no_exit_bind; [exact IH|]. intros ys. exact I.
Qed.

Lemma no_exit_ensure_non_empty {A} `{Truthy A} (values : A) :
  no_exit (ensure_non_empty values).
Proof. unfold ensure_non_empty. destruct (truthy values); exact I. Qed.

Lemma no_exit_int_ (x : string) : no_exit (int_ x).
Proof. unfold int_. destruct (PyInt.int x); exact I. Qed.

Lemma no_exit_int0_ (x : string) : no_exit (int0_ x).
Proof. unfold int0_. destruct (PyInt.int0 x); exact I. Qed.

Lemma no_exit_TraceEvent_of (x : string) : no_exit (TraceEvent_of x).
Proof. unfold TraceEvent_of. destruct (find _ _); exact I. Qed.

Lemma no_exit_parse_time (arg u : string) : no_exit (ParseTime.parse_time arg u).
Proof.
  unfold ParseTime.parse_time.
  destruct (ParseTime.number arg 0 0) as [[whole n] rest].
  destruct n; [exact I|].
  destruct rest as [|c rest]; simpl.
  - destruct (ParseTime.unit_seconds u); exact I.
  - repeat match goal with
           | |- context [match ?x with _ => _ end] => destruct x; simpl; try exact I
           end.
Qed.

Lemma no_exit_build_lengths (ms : list (string * string * string)) :
  forall acc, no_exit (ParseArrayLengths.build ms acc).
Proof.
  induction ms as [|[[name sizes_lst] single_size] ms IH]; intros acc; simpl;
    [exact I|].
  apply no_exit_bind; [apply no_exit_traverse, no_exit_int_|]. intros xs.
  apply no_exit_bind; [apply no_exit_ensure_non_empty|]. intros xs'. apply IH.
Qed.

Lemma no_exit_Action_parse (a : Action) (v : option Value) :
  no_exit (Action_parse a v).
Proof.
  destruct a, v as [[]|]; simpl; try exact I;
    unfold outcome_map; try (apply no_exit_bind; [|intros; exact I]).
  - apply no_exit_parse_time.
  - unfold ParseCSVTraceEvent.parse.
    pose proof (no_exit_traverse TraceEvent_of (parse_csv s ",") no_exit_TraceEvent_of) as H.
    destruct (traverse TraceEvent_of (parse_csv s ",")) as [|[]|]; simpl; auto.
  - unfold ParseCSVInt.parse.
    apply no_exit_bind; [apply no_exit_traverse, no_exit_int_|].
    intros. apply no_exit_ensure_non_empty.
  - unfold ParseErrorCodes.parse. destruct (String.eqb _ _); [exact I|].
    apply no_exit_bind; [apply no_exit_traverse, no_exit_int0_|].
    intros. apply no_exit_ensure_non_empty.
  - destruct (truthy (Some (VBool b))); exact I.
  - destruct (truthy (Some (VInt n))); exact I.
  - destruct (truthy (Some (VFloat x))); exact I.
  - unfold ParseArrayLengths.parse. destruct (negb (truthy s)); [exact I|].
    destruct (Re.re_match _ _); [|exact I]. apply no_exit_build_lengths.
  - destruct (truthy (Some (VList xs))); exact I.
  - destruct (truthy (Some (VDict kvs))); exact I.
  - destruct (truthy (Some (VIntSet s))); exact I.
Qed.

Lemma no_exit_translate (items : list (string * Value)) :
  forall result, no_exit (TomlParser.translate items result).
Proof.
  induction items as [|[key value] items IH]; intros result; simpl; [exact I|].
  apply no_exit_bind; [|intros; apply IH].
  destruct (TomlParser.actions _); [apply no_exit_Action_parse | exact I].
Qed.

(** C5, as amended: the check counts the top-level entries of the parsed
    document, tables and plain values alike. A document that does not have
    exactly one top-level entry is fatal, with exit status 2 and a warning
    that gives the count and the names; a single entry not called [global]
    is fatal in the same way and the warning gives its name; a document
    whose only entry is a table called [global] passes the check, and what
    follows, the translation of its items, never exits. *)
Theorem parse_dict_structure (parsed : dict Value) (lg : Logs) :
  (length parsed <> 1 ->
   TomlParser.parse_dict parsed lg
   = (SysExit 2,
      warn ("error: expected a single `[global]` section in the toml file, got "
            +:+ PyInt.str (Z.of_nat (length parsed)) +:+ ": "
            +:+ PyStr.join ", " (dict_keys parsed)) true lg))
  /\ (forall key data,
        parsed = [(key, data)] -> key <> "global" ->
        TomlParser.parse_dict parsed lg
        = (SysExit 2,
           warn ("error: expected a `[global]` section in the toml file, got '"
                 +:+ key +:+ "'") true lg))
  /\ (forall items,
        parsed = [("global", VDict items)] ->
        TomlParser.parse_dict parsed lg = (TomlParser.translate items [], lg)
        /\ no_exit (fst (TomlParser.parse_dict parsed lg))).
Proof.
  repeat split.
  - intros Hlen. unfold TomlParser.parse_dict.
    destruct (Nat.eqb_spec (length parsed) 1) as [|_]; [contradiction|].
    reflexivity.
  - intros key data -> Hkey. unfold TomlParser.parse_dict.
    cbn -[String.eqb warn String.append].
    destruct (String.eqb_spec "global" key) as [<-|_]; [contradiction|].
    reflexivity.
  - subst. reflexivity.
  - subst. apply no_exit_translate.
Qed.

(** C5 as stated fails where the top level holds something that is not a
    table: a document with one table, called [global], and a plain value
    beside it is refused for having two entries; and a document whose only
    entry is a plain value called [global] has no table at all, yet passes
    the check, to fail without that diagnostic when its items are read. *)
Lemma parse_dict_counts_entries :
  TomlParser.parse_dict
    [("title", VStr "x"); ("global", VDict [("loop", VInt 3)])] no_logs
  = (SysExit 2,
     {| emitted := ["error: expected a single `[global]` section in the toml file, got 2: title, global"];
        unique_seen := ∅ |})
  /\ TomlParser.parse_dict [("global", VInt 5)] no_logs
     = (Raise (AttributeError "'int' object has no attribute 'items'"), no_logs).
Proof. split; reflexivity. Qed.

Lemma parse_dict_structure_witness :
  TomlParser.parse_dict [("a", VDict []); ("b", VDict [])] no_logs
  = (SysExit 2,
     {| emitted := ["error: expected a single `[global]` section in the toml file, got 2: a, b"];
        unique_seen := ∅ |})
  /\ TomlParser.parse_dict [] no_logs
     = (SysExit 2,
        {| emitted := ["error: expected a single `[global]` section in the toml file, got 0: "];
           unique_seen := ∅ |})
  /\ TomlParser.parse_dict [("local", VDict [("loop", VInt 3)])] no_logs
     = (SysExit 2,
        {| emitted := ["error: expected a `[global]` section in the toml file, got 'local'"];
           unique_seen := ∅ |})
  /\ TomlParser.parse_dict
       [("global", VDict [("loop", VInt 3); ("solver-command", VStr "z3 -in")])]
       no_logs
     = (Return [("loop", VInt 3); ("solver_command", VStr "z3 -in")], no_logs).
Proof.
  split; [|split; [|split]].
  - refine (eq_trans
              (proj1 (parse_dict_structure [("a", VDict []); ("b", VDict [])]
                        no_logs) _) _).
    + simpl. lia.
    + reflexivity.
  - refine (eq_trans (proj1 (parse_dict_structure [] no_logs) _) _).
    + simpl. lia.
    + reflexivity.
  - refine (eq_trans
              (proj1 (proj2 (parse_dict_structure
                               [("local", VDict [("loop", VInt 3)])] no_logs))
                     "local" (VDict [("loop", VInt 3)]) eq_refl _) _).
    + discriminate.
    + reflexivity.
  - refine (eq_trans
              (proj1 (proj2 (proj2 (parse_dict_structure
                               [("global", VDict [("loop", VInt 3);
                                                  ("solver-command", VStr "z3 -in")])]
                               no_logs)) _ eq_refl)) _).
    reflexivity.
Defined.

(** ** The config-file locator *)

Section LocatorProperties.

Variable parse_known_args : list string -> KnownArgs.

(** C8, as amended: when the argument parser exits (a usage error or the
    help flag), so does the locator. Otherwise an explicitly given,
    non-empty [--config] path is returned without looking at the file
    system; with no [--config], or an empty one, the answer is the
    conventional path [root/halmos.toml], [root] defaulting to the current
    directory: the empty list when the file is missing and missing files
    are not asked for, the path itself in every other case. *)
Theorem resolve_config_files_spec
        (e : Env) (args : list string) (include_missing : bool) :
  match parse_known_args args with
  | ArgExit code =>
      resolve_config_files parse_known_args e args include_missing
      = SysExit code
  | ArgValues root config =>
      let conventional :=
        path_join (match root with Some r => r | None => getcwd e end)
                  "halmos.toml" in
      match config with
      | Some (String c file) =>
          resolve_config_files parse_known_args e args include_missing
          = Return [String c file]
      | _ =>
          resolve_config_files parse_known_args e args include_missing
          = if include_missing || path_exists e conventional
            then Return [conventional] else Return []
      end
  end.
Proof.
  unfold resolve_config_files.
  destruct (parse_known_args args) as [code | root config]; [reflexivity|].
  cbv zeta.
  destruct config as [[|c file]|]; cbn [truthy string_truthy PyStr.truthy];
    try reflexivity;
    destruct include_missing, (path_exists e _); reflexivity.
Qed.

End LocatorProperties.

(** C8 as stated fails in two places: an explicitly given but empty
    [--config] value is not returned, the conventional path is looked up
    instead; and with the help flag nothing is returned at all. *)
Lemma resolve_config_files_not_unconditional :
  resolve_config_files simple_known_args sample_env ["--config"; ""] false
    = Return []
  /\ simple_known_args ["--config"; ""] = ArgValues None (Some "")
  /\ resolve_config_files simple_known_args sample_env ["--config"; ""] true
    = Return ["/project/halmos.toml"]
  /\ resolve_config_files simple_known_args sample_env ["-h"] false = SysExit 0.
Proof. repeat split. Qed.

Example resolve_config_files_samples :
  resolve_config_files simple_known_args sample_env
    ["--config"; "/nowhere/x.toml"] false = Return ["/nowhere/x.toml"]
  /\ resolve_config_files simple_known_args sample_env
       ["--root"; "/r"; "test"] false = Return []
  /\ resolve_config_files simple_known_args sample_env
       ["--root"; "/r/"] true = Return ["/r/halmos.toml"]
  /\ resolve_config_files simple_known_args
       {| getcwd := "/project"; cpu_count := None; path_exists := fun _ => true |}
       [] false = Return ["/project/halmos.toml"].
Proof. repeat split. Qed.

(** ** Integers as text *)

Lemma append_cons (x : ascii) (a b : string) :
  String x a +:+ b = String x (a +:+ b).
Proof. reflexivity. Qed.

Lemma append_empty_l (b : string) : "" +:+ b = b.
Proof. reflexivity. Qed.

Lemma append_assoc (a b c : string) : (a +:+ b) +:+ c = a +:+ (b +:+ c).
Proof.
  induction a as [|x a IH]; [reflexivity|].
  rewrite !append_cons, IH. reflexivity.
Qed.

Lemma append_empty_r (a : string) : a +:+ "" = a.
Proof.
  induction a as [|x a IH]; [reflexivity|]. rewrite append_cons, IH. reflexivity.
Qed.

Lemma digit_string_app (ds1 ds2 : list Z) :
  digit_string (ds1 ++ ds2) = digit_string ds1 +:+ digit_string ds2.
Proof.
  unfold digit_string. induction ds1 as [|d ds1 IH]; simpl; [reflexivity|].
  rewrite IH, append_cons. reflexivity.
Qed.

Lemma small_digit (d : Z) :
  (0 <= d < 36)%Z -> exists k : nat, (k < 36)%nat /\ d = Z.of_nat k.
Proof. intros H. exists (Z.to_nat d). lia. Qed.

Lemma digit_char_value (d : Z) :
  (0 <= d < 36)%Z ->
  PyInt.digit_value (PyInt.digit_char d) = Some d
  /\ plain_char (PyInt.digit_char d) = true
  /\ ((d < 10)%Z -> ParseTime.is_digit (PyInt.digit_char d) = true
                    /\ Z.of_nat (nat_of_ascii (PyInt.digit_char d)) = (d + 48)%Z).
Proof.
  intros H. destruct (small_digit d H) as (k & Hk & ->).
  do 36 (destruct k as [|k];
         [vm_compute; repeat split; intros; try reflexivity; try discriminate|]).
  lia.
Qed.

Lemma render_spec (fuel : nat) :
  forall (base n : Z) (sfx : string),
    (2 <= base)%Z -> (0 <= n < 2 ^ Z.of_nat (S fuel))%Z ->
    exists ds,
      PyInt.render (S fuel) base n sfx = digit_string ds +:+ sfx
      /\ ds <> []
      /\ Forall (fun d => 0 <= d < base)%Z ds
      /\ digits_value base ds 0 = n.
Proof.
  induction fuel as [|fuel IH]; intros base n sfx Hb Hn;
    assert (Hmod : (0 <= n mod base < base)%Z) by (apply Z.mod_pos_bound; lia).
  - change (2 ^ Z.of_nat 1)%Z with 2%Z in Hn. simpl PyInt.render.
    destruct (Z.ltb_spec n base) as [Hlt | Hge]; [|lia].
    exists [n]. rewrite Z.mod_small by lia. repeat split.
    + discriminate.
    + constructor; [lia | constructor].
  - cbn [PyInt.render].
    destruct (Z.ltb_spec n base) as [Hlt | Hge].
    + exists [n]. rewrite Z.mod_small by lia. repeat split.
      * discriminate.
      * constructor; [lia | constructor].
    + assert (Hdiv : (0 <= n / base < 2 ^ Z.of_nat (S fuel))%Z).
      { split; [apply Z.div_pos; lia|].
        apply Z.div_lt_upper_bound; [lia|].
        rewrite (Nat2Z.inj_succ (S fuel)), Z.pow_succ_r in Hn by lia.
        nia. }
      destruct (IH base (n / base)%Z
                   (String (PyInt.digit_char (n mod base)) sfx) Hb Hdiv)
        as (ds & Hr & Hne & Hall & Hval).
      exists (ds ++ [n mod base]%Z). repeat split.
      * cbn [PyInt.render] in Hr. rewrite Hr, digit_string_app, append_assoc.
        reflexivity.
      * destruct ds; discriminate.
      * apply Forall_app. split; [assumption|]. constructor; [lia | constructor].
      * unfold digits_value in *. rewrite fold_left_app, Hval. simpl.
        rewrite Z.mul_comm. symmetry. apply Z.div_mod. lia.
Qed.

Lemma render_nat_spec (base n : Z) :
  (2 <= base)%Z -> (0 <= n)%Z ->
  exists ds,
    PyInt.render_nat base n = digit_string ds
    /\ ds <> []
    /\ Forall (fun d => 0 <= d < base)%Z ds
    /\ digits_value base ds 0 = n.
Proof.
  intros Hb Hn. unfold PyInt.render_nat.
  destruct (render_spec (Z.to_nat (Z.log2 n)) base n "" Hb) as (ds & Hr & H).
  - split; [assumption|].
    rewrite Nat2Z.inj_succ, Z2Nat.id by apply Z.log2_nonneg.
    destruct (Z.eq_dec n 0%Z) as [->|Hnz]; [reflexivity|].
    apply Z.log2_spec. lia.
  - exists ds. rewrite Hr, append_empty_r. auto.
Qed.

Lemma digits_digit_string (base : Z) (ds : list Z) :
  (base <= 36)%Z -> Forall (fun d => 0 <= d < base)%Z ds ->
  forall (sfx : string) (acc : Z) (st : PyInt.scan),
    ds <> [] ->
    PyInt.digits base (digit_string ds +:+ sfx) acc st
    = PyInt.digits base sfx (digits_value base ds acc) PyInt.after_digit.
Proof.
  intros Hb Hall. induction Hall as [|d ds Hd Hall IH]; intros sfx acc st Hne;
    [contradiction|].
  unfold digit_string. simpl.
  destruct (digit_char_value d) as (Hv & Hp & _); [lia|].
  assert (Hus : Ascii.eqb (PyInt.digit_char d) "_" = false).
  { unfold plain_char in Hp. repeat (apply andb_true_iff in Hp as [Hp ?]).
    apply negb_true_iff. assumption. }
  rewrite Hus, Hv. destruct (Z.ltb_spec d base) as [_|]; [|lia].
  destruct ds as [|d' ds]; [reflexivity|].
  apply IH. discriminate.
Qed.

Lemma int_digit_string (ds : list Z) :
  Forall (fun d => 0 <= d < 10)%Z ds -> ds <> [] ->
  PyInt.digits 10 (digit_string ds) 0 PyInt.at_start = Some (digits_value 10 ds 0).
Proof.
  intros Hall Hne.
  rewrite <- (append_empty_r (digit_string ds)).
  rewrite digits_digit_string; auto. lia.
Qed.

(** ** Strings without separators *)

Lemma chars_all_append (p : ascii -> bool) (a b : string) :
  chars_all p (a +:+ b) = chars_all p a && chars_all p b.
Proof.
  induction a as [|x a IH]; [reflexivity|].
  rewrite append_cons. simpl. rewrite IH, andb_assoc. reflexivity.
Qed.

Lemma chars_all_impl (p q : ascii -> bool) (s : string) :
  (forall c, p c = true -> q c = true) ->
  chars_all p s = true -> chars_all q s = true.
Proof.
  intros Hpq. induction s as [|c s IH]; simpl; [auto|].
  intros H. apply andb_true_iff in H as [Hc Hs].
  rewrite (Hpq c Hc), (IH Hs). reflexivity.
Qed.

Lemma no_space_chars_all (s : string) :
  no_space s <-> chars_all (fun c => negb (PyStr.is_space c)) s = true.
Proof.
  unfold no_space. induction s as [|c s IH]; simpl; [tauto|].
  rewrite !andb_true_iff, IH. tauto.
Qed.

Lemma plain_no_space (s : string) : chars_all plain_char s = true -> no_space s.
Proof.
  intros H. apply no_space_chars_all. revert H. apply chars_all_impl.
  intros c Hc. unfold plain_char in Hc.
  repeat (apply andb_true_iff in Hc as [Hc ?]). assumption.
Qed.

Lemma digit_string_plain (base : Z) (ds : list Z) :
  (base <= 36)%Z -> Forall (fun d => 0 <= d < base)%Z ds ->
  chars_all plain_char (digit_string ds) = true.
Proof.
  intros Hb Hall. unfold digit_string.
  induction Hall as [|d ds Hd Hall IH]; simpl; [reflexivity|].
  destruct (digit_char_value d) as (_ & Hp & _); [lia|].
  rewrite Hp, IH. reflexivity.
Qed.

Lemma digit_string_digits (ds : list Z) :
  Forall (fun d => 0 <= d < 10)%Z ds ->
  chars_all ParseTime.is_digit (digit_string ds) = true.
Proof.
  intros Hall. unfold digit_string.
  induction Hall as [|d ds Hd Hall IH]; simpl; [reflexivity|].
  destruct (digit_char_value d) as (_ & _ & Hp); [lia|].
  destruct Hp as [Hp _]; [lia|]. rewrite Hp, IH. reflexivity.
Qed.

Lemma lstrip_no_space (s : string) : no_space s -> PyStr.lstrip s = s.
Proof.
  unfold no_space. destruct s as [|c s]; simpl; [reflexivity|].
  intros H. apply andb_true_iff in H as [Hc _].
  apply negb_true_iff in Hc. rewrite Hc. reflexivity.
Qed.

Lemma rstrip_no_space (s : string) : no_space s -> PyStr.rstrip s = s.
Proof.
  unfold no_space. induction s as [|c s IH]; simpl; [reflexivity|].
  intros H. apply andb_true_iff in H as [Hc Hs].
  apply negb_true_iff in Hc. rewrite (IH Hs), Hc.
  destruct s; reflexivity.
Qed.

Lemma strip_no_space (s : string) : no_space s -> PyStr.strip s = s.
Proof.
  intros H. unfold PyStr.strip. rewrite lstrip_no_space by assumption.
  apply rstrip_no_space, H.
Qed.

Lemma str_spec (n : Z) :
  exists ds,
    ds <> [] /\ Forall (fun d => 0 <= d < 10)%Z ds
    /\ digits_value 10 ds 0 = Z.abs n
    /\ PyInt.str n = (if (n <? 0)%Z then "-" else "") +:+ digit_string ds.
Proof.
  unfold PyInt.str. destruct (Z.ltb_spec n 0) as [Hneg | Hpos].
  - destruct (render_nat_spec 10 (- n)) as (ds & Hr & Hne & Hall & Hval); [lia..|].
    exists ds. rewrite Hr. repeat split; auto. lia.
  - destruct (render_nat_spec 10 n) as (ds & Hr & Hne & Hall & Hval); [lia..|].
    exists ds. rewrite Hr. repeat split; auto. lia.
Qed.

Lemma str_no_space (n : Z) : no_space (PyInt.str n).
Proof.
  destruct (str_spec n) as (ds & _ & Hall & _ & ->).
  apply no_space_chars_all. rewrite chars_all_append.
  apply andb_true_iff. split; [destruct (n <? 0)%Z; reflexivity|].
  apply no_space_chars_all, plain_no_space, (digit_string_plain 10); [lia | assumption].
Qed.

Lemma digit_string_head (base : Z) (ds : list Z) :
  (base <= 36)%Z -> Forall (fun d => 0 <= d < base)%Z ds -> ds <> [] ->
  exists c rest, digit_string ds = String c rest /\ plain_char c = true.
Proof.
  intros Hb Hall Hne. destruct Hall as [|d ds Hd Hall]; [contradiction|].
  exists (PyInt.digit_char d), (digit_string ds). split; [reflexivity|].
  destruct (digit_char_value d) as (_ & Hp & _); [lia | exact Hp].
Qed.

Lemma split_sign_plain (c : ascii) (rest : string) :
  plain_char c = true -> PyInt.split_sign (String c rest) = (false, String c rest).
Proof.
  intros Hp. unfold plain_char in Hp.
  repeat (apply andb_true_iff in Hp as [Hp ?]).
  repeat match goal with H : negb _ = true |- _ => apply negb_true_iff in H end.
  unfold PyInt.split_sign.
  destruct c as [[] [] [] [] [] [] [] []]; try reflexivity; discriminate.
Qed.

(** [int(str(n)) == n] *)
Lemma int_str (n : Z) : PyInt.int (PyInt.str n) = Some n.
Proof.
  unfold PyInt.int. rewrite strip_no_space by apply str_no_space.
  destruct (str_spec n) as (ds & Hne & Hall & Hval & ->).
  destruct (Z.ltb_spec n 0) as [Hneg | Hpos].
  - rewrite append_cons, append_empty_l. cbn [PyInt.split_sign].
    rewrite int_digit_string by assumption. simpl. rewrite Hval. f_equal. lia.
  - rewrite append_empty_l.
    destruct (digit_string_head 10 ds) as (c & rest & Hd & Hp); [lia | auto..|].
    rewrite Hd, split_sign_plain by assumption. rewrite <- Hd.
    rewrite int_digit_string by assumption. simpl. rewrite Hval. f_equal. lia.
Qed.

Lemma format_02x_spec (n : Z) :
  (0 <= n)%Z ->
  exists ds,
    ds <> [] /\ Forall (fun d => 0 <= d < 16)%Z ds
    /\ digits_value 16 ds 0 = n
    /\ PyInt.format_02x n = digit_string ds.
Proof.
  intros Hn. unfold PyInt.format_02x.
  destruct (Z.ltb_spec n 0) as [|_]; [lia|].
  destruct (render_nat_spec 16 n) as (ds & Hr & Hne & Hall & Hval); [lia..|].
  destruct (Z.ltb_spec n 16) as [Hsmall|Hbig].
  - exists (0%Z :: ds). rewrite Hr. repeat split.
    + discriminate.
    + constructor; [lia | assumption].
    + unfold digits_value in *. simpl. exact Hval.
  - exists ds. rewrite Hr. auto.
Qed.

Lemma hex_literal_plain (n : Z) :
  (0 <= n)%Z -> chars_all plain_char ("0x" +:+ PyInt.format_02x n) = true.
Proof.
  intros Hn. destruct (format_02x_spec n Hn) as (ds & _ & Hall & _ & ->).
  rewrite chars_all_append. apply andb_true_iff. split; [reflexivity|].
  apply (digit_string_plain 16); [lia | assumption].
Qed.

(** [int("0x" + format(n, "02x"), 0) == n] for [n >= 0] *)
Lemma int0_hex (n : Z) :
  (0 <= n)%Z -> PyInt.int0 ("0x" +:+ PyInt.format_02x n) = Some n.
Proof.
  intros Hn. unfold PyInt.int0.
  rewrite strip_no_space by (apply plain_no_space, hex_literal_plain, Hn).
  destruct (format_02x_spec n Hn) as (ds & Hne & Hall & Hval & ->).
  rewrite !append_cons, append_empty_l. cbn [PyInt.split_sign].
  cbn [Ascii.eqb Bool.eqb orb].
  rewrite <- (append_empty_r (digit_string ds)).
  rewrite digits_digit_string; auto; [|lia].
  simpl. rewrite Hval. reflexivity.
Qed.

(** The formatted negative number is not a literal: the sign comes after
    the prefix. *)
Example int0_hex_negative : PyInt.int0 ("0x" +:+ PyInt.format_02x (-1)) = None.
Proof. reflexivity. Qed.

(** ** Splitting and joining *)

Lemma split_no_sep (x : string) :
  no_comma x = true -> PyStr.split "," x = [x].
Proof.
  unfold no_comma. induction x as [|c x IH]; simpl; [reflexivity|].
  intros H. apply andb_true_iff in H as [Hc Hx].
  apply negb_true_iff in Hc. rewrite Hc, (IH Hx). reflexivity.
Qed.

Lemma split_append_sep (x rest : string) :
  no_comma x = true ->
  PyStr.split "," (x +:+ String "," rest) = x :: PyStr.split "," rest.
Proof.
  unfold no_comma. induction x as [|c x IH]; intros H.
  - reflexivity.
  - simpl in H. apply andb_true_iff in H as [Hc Hx].
    apply negb_true_iff in Hc. rewrite append_cons. simpl.
    rewrite Hc, (IH Hx). reflexivity.
Qed.

Lemma join_cons (sep x y : string) (l : list string) :
  PyStr.join sep (x :: y :: l) = x +:+ sep +:+ PyStr.join sep (y :: l).
Proof. reflexivity. Qed.

Lemma split_join (l : list string) :
  l <> [] -> Forall (fun x => no_comma x = true) l ->
  PyStr.split "," (PyStr.join "," l) = l.
Proof.
  intros Hne Hall. induction Hall as [|x l Hx Hall IH]; [contradiction|].
  destruct l as [|y l].
  - simpl. apply split_no_sep, Hx.
  - rewrite join_cons.
    change ("," +:+ PyStr.join "," (y :: l))
      with (String "," (PyStr.join "," (y :: l))).
    rewrite split_append_sep by assumption. rewrite IH; [reflexivity | discriminate].
Qed.

Lemma plain_csv_char (c : ascii) : plain_char c = true -> csv_char c = true.
Proof.
  unfold plain_char, csv_char. intros Hc.
  repeat (apply andb_true_iff in Hc as [Hc ?]).
  apply andb_true_iff. split; assumption.
Qed.

Lemma token_no_comma (x : string) : token x -> no_comma x = true.
Proof.
  intros [_ H]. revert H. apply chars_all_impl. intros c Hc.
  unfold csv_char in Hc. apply andb_true_iff in Hc as [_ Hc]. assumption.
Qed.

Lemma token_no_space (x : string) : token x -> no_space x.
Proof.
  intros [_ H]. apply no_space_chars_all. revert H. apply chars_all_impl.
  intros c Hc. unfold csv_char in Hc. apply andb_true_iff in Hc as [Hc _].
  assumption.
Qed.

Lemma parse_csv_join (l : list string) :
  Forall token l -> parse_csv (PyStr.join "," l) "," = l.
Proof.
  intros Hall. unfold parse_csv.
  destruct l as [|x l]; [reflexivity|].
  rewrite split_join;
    [| discriminate | eapply Forall_impl; [exact Hall | apply token_no_comma]].
  induction Hall as [|y l' Hy Hall IH]; [reflexivity|].
  simpl. rewrite strip_no_space by (apply token_no_space, Hy).
  destruct Hy as [Hne _]. destruct y; [contradiction|]. simpl. f_equal. exact IH.
Qed.

Lemma traverse_map {A B} (f : A -> Outcome B) (g : B -> A) (l : list B) :
  (forall x, x ∈ l -> f (g x) = Return x) -> traverse f (map g l) = Return l.
Proof.
  induction l as [|x l IH]; intros H; simpl; [reflexivity|].
  rewrite H by (left). simpl. rewrite IH; [reflexivity|].
  intros y Hy. apply H. right. exact Hy.
Qed.

Lemma str_token (n : Z) : token (PyInt.str n).
Proof.
  destruct (str_spec n) as (ds & Hne & Hall & _ & Hs). split.
  - rewrite Hs. destruct (n <? 0)%Z; [discriminate|].
    rewrite append_empty_l. destruct Hall; [contradiction | discriminate].
  - rewrite Hs, chars_all_append. apply andb_true_iff. split.
    + destruct (n <? 0)%Z; reflexivity.
    + eapply chars_all_impl; [apply plain_csv_char|].
      apply (digit_string_plain 10); [lia | assumption].
Qed.

Lemma chars_all_join (p : ascii -> bool) (sep : string) (l : list string) :
  chars_all p sep = true -> Forall (fun x => chars_all p x = true) l ->
  chars_all p (PyStr.join sep l) = true.
Proof.
  intros Hsep Hall. induction Hall as [|x l Hx Hall IH]; [reflexivity|].
  destruct l as [|y l]; [exact Hx|].
  rewrite join_cons, !chars_all_append, Hx, Hsep, IH. reflexivity.
Qed.

(** ** Codec round trips *)

(** The lemmas of this part are about [PyInt.str] and [PyInt.int] as they
    are modelled, for integers of any size; the theorems that speak of the
    code have [within_digit_limit] as a hypothesis where decimal digits are
    written or read. *)

Lemma ParseCSVInt_roundtrip (values : list Z) :
  values <> [] ->
  ParseCSVInt.parse (ParseCSVInt.unparse values) = Return values.
Proof.
  intros Hne. unfold ParseCSVInt.parse, ParseCSVInt.unparse.
  rewrite parse_csv_join
    by (apply Forall_forall; intros x Hx; apply list_elem_of_In, in_map_iff in Hx
        as (n & <- & _); apply str_token).
  rewrite traverse_map
    by (intros n _; unfold int_; rewrite int_str; reflexivity).
  simpl. unfold ensure_non_empty. destruct values; [contradiction | reflexivity].
Qed.

Lemma TraceEvent_value_token (e : TraceEvent) : token (TraceEvent_value e).
Proof. destruct e; split; (discriminate || reflexivity). Qed.

Lemma ParseCSVTraceEvent_roundtrip (values : list TraceEvent) :
  ParseCSVTraceEvent.parse (ParseCSVTraceEvent.unparse values) = Return values.
Proof.
  unfold ParseCSVTraceEvent.parse, ParseCSVTraceEvent.unparse.
  rewrite parse_csv_join
    by (apply Forall_forall; intros x Hx; apply list_elem_of_In, in_map_iff in Hx
        as (e & <- & _); apply TraceEvent_value_token).
  rewrite traverse_map; [reflexivity|].
  intros e _. destruct e; reflexivity.
Qed.

Lemma hex_literal_token (n : Z) :
  (0 <= n)%Z -> token ("0x" +:+ PyInt.format_02x n).
Proof.
  intros Hn. split; [discriminate|].
  eapply chars_all_impl; [apply plain_csv_char | apply hex_literal_plain, Hn].
Qed.

Lemma join_head (sep a : string) (c : ascii) (l : list string) :
  exists rest, PyStr.join sep (String c a :: l) = String c rest.
Proof.
  destruct l as [|y l]; [exists a; reflexivity|].
  rewrite join_cons, append_cons. eexists. reflexivity.
Qed.

Lemma ParseErrorCodes_roundtrip (values : gset Z) :
  (forall n, n ∈ values -> (0 <= n)%Z) ->
  ParseErrorCodes.parse (ParseErrorCodes.unparse values) = Return values.
Proof.
  intros Hpos. unfold ParseErrorCodes.unparse.
  unfold truthy at 1, intset_truthy. case_bool_decide as Hempty; simpl.
  - subst. reflexivity.
  - unfold ParseErrorCodes.parse.
    set (lits := map (fun v => "0x" +:+ PyInt.format_02x v) (elements values)).
    assert (Htok : Forall token lits).
    { apply Forall_forall. intros x Hx.
      apply list_elem_of_In, in_map_iff in Hx as (n & <- & Hn).
      apply hex_literal_token, Hpos, elem_of_elements, list_elem_of_In, Hn. }
    rewrite strip_no_space.
    2:{ apply no_space_chars_all, chars_all_join; [reflexivity|].
        eapply Forall_impl; [exact Htok|]. intros x Hx.
        apply no_space_chars_all, token_no_space, Hx. }
    assert (Hstar : String.eqb (PyStr.join "," lits) "*" = false).
    { subst lits. destruct (elements values) as [|n ns] eqn:Hel.
      - apply elements_empty_inv in Hel. apply leibniz_equiv in Hel. contradiction.
      - simpl map. rewrite !append_cons, append_empty_l.
        destruct (join_head "," (String "x" (PyInt.format_02x n)) "0"
                    (map (fun v => "0x" +:+ PyInt.format_02x v) ns)) as [rest ->].
        reflexivity. }
    rewrite Hstar. rewrite parse_csv_join by exact Htok.
    subst lits. rewrite traverse_map.
    2:{ intros n Hn. unfold int0_. rewrite int0_hex; [reflexivity|].
        apply Hpos, elem_of_elements, Hn. }
    simpl. rewrite list_to_set_elements_L. unfold ensure_non_empty.
    unfold truthy, intset_truthy. rewrite bool_decide_eq_false_2 by assumption.
    reflexivity.
Qed.

(** C6: the integer-set codec reads [*] as the empty set and writes the
    empty set as [*]; it reads comma-separated literals in the bases that
    [int(x, 0)] knows, so ["0x01,2"] is the set of 1 and 2; and an input
    other than [*] is never read as the empty set: where the literals leave
    nothing, the result is a [ValueError]. *)
Theorem ParseErrorCodes_star_and_bases :
  ParseErrorCodes.parse "*" = Return ∅
  /\ ParseErrorCodes.unparse ∅ = "*"
  /\ ParseErrorCodes.parse "0x01,2" = Return {[1%Z; 2%Z]}
  /\ ParseErrorCodes.parse "0b11, 0o17,0x1F ,10" = Return {[3%Z; 15%Z; 31%Z; 10%Z]}
  /\ (forall values : string,
        ParseErrorCodes.parse values = Return ∅ -> PyStr.strip values = "*")
  /\ (forall values : string,
        PyStr.strip values <> "*" ->
        parse_csv (PyStr.strip values) "," = [] ->
        ParseErrorCodes.parse values
        = Raise (ValueError "required a non-empty list")).
Proof.
  split; [reflexivity|]. split; [reflexivity|].
  split; [vm_compute; reflexivity|]. split; [vm_compute; reflexivity|].
  split.
  - intros values. unfold ParseErrorCodes.parse.
    destruct (String.eqb_spec (PyStr.strip values) "*") as [Heq|_]; [auto|].
    destruct (traverse int0_ _) as [xs| |]; simpl; try discriminate.
    unfold ensure_non_empty.
    destruct (truthy (list_to_set xs : gset Z)) eqn:Ht; [|discriminate].
    intros [= Hxs]. rewrite Hxs in Ht. discriminate.
  - intros values Hne Hcsv. unfold ParseErrorCodes.parse.
    destruct (String.eqb_spec (PyStr.strip values) "*") as [Heq|_]; [contradiction|].
    rewrite Hcsv. reflexivity.
Qed.

Lemma ParseErrorCodes_star_and_bases_witness :
  PyStr.strip " * " = "*"
  /\ ParseErrorCodes.parse " , " = Raise (ValueError "required a non-empty list").
Proof.
  split.
  - apply (proj1 (proj2 (proj2 (proj2 (proj2 ParseErrorCodes_star_and_bases))))).
    reflexivity.
  - apply (proj2 (proj2 (proj2 (proj2 (proj2 ParseErrorCodes_star_and_bases))))).
    + discriminate.
    + reflexivity.
Defined.

(** ** The array-lengths codec *)

Lemma split_ws_all_space (s : string) :
  chars_all PyStr.is_space s = true -> PyStr.split_ws s = [].
Proof.
  induction s as [|c s IH]; simpl; [reflexivity|].
  intros H. apply andb_true_iff in H as [Hc Hs]. rewrite Hc. exact (IH Hs).
Qed.

Lemma dict_set_sizes_present (d : dict (list Z)) (k : string) (xs : list Z) :
  sizes_present d -> xs <> [] -> sizes_present (dict_set d k xs).
Proof.
  unfold sizes_present. intros Hd Hxs.
  induction Hd as [|[k' v'] d Hkv Hd IH]; simpl.
  - constructor; [exact Hxs | constructor].
  - destruct (String.eqb k k'); constructor; auto.
Qed.

Lemma build_sizes_present (ms : list (string * string * string)) :
  forall acc d,
    sizes_present acc -> ParseArrayLengths.build ms acc = Return d ->
    sizes_present d.
Proof.
  induction ms as [|[[name sizes_lst] single_size] ms IH]; intros acc d Hacc H;
    simpl in H.
  - injection H as <-. exact Hacc.
  - destruct (traverse int_ _) as [xs| |]; simpl in H; try discriminate.
    unfold ensure_non_empty in H.
    destruct xs as [|x xs]; simpl in H; [discriminate|].
    eapply IH; [|exact H]. apply dict_set_sizes_present; [exact Hacc | discriminate].
Qed.

(** C10: [None], the empty string and a string of white space all give the
    empty dictionary without an error; a non-empty text that the format
    check rejects raises [ValueError]; and no result ever holds an empty
    list of sizes. *)
Theorem ParseArrayLengths_empty_input :
  ParseArrayLengths.parse None = Return []
  /\ (forall values : string,
        chars_all PyStr.is_space values = true ->
        ParseArrayLengths.parse (Some values) = Return [])
  /\ (forall values : string,
        values <> "" ->
        Re.re_match ParseArrayLengths.format_re
                    (PyStr.join "" (PyStr.split_ws values)) = None ->
        ParseArrayLengths.parse (Some values)
        = Raise (ValueError ("invalid array lengths format: "
                             +:+ PyStr.join "" (PyStr.split_ws values))))
  /\ (forall (values : option string) (d : dict (list Z)),
        ParseArrayLengths.parse values = Return d -> sizes_present d).
Proof.
  split; [reflexivity|]. split; [|split].
  - intros values Hsp. unfold ParseArrayLengths.parse.
    destruct values as [|c values]; [reflexivity|].
    cbn [truthy string_truthy PyStr.truthy negb].
    rewrite (split_ws_all_space _ Hsp). reflexivity.
  - intros values Hne Hre. unfold ParseArrayLengths.parse.
    destruct values as [|c values]; [contradiction|].
    cbn [truthy string_truthy PyStr.truthy negb]. rewrite Hre. reflexivity.
  - intros values d H. unfold ParseArrayLengths.parse in H.
    destruct values as [values|]; [|injection H as <-; constructor].
    destruct (negb (truthy values)); [injection H as <-; constructor|].
    destruct (Re.re_match _ _); [|discriminate].
    eapply build_sizes_present; [|exact H]. constructor.
Qed.

Lemma ParseArrayLengths_empty_input_witness :
  ParseArrayLengths.parse (Some "   ") = Return []
  /\ ParseArrayLengths.parse (Some "a={}")
     = Raise (ValueError "invalid array lengths format: a={}")
  /\ sizes_present [("a", [1; 2]%Z); ("b", [3%Z])].
Proof.
  split; [|split].
  - apply (proj1 (proj2 ParseArrayLengths_empty_input)). reflexivity.
  - apply (proj1 (proj2 (proj2 ParseArrayLengths_empty_input)) "a={}").
    + discriminate.
    + vm_compute. reflexivity.
  - apply (proj2 (proj2 (proj2 ParseArrayLengths_empty_input))
             (Some "a={1,2},b=3")).
    vm_compute. reflexivity.
Defined.

Example ParseArrayLengths_empty_sizes :
  ParseArrayLengths.parse (Some "a={,}") = Raise (ValueError "required a non-empty list")
  /\ ParseArrayLengths.parse (Some "") = Return [].
Proof. split; vm_compute; reflexivity. Qed.

(** ** The matcher on runs of characters *)

Section EngineLemmas.
Import Re.
Context {R : Type}.
Variable whole : string.

Lemma go_star (r1 : regex) (s : string) (caps : captures)
      (k : string -> captures -> option R) :
  go whole (Star r1) s caps k = star_loop whole r1 k (String.length s) s caps.
Proof. reflexivity. Qed.

Lemma go_cat (r1 r2 : regex) (s : string) (caps : captures)
      (k : string -> captures -> option R) :
  go whole (Cat r1 r2) s caps k
  = go whole r1 s caps (fun s1 c1 => go whole r2 s1 c1 k).
Proof. reflexivity. Qed.

Lemma go_grp (i : nat) (r1 : regex) (s : string) (caps : captures)
      (k : string -> captures -> option R) :
  go whole (Grp i r1) s caps k
  = go whole r1 s caps (fun s' c' => k s' ((i, taken s s') :: c')).
Proof. reflexivity. Qed.

Lemma go_chr (c : ascii) (s : string) (caps : captures)
      (k : string -> captures -> option R) :
  go whole (Chr c) (String c s) caps k = k s caps.
Proof. unfold Chr. simpl. rewrite Ascii.eqb_refl. reflexivity. Qed.

Lemma go_alt_left (r1 r2 : regex) (s : string) (caps : captures)
      (k : string -> captures -> option R) (x : R) :
  go whole r1 s caps k = Some x -> go whole (Alt r1 r2) s caps k = Some x.
Proof. intros H. simpl. rewrite H. reflexivity. Qed.

Lemma go_alt_right (r1 r2 : regex) (s : string) (caps : captures)
      (k : string -> captures -> option R) :
  go whole r1 s caps k = None ->
  go whole (Alt r1 r2) s caps k = go whole r2 s caps k.
Proof. intros H. simpl. rewrite H. reflexivity. Qed.

Lemma go_cls_cons (p : ascii -> bool) (c : ascii) (s : string)
      (caps : captures) (k : string -> captures -> option R) :
  go whole (Cls p) (String c s) caps k = if p c then k s caps else None.
Proof. reflexivity. Qed.

Lemma go_cls_stops (p : ascii -> bool) (s : string) (caps : captures)
      (k : string -> captures -> option R) :
  stops p s -> go whole (Cls p) s caps k = None.
Proof. destruct s as [|c s]; simpl; [reflexivity|]. intros ->. reflexivity. Qed.

Lemma length_append (a b : string) :
  String.length (a +:+ b) = (String.length a + String.length b)%nat.
Proof.
  induction a as [|x a IH]; [reflexivity|].
  rewrite append_cons. simpl. rewrite IH. reflexivity.
Qed.

(** A greedy star over a class takes the whole run when the continuation
    accepts what follows. *)
Lemma star_cls_run (p : ascii -> bool) (k : string -> captures -> option R)
      (rest : string) (caps : captures) (x : R) (w : string) :
  forall fuel,
    chars_all p w = true -> stops p rest ->
    (String.length (w +:+ rest) <= fuel)%nat ->
    k rest caps = Some x ->
    star_loop whole (Cls p) k fuel (w +:+ rest) caps = Some x.
Proof.
  induction w as [|c w IH]; intros fuel Hw Hstop Hfuel Hk.
  - rewrite append_empty_l. destruct fuel as [|fuel]; cbn [star_loop]; [exact Hk|].
    rewrite go_cls_stops by assumption. exact Hk.
  - simpl in Hw. apply andb_true_iff in Hw as [Hc Hw].
    rewrite append_cons in *. simpl in Hfuel.
    destruct fuel as [|fuel]; [lia|].
    cbn [star_loop]. rewrite go_cls_cons, Hc.
    assert (Hlt : (String.length (w +:+ rest) <? S (String.length (w +:+ rest)))%nat
                  = true) by (apply Nat.ltb_lt; lia).
    cbn [String.length]. rewrite Hlt.
    fold (star_loop whole (Cls p) k).
    rewrite (IH fuel) by (auto; lia). reflexivity.
Qed.

Lemma plus_cls_run (p : ascii -> bool) (k : string -> captures -> option R)
      (rest : string) (caps : captures) (x : R) (w : string) :
  w <> "" -> chars_all p w = true -> stops p rest ->
  k rest caps = Some x ->
  go whole (Plus (Cls p)) (w +:+ rest) caps k = Some x.
Proof.
  intros Hne Hw Hstop Hk. destruct w as [|c w]; [contradiction|].
  simpl in Hw. apply andb_true_iff in Hw as [Hc Hw].
  unfold Plus. rewrite go_cat, append_cons, go_cls_cons, Hc.
  rewrite go_star. apply star_cls_run; auto.
Qed.

Lemma plus_cls_stops (p : ascii -> bool) (k : string -> captures -> option R)
      (s : string) (caps : captures) :
  stops p s -> go whole (Plus (Cls p)) s caps k = None.
Proof. intros H. unfold Plus. rewrite go_cat. apply go_cls_stops, H. Qed.

Lemma taken_append (w rest : string) : taken (w +:+ rest) rest = w.
Proof.
  unfold taken. rewrite length_append.
  replace (String.length w + String.length rest - String.length rest)%nat
    with (String.length w) by lia.
  induction w as [|c w IH]; [destruct rest; reflexivity|].
  rewrite append_cons. simpl. rewrite IH. reflexivity.
Qed.

End EngineLemmas.

Section EngineSuccess.
Import Re.
Context {R : Type}.
Variable whole : string.

Lemma plus_cls_run_some (p : ascii -> bool) (k : string -> captures -> option R)
      (rest : string) (caps : captures) (w : string) :
  w <> "" -> chars_all p w = true -> stops p rest ->
  is_Some (k rest caps) ->
  is_Some (go whole (Plus (Cls p)) (w +:+ rest) caps k).
Proof.
  intros Hne Hw Hstop [x Hx]. exists x. apply plus_cls_run; assumption.
Qed.

Lemma go_alt_left_some (r1 r2 : regex) (s : string) (caps : captures)
      (k : string -> captures -> option R) :
  is_Some (go whole r1 s caps k) -> is_Some (go whole (Alt r1 r2) s caps k).
Proof. intros [x Hx]. exists x. apply go_alt_left, Hx. Qed.

Lemma star_loop_step_some (r1 : regex) (k : string -> captures -> option R)
      (fuel : nat) (s : string) (caps : captures) :
  is_Some (go whole r1 s caps
             (fun s' c' =>
                if (String.length s' <? String.length s)%nat
                then star_loop whole r1 k fuel s' c' else None)) ->
  is_Some (star_loop whole r1 k (S fuel) s caps).
Proof. intros [x Hx]. exists x. cbn [star_loop]. fold (star_loop whole r1 k). rewrite Hx. reflexivity. Qed.

End EngineSuccess.

(** ** The array-lengths codec on written entries *)

Lemma unparse_entries (d : dict (list Z)) :
  ParseArrayLengths.unparse d = entries_text (braced d).
Proof.
  unfold ParseArrayLengths.unparse, entries_text, braced. f_equal.
  rewrite map_map. apply map_ext. intros [k vs]. reflexivity.
Qed.

Lemma meaning_braced (d : dict (list Z)) : meaning (braced d) = d.
Proof.
  unfold meaning, braced. rewrite map_map. simpl.
  rewrite <- (map_id d) at 2. apply map_ext. intros [k vs]. reflexivity.
Qed.

Lemma valid_written_braced (d : dict (list Z)) :
  Forall valid_entry d -> Forall valid_written (braced d).
Proof.
  intros H. unfold braced. apply Forall_map. eapply Forall_impl; [exact H|].
  intros [k vs] Hkv. exact Hkv.
Qed.

Lemma str_nonneg_digits (v : Z) :
  (0 <= v)%Z ->
  PyInt.str v <> ""
  /\ chars_all ParseArrayLengths.digit (PyInt.str v) = true
  /\ chars_all plain_char (PyInt.str v) = true.
Proof.
  intros Hv. destruct (str_spec v) as (ds & Hne & Hall & _ & Hs).
  destruct (Z.ltb_spec v 0) as [|_]; [lia|]. rewrite append_empty_l in Hs.
  rewrite Hs. repeat split.
  - destruct Hall; [contradiction | discriminate].
  - apply digit_string_digits, Hall.
  - apply (digit_string_plain 10); [lia | exact Hall].
Qed.

Lemma join_nonempty (sep x : string) (l : list string) :
  x <> "" -> PyStr.join sep (x :: l) <> "".
Proof.
  intros Hx. destruct x as [|c x]; [contradiction|].
  destruct (join_head sep x c l) as [rest ->]. discriminate.
Qed.

Lemma sizes_text_spec (vs : list Z) :
  vs <> [] -> Forall (fun v => 0 <= v)%Z vs ->
  sizes_text vs <> ""
  /\ chars_all ParseArrayLengths.digit_or_comma (sizes_text vs) = true
  /\ chars_all (fun c => negb (PyStr.is_space c)) (sizes_text vs) = true.
Proof.
  intros Hne Hall. unfold sizes_text. split; [|split].
  - destruct Hall as [|v vs Hv Hall]; [contradiction|]. simpl map.
    apply join_nonempty, (str_nonneg_digits v Hv).
  - apply chars_all_join; [reflexivity|]. apply Forall_forall. intros x Hx.
    apply list_elem_of_In, in_map_iff in Hx as (v & <- & Hv).
    assert (Hv' : (0 <= v)%Z)
      by (rewrite Forall_forall in Hall; apply Hall, list_elem_of_In, Hv).
    eapply chars_all_impl; [|apply (proj1 (proj2 (str_nonneg_digits v Hv')))].
    intros c Hc. unfold ParseArrayLengths.digit_or_comma. rewrite Hc. reflexivity.
  - apply chars_all_join; [reflexivity|]. apply Forall_forall. intros x Hx.
    apply list_elem_of_In, in_map_iff in Hx as (v & <- & Hv).
    apply no_space_chars_all, str_no_space.
Qed.

Lemma valid_name_chars (k : string) :
  valid_name k ->
  chars_all ParseArrayLengths.name_char k = true /\ no_space k.
Proof.
  intros [_ H]. split.
  - revert H. apply chars_all_impl. intros c Hc. unfold name_ok in Hc.
    apply andb_true_iff in Hc as [Hc _]. exact Hc.
  - apply no_space_chars_all. revert H. apply chars_all_impl. intros c Hc.
    unfold name_ok in Hc. apply andb_true_iff in Hc as [_ Hc]. exact Hc.
Qed.

(** A digit is not an opening brace. *)
Lemma go_brace_at_digits {R : Type} (whole digits rest : string)
      (r : Re.regex) (caps : Re.captures)
      (k : string -> Re.captures -> option R) :
  digits <> "" -> chars_all ParseArrayLengths.digit digits = true ->
  Re.go whole (Re.Cat (Re.Chr "{") r) (digits +:+ rest) caps k = None.
Proof.
  intros Hne Hd. destruct digits as [|c digits]; [contradiction|].
  simpl in Hd. apply andb_true_iff in Hd as [Hc _].
  rewrite go_cat, append_cons. unfold Re.Chr. rewrite go_cls_cons.
  destruct (Ascii.eqb_spec "{" c) as [<-|_]; [discriminate | reflexivity].
Qed.

(** One entry, read by the [findall] pattern. *)
Lemma entry_re_match (whole : string) (kx : string * sizes_syntax)
      (rest : string) :
  valid_written kx -> stops ParseArrayLengths.digit rest ->
  Re.match_at whole ParseArrayLengths.entry_re
              (fst kx +:+ String "=" (sizes_then (snd kx) rest))
  = Some (rest, entry_captures kx).
Proof.
  destruct kx as [key x]. intros [Hkey [Hne Hpos]] Hstop.
  cbn [fst snd] in *.
  destruct (valid_name_chars key Hkey) as [Hk _].
  unfold Re.match_at, ParseArrayLengths.entry_re, entry_captures.
  cbn [fst snd]. rewrite go_cat, go_grp.
  apply plus_cls_run; [apply Hkey | exact Hk | reflexivity |].
  rewrite taken_append, go_cat, go_chr.
  destruct x as [vs | v]; cbn [sizes_then sizes_of] in *.
  - destruct (sizes_text_spec vs Hne Hpos) as (Hs1 & Hs2 & _).
    apply go_alt_left.
    rewrite go_cat, go_chr, go_cat, go_grp.
    apply plus_cls_run; [exact Hs1 | exact Hs2 | reflexivity |].
    rewrite taken_append, go_chr. reflexivity.
  - assert (Hv : (0 <= v)%Z) by (inversion Hpos; assumption).
    destruct (str_nonneg_digits v Hv) as (Hd1 & Hd2 & _).
    rewrite go_alt_right by (apply go_brace_at_digits; assumption).
    rewrite go_grp.
    apply plus_cls_run; [exact Hd1 | exact Hd2 | exact Hstop |].
    rewrite taken_append. reflexivity.
Qed.

Lemma entry_re_no_match (whole s : string) :
  stops ParseArrayLengths.name_char s ->
  Re.match_at whole ParseArrayLengths.entry_re s = None.
Proof.
  intros H. unfold Re.match_at, ParseArrayLengths.entry_re.
  rewrite go_cat, go_grp. apply plus_cls_stops, H.
Qed.

Lemma sizes_then_append (x : sizes_syntax) (a b : string) :
  sizes_then x a +:+ b = sizes_then x (a +:+ b).
Proof.
  destruct x as [vs | v]; simpl.
  - rewrite append_cons, append_assoc, append_cons. reflexivity.
  - apply append_assoc.
Qed.

Lemma entries_text_cons (e : string * sizes_syntax)
      (l : list (string * sizes_syntax)) :
  entries_text (e :: l)
  = fst e +:+ String "=" (sizes_then (snd e) (tail_text l)).
Proof.
  unfold entries_text. destruct l as [|e' l]; [reflexivity|].
  simpl map. rewrite join_cons. unfold entry_text at 1.
  rewrite append_assoc, append_cons, sizes_then_append.
  reflexivity.
Qed.

Lemma tail_text_stops (l : list (string * sizes_syntax)) :
  stops ParseArrayLengths.digit (tail_text l)
  /\ stops ParseArrayLengths.name_char (tail_text l).
Proof. destruct l; split; (exact I || reflexivity). Qed.

Lemma sizes_then_length (x : sizes_syntax) (rest : string) :
  (String.length rest < String.length (sizes_then x rest))%nat.
Proof.
  destruct x as [vs | v]; simpl.
  - rewrite length_append. simpl. lia.
  - rewrite length_append.
    destruct (PyInt.str v) as [|c s] eqn:Hs; simpl; [|lia].
    exfalso. destruct (str_spec v) as (ds & Hne & Hall & _ & Hs').
    rewrite Hs in Hs'. destruct (v <? 0)%Z; [discriminate|].
    rewrite append_empty_l in Hs'. destruct Hall; [contradiction | discriminate].
Qed.

Lemma scan_empty (whole : string) (fuel : nat) :
  Re.scan whole ParseArrayLengths.entry_re fuel "" = [].
Proof.
  destruct fuel as [|fuel]; [reflexivity|]. cbn [Re.scan].
  rewrite entry_re_no_match by exact I. reflexivity.
Qed.

Lemma scan_entries (whole : string) (l : list (string * sizes_syntax)) :
  forall fuel,
    Forall valid_written l ->
    (String.length (entries_text l) < fuel)%nat ->
    Re.scan whole ParseArrayLengths.entry_re fuel (entries_text l)
    = map entry_captures l.
Proof.
  induction l as [|e l IH]; intros fuel Hall Hfuel.
  - apply scan_empty.
  - inversion Hall as [|? ? He Hall']; subst.
    rewrite entries_text_cons in *.
    pose proof (sizes_then_length (snd e) (tail_text l)) as Hlen.
    rewrite length_append in Hfuel. cbn [String.length] in Hfuel.
    destruct fuel as [|fuel]; [lia|]. cbn [Re.scan].
    rewrite entry_re_match by (auto; apply tail_text_stops).
    rewrite length_append. cbn [String.length].
    match goal with
    | |- context [(?a <? ?b)%nat] =>
        replace (a <? b)%nat with true by (symmetry; apply Nat.ltb_lt; lia)
    end.
    simpl map. f_equal.
    destruct l as [|e' l].
    + apply scan_empty.
    + cbn [tail_text] in *. cbn [String.length] in Hlen.
      destruct fuel as [|fuel]; [lia|]. cbn [Re.scan].
      rewrite entry_re_no_match by reflexivity.
      apply IH; [assumption | lia].
Qed.

Lemma group_entry_captures (kx : string * sizes_syntax) :
  (Re.group (entry_captures kx) 1, Re.group (entry_captures kx) 2,
   Re.group (entry_captures kx) 3) = entry_groups kx.
Proof. destruct kx as [k [vs | v]]; reflexivity. Qed.

Lemma findall3_entries (l : list (string * sizes_syntax)) :
  Forall valid_written l ->
  Re.findall3 ParseArrayLengths.entry_re (entries_text l) = map entry_groups l.
Proof.
  intros Hall. unfold Re.findall3.
  rewrite scan_entries by (auto; lia).
  rewrite map_map. apply map_ext. intros kx. apply group_entry_captures.
Qed.

Lemma tail_text_length (l : list (string * sizes_syntax)) :
  (String.length (entries_text l) <= String.length (tail_text l))%nat.
Proof. destruct l; cbn [tail_text String.length]; [reflexivity | lia]. Qed.

Lemma format_loop_empty (whole : string) (fuel : nat) (caps : Re.captures) :
  is_Some (star_loop whole format_group (format_end whole) fuel "" caps).
Proof.
  destruct fuel as [|fuel]; cbn [star_loop]; [eexists; reflexivity|].
  unfold format_group at 1. rewrite go_grp, go_cat.
  rewrite plus_cls_stops by exact I. eexists. reflexivity.
Qed.

(** What ends an entry of the format pattern: a comma before the next
    entry, or the end of the text. *)
Lemma format_separator {R : Type} (whole : string)
      (l : list (string * sizes_syntax)) (caps : Re.captures)
      (k : string -> Re.captures -> option R) :
  (forall c, is_Some (k (entries_text l) c)) ->
  is_Some (Re.go whole (Re.Grp 3 (Re.Alt (Re.Chr ",") Re.Eol))
                 (tail_text l) caps k).
Proof.
  intros Hk. rewrite go_grp. destruct l as [|e l].
  - cbn [tail_text]. rewrite go_alt_right by reflexivity.
    cbn [Re.go Re.at_end String.length]. apply Hk.
  - cbn [tail_text]. apply go_alt_left_some. rewrite go_chr. apply Hk.
Qed.

Lemma format_loop_entries (whole : string) (l : list (string * sizes_syntax)) :
  forall fuel caps,
    Forall valid_written l ->
    (String.length (entries_text l) <= fuel)%nat ->
    is_Some (star_loop whole format_group (format_end whole) fuel
                       (entries_text l) caps).
Proof.
  induction l as [|[key x] l IH]; intros fuel caps Hall Hfuel.
  - apply format_loop_empty.
  - inversion Hall as [|? ? [Hname [Hne Hpos]] Hall']; subst.
    cbn [fst snd] in *.
    destruct (valid_name_chars key Hname) as [Hk _].
    pose proof (sizes_then_length x (tail_text l)) as Hlen.
    pose proof (tail_text_length l) as Hlen'.
    rewrite entries_text_cons in *. cbn [fst snd] in *.
    rewrite length_append in Hfuel. cbn [String.length] in Hfuel.
    destruct fuel as [|fuel]; [lia|].
    apply star_loop_step_some.
    unfold format_group at 1. rewrite go_grp, go_cat.
    apply plus_cls_run_some; [apply Hname | exact Hk | reflexivity |].
    rewrite go_cat, go_chr, go_cat, go_grp.
    assert (Hnext : forall c,
      is_Some
        (if (String.length (entries_text l)
             <? String.length (key +:+ String "=" (sizes_then x (tail_text l))))%nat
         then star_loop whole format_group (format_end whole) fuel
                        (entries_text l) c
         else None)).
    { intros c.
      replace (_ <? _)%nat with true
        by (symmetry; apply Nat.ltb_lt; rewrite length_append;
            cbn [String.length]; lia).
      apply IH; [assumption | lia]. }
    destruct x as [vs | v]; cbn [sizes_then sizes_of] in *.
    + destruct (sizes_text_spec vs Hne Hpos) as (Hs1 & Hs2 & _).
      apply go_alt_left_some.
      rewrite go_cat, go_chr, go_cat.
      apply plus_cls_run_some; [exact Hs1 | exact Hs2 | reflexivity |].
      rewrite go_chr. apply format_separator. intros c. apply Hnext.
    + assert (Hv : (0 <= v)%Z) by (inversion Hpos; assumption).
      destruct (str_nonneg_digits v Hv) as (Hd1 & Hd2 & _).
      rewrite go_alt_right by (apply go_brace_at_digits; assumption).
      apply plus_cls_run_some;
        [exact Hd1 | exact Hd2 | apply tail_text_stops |].
      apply format_separator. intros c. apply Hnext.
Qed.

Lemma format_re_entries (l : list (string * sizes_syntax)) :
  Forall valid_written l ->
  is_Some (Re.re_match ParseArrayLengths.format_re (entries_text l)).
Proof.
  intros Hall. unfold Re.re_match, ParseArrayLengths.format_re.
  fold format_group. rewrite go_cat. cbn [Re.go]. rewrite Nat.eqb_refl.
  fold (format_end (entries_text l)).
  fold (star_loop (entries_text l) format_group (format_end (entries_text l))).
  apply format_loop_entries; auto.
Qed.

Lemma dict_set_fresh {V} (d : dict V) (k : string) (v : V) :
  ~ In k (dict_keys d) -> dict_set d k v = d ++ [(k, v)].
Proof.
  induction d as [|[k' v'] d IH]; intros Hk; simpl; [reflexivity|].
  destruct (String.eqb_spec k k') as [->|_].
  - exfalso. apply Hk. left. reflexivity.
  - rewrite IH; [reflexivity|]. intros H. apply Hk. right. exact H.
Qed.

(** The sizes of one written entry, as the comprehension reads them from
    the captured groups. *)
Lemma sizes_of_groups (x : sizes_syntax) (key : string) :
  sizes_of x <> [] -> Forall (fun v => 0 <= v)%Z (sizes_of x) ->
  let '(_, sizes_lst, single_size) := entry_groups (key, x) in
  traverse int_
    (parse_csv (if truthy sizes_lst then sizes_lst else single_size) ",")
  = Return (sizes_of x).
Proof.
  intros Hne Hpos. destruct x as [vs | v]; cbn [entry_groups snd fst sizes_of] in *.
  - destruct (sizes_text_spec vs Hne Hpos) as (Hs1 & _ & _).
    destruct (sizes_text vs) as [|c nums] eqn:Hst; [contradiction|].
    cbn [truthy string_truthy PyStr.truthy]. rewrite <- Hst.
    unfold sizes_text. rewrite parse_csv_join
      by (apply Forall_forall; intros y Hy;
          apply list_elem_of_In, in_map_iff in Hy as (n & <- & _); apply str_token).
    apply traverse_map. intros n _. unfold int_. rewrite int_str. reflexivity.
  - cbn [truthy string_truthy PyStr.truthy].
    change (PyInt.str v) with (PyStr.join "," (map PyInt.str [v])).
    rewrite parse_csv_join by (repeat constructor; apply str_token).
    apply traverse_map. intros n _. unfold int_. rewrite int_str. reflexivity.
Qed.

Lemma build_entries (l : list (string * sizes_syntax)) :
  forall acc,
    Forall valid_written l ->
    List.NoDup (dict_keys acc ++ map fst l) ->
    ParseArrayLengths.build (map entry_groups l) acc
    = Return (acc ++ meaning l).
Proof.
  induction l as [|[k x] l IH]; intros acc Hall Hnd.
  - simpl. rewrite app_nil_r. reflexivity.
  - inversion Hall as [|? ? [Hname [Hne Hpos]] Hall']; subst.
    cbn [fst snd] in *.
    destruct (valid_name_chars k Hname) as [_ Hsp].
    pose proof (sizes_of_groups x k Hne Hpos) as Hsizes.
    cbn [map meaning]. 
    destruct (entry_groups (k, x)) as [[name sizes_lst] single_size] eqn:Hg.
    assert (Hn : name = k) by (destruct x; inversion Hg; reflexivity).
    subst name. cbn [ParseArrayLengths.build].
    rewrite strip_no_space by exact Hsp.
    rewrite Hsizes. cbn [bind]. unfold ensure_non_empty.
    destruct (sizes_of x) as [|v vs] eqn:Hx; [contradiction|].
    cbn [truthy list_truthy negb bind].
    assert (Hk : ~ In k (dict_keys acc)).
    { simpl in Hnd. apply NoDup_remove_2 in Hnd. intros H.
      apply Hnd, in_or_app. left. exact H. }
    rewrite dict_set_fresh by exact Hk.
    rewrite IH; [|assumption|].
    + unfold meaning. simpl map. cbn [fst snd]. rewrite Hx, <- app_assoc.
      reflexivity.
    + unfold dict_keys in *. rewrite map_app. simpl. rewrite <- app_assoc.
      exact Hnd.
Qed.

Lemma entry_text_no_space (kx : string * sizes_syntax) :
  valid_written kx ->
  chars_all (fun c => negb (PyStr.is_space c)) (entry_text kx) = true.
Proof.
  destruct kx as [k x]. intros [Hname [Hne Hpos]]. unfold entry_text.
  cbn [fst snd] in *.
  destruct (valid_name_chars k Hname) as [_ Hk].
  apply no_space_chars_all in Hk.
  rewrite chars_all_append, Hk. cbn [andb chars_all].
  change (negb (PyStr.is_space "=")) with true. cbn [andb].
  destruct x as [vs | v]; cbn [sizes_then sizes_of] in *.
  - destruct (sizes_text_spec vs Hne Hpos) as (_ & _ & Hs).
    cbn [chars_all]. rewrite chars_all_append, Hs. reflexivity.
  - rewrite chars_all_append. cbn [chars_all]. rewrite andb_true_r.
    apply no_space_chars_all, str_no_space.
Qed.

(** White space is dropped before anything is read. *)
Lemma join_split_ws (s : string) :
  PyStr.join "" (PyStr.split_ws s) = without_space s.
Proof.
  induction s as [|x s IH]; [reflexivity|].
  rewrite split_ws_cons. cbn [without_space].
  destruct (PyStr.is_space x); [exact IH|].
  destruct s as [|c' s'] eqn:Es; [reflexivity|].
  destruct (PyStr.is_space c') eqn:Hc'.
  - rewrite <- IH.
    destruct (PyStr.split_ws (String c' s')) as [|w ws]; reflexivity.
  - rewrite <- IH.
    destruct (PyStr.split_ws (String c' s')) as [|w ws]; [reflexivity|].
    destruct ws; reflexivity.
Qed.

Lemma without_space_id (s : string) : no_space s -> without_space s = s.
Proof.
  unfold no_space. induction s as [|c s IH]; [reflexivity|].
  simpl. intros H. apply andb_true_iff in H as [Hc Hs].
  apply negb_true_iff in Hc. rewrite Hc, (IH Hs). reflexivity.
Qed.

Lemma entries_text_no_space (l : list (string * sizes_syntax)) :
  Forall valid_written l -> no_space (entries_text l).
Proof.
  intros Hall. apply no_space_chars_all, chars_all_join; [reflexivity|].
  apply Forall_forall. intros y Hy.
  apply list_elem_of_In, in_map_iff in Hy as (kv & <- & Hkv).
  apply entry_text_no_space. rewrite Forall_forall in Hall.
  apply Hall, list_elem_of_In, Hkv.
Qed.

Lemma entries_text_nonempty (l : list (string * sizes_syntax)) :
  Forall valid_written l -> l <> [] -> entries_text l <> "".
Proof.
  intros Hall Hne. destruct l as [|e l]; [contradiction|].
  rewrite entries_text_cons. inversion Hall as [|? ? [[Hk _] _] _]; subst.
  cbn [fst] in Hk. destruct (fst e); [contradiction | discriminate].
Qed.

(** Every text of the syntax, [name=sizes] entries separated by commas
    with the sizes a list in braces or one bare integer, and white space
    anywhere, is read as the dictionary it writes. *)
Lemma ParseArrayLengths_reads_entries (values : string)
      (l : list (string * sizes_syntax)) :
  without_space values = entries_text l ->
  Forall valid_written l -> List.NoDup (map fst l) ->
  ParseArrayLengths.parse (Some values) = Return (meaning l).
Proof.
  intros Htext Hall Hnd. unfold ParseArrayLengths.parse.
  destruct (truthy values) eqn:Htruthy; cbn [negb].
  - rewrite join_split_ws, Htext.
    destruct (format_re_entries l Hall) as [caps ->].
    rewrite findall3_entries by assumption.
    apply (build_entries l []); assumption.
  - destruct values; [|discriminate]. cbn [without_space] in Htext.
    destruct l as [|e l]; [reflexivity|].
    exfalso. apply (entries_text_nonempty (e :: l) Hall); [discriminate|].
    symmetry. exact Htext.
Qed.

(** [parse(unparse(d)) == d] for a dictionary the codec can produce. *)
Lemma ParseArrayLengths_roundtrip (d : dict (list Z)) :
  Forall valid_entry d -> List.NoDup (dict_keys d) ->
  ParseArrayLengths.parse (Some (ParseArrayLengths.unparse d)) = Return d.
Proof.
  intros Hall Hnd. rewrite unparse_entries.
  pose proof (valid_written_braced d Hall) as Hw.
  rewrite (ParseArrayLengths_reads_entries _ (braced d)).
  - rewrite meaning_braced. reflexivity.
  - apply without_space_id, entries_text_no_space, Hw.
  - exact Hw.
  - unfold braced. rewrite map_map. exact Hnd.
Qed.

(** ** What a match of the engine stands for *)

Section EngineSound.
Import Re.
Context {R : Type}.
Variable whole : string.



End EngineSound.


(** ** Braces in a text of the format *)















(** Without the format check the well-formed entries of a malformed text
    would be returned. *)
Example ParseArrayLengths_no_partial_result :
  ParseArrayLengths.build
    (Re.findall3 ParseArrayLengths.entry_re "a=1,b={2") []
  = Return [("a", [1%Z])]
  /\ ParseArrayLengths.parse (Some "a=1,b={2")
     = Raise (ValueError "invalid array lengths format: a=1,b={2").
Proof. split; vm_compute; reflexivity. Qed.

(** ** The timeout codec *)

Lemma number_digit_string (ds : list Z) :
  Forall (fun d => 0 <= d < 10)%Z ds ->
  forall (rest : string) (acc : Z) (len : nat),
    stops ParseTime.is_digit rest ->
    ParseTime.number (digit_string ds +:+ rest) acc len
    = (digits_value 10 ds acc, (len + length ds)%nat, rest).
Proof.
  intros Hall. induction Hall as [|d ds Hd Hall IH]; intros rest acc len Hstop.
  - unfold digit_string. simpl. rewrite append_empty_l, Nat.add_0_r.
    destruct rest as [|c rest]; [reflexivity|]. simpl in *. rewrite Hstop.
    reflexivity.
  - unfold digit_string. simpl map. simpl string_of_list_ascii.
    rewrite append_cons. cbn [ParseTime.number].
    destruct (digit_char_value d) as (_ & _ & Hdig); [lia|].
    destruct Hdig as [Hdig Hcode]; [lia|]. rewrite Hdig, Hcode.
    fold (digit_string ds). rewrite IH by assumption.
    unfold digits_value. simpl. repeat f_equal; lia.
Qed.

Lemma float_to_int_whole (value : Q) (n : Z) :
  (value == inject_Z n)%Q -> float_to_int value = n.
Proof.
  unfold Qeq, float_to_int. simpl. intros H. rewrite Z.mul_1_r in H.
  rewrite H. apply Z.quot_mul. discriminate.
Qed.

Lemma parse_time_whole (n : Z) (u : string) (factor : Q) :
  (0 <= n)%Z -> u <> "" -> stops ParseTime.is_digit u ->
  (match u with String "." _ => False | _ => True end) ->
  ParseTime.unit_seconds u = Some factor ->
  ParseTime.parse_time (PyInt.str n +:+ u) "ms" = Return (inject_Z n * factor)%Q.
Proof.
  intros Hn Hu Hstop Hdot Hunit. unfold ParseTime.parse_time.
  destruct (str_spec n) as (ds & Hne & Hall & Hval & Hs).
  destruct (Z.ltb_spec n 0) as [|_]; [lia|]. rewrite append_empty_l in Hs.
  rewrite Hs, number_digit_string by assumption.
  rewrite Hval, Z.abs_eq by lia.
  destruct ds as [|d ds]; [contradiction|]. cbn [length Nat.add].
  destruct u as [|c u]; [contradiction|].
  assert (Hc : c <> "."%char) by (intros ->; contradiction).
  assert (Hrest : (let '(value, rest) :=
                     match String c u with
                     | String "." frac =>
                         let '(f, m, rest') := ParseTime.number frac 0 0 in
                         ((inject_Z n + (f # Pos.of_nat (10 ^ m)))%Q, rest')
                     | _ => (inject_Z n, String c u)
                     end in
                   let u0 := if truthy rest then rest else "ms" in
                   match ParseTime.unit_seconds u0 with
                   | Some factor => Return (value * factor)%Q
                   | None => Raise (ValueError ("invalid time: " +:+
                                                digit_string (d :: ds) +:+ String c u))
                   end) = Return (inject_Z n * factor)%Q).
  { destruct c as [[] [] [] [] [] [] [] []]; try (exfalso; apply Hc; reflexivity);
      cbn [truthy string_truthy PyStr.truthy]; rewrite Hunit; reflexivity. }
  exact Hrest.
Qed.

(** [parse(unparse(v)) == v] for a duration that is a whole number of
    seconds, or below one second a whole number of milliseconds. *)
Lemma ParseTimeout_roundtrip (value : Q) :
  whole_timeout value ->
  exists v, ParseTimeout.parse (ParseTimeout.unparse value) = Return v
            /\ (v == value)%Q.
Proof.
  intros [Hpos [(n & Hn & Heq) | (m & Hm & Heq)]];
    unfold ParseTimeout.parse, ParseTimeout.unparse.
  - assert (Hle : Qle_bool 1 value = true).
    { apply Qle_bool_iff. rewrite Heq. unfold Qle. simpl. lia. }
    rewrite Hle, (float_to_int_whole value n Heq).
    rewrite (parse_time_whole n "s" 1%Q ltac:(lia) ltac:(discriminate)
               ltac:(reflexivity) I eq_refl).
    eexists. split; [reflexivity|]. rewrite Heq. ring.
  - assert (Hle : Qle_bool 1 value = false).
    { apply not_true_is_false. intros H. apply Qle_bool_iff in H.
      rewrite Heq in H. unfold Qle in H. simpl in H. lia. }
    rewrite Hle.
    assert (Hm' : (value * 1000 == inject_Z m)%Q).
    { rewrite Heq. unfold Qeq. simpl. lia. }
    rewrite (float_to_int_whole _ m Hm').
    rewrite (parse_time_whole m "ms" (1 # 1000)%Q ltac:(lia) ltac:(discriminate)
               ltac:(reflexivity) I eq_refl).
    eexists. split; [reflexivity|]. rewrite Heq. unfold Qeq. simpl. lia.
Qed.

(** C3: [parse(unparse(v)) == v] fails for two codecs, on values that
    [parse] itself returns. A timeout of one and a half seconds, which is
    what ["1500ms"] parses to, is written as ["1s"], the same text as for
    one second, so no parser can give both back, and the parser gives one
    second: [unparse] keeps the milliseconds below one second and drops
    them from one second on. A set with a negative member, which is what
    ["-1"] parses to, is written with the sign after the [0x] prefix, and
    [int(x, 0)] refuses that text. *)
Theorem codec_round_trip_fails :
  (exists v, ParseTimeout.parse "1500ms" = Return v /\ (v == 3 # 2)%Q)
  /\ ParseTimeout.unparse (3 # 2) = "1s"
  /\ ParseTimeout.unparse 1 = "1s"
  /\ (exists v, ParseTimeout.parse (ParseTimeout.unparse (3 # 2)) = Return v
                /\ (v == 1)%Q /\ ~ (v == 3 # 2)%Q)
  /\ ParseErrorCodes.parse "-1" = Return {[(-1)%Z]}
  /\ ParseErrorCodes.unparse {[(-1)%Z]} = "0x-1"
  /\ ParseErrorCodes.parse (ParseErrorCodes.unparse {[(-1)%Z]})
     = Raise (ValueError "invalid literal for int() with base 0: '0x-1'").
Proof.
  split; [eexists; split; [vm_compute; reflexivity | reflexivity]|].
  split; [vm_compute; reflexivity|]. split; [vm_compute; reflexivity|].
  split.
  { eexists. split; [vm_compute; reflexivity|]. split; [reflexivity|].
    unfold Qeq. simpl. lia. }
  split; [vm_compute; reflexivity|]. split; vm_compute; reflexivity.
Qed.

Example timeout_below_a_millisecond :
  ParseTimeout.unparse (1 # 2000) = "0ms"
  /\ ParseTimeout.parse "1.5s" = Return ((1 + (5 # 10)) * 1)%Q.
Proof. split; vm_compute; reflexivity. Qed.

(** * Further properties of the code *)

(** ** One more layer *)

Lemma fold_better_grows (es : list (Value * ConfigSource)) :
  forall b, (source_value (snd b) <= source_value (snd (fold_left better es b)))%Z.
Proof.
  induction es as [|a es IH]; intros b; simpl; [lia|].
  etransitivity; [|apply IH]. unfold better, source_gt.
  destruct (Z.ltb_spec (source_value (snd b)) (source_value (snd a)));
    simpl; lia.
Qed.

(** Starting the loop from a better candidate: the candidate stays unless
    the loop alone finds a strictly higher source. *)
Lemma fold_better_from (es : list (Value * ConfigSource)) :
  forall b1 b2,
    (source_value (snd b1) <= source_value (snd b2))%Z ->
    fold_left better es b2 =
    if source_gt (snd (fold_left better es b1)) (snd b2)
    then fold_left better es b1 else b2.
Proof.
  induction es as [|a es IH]; intros b1 b2 Hle; simpl.
  - unfold source_gt. destruct (Z.ltb_spec (source_value b2.2) (source_value b1.2));
      [lia | reflexivity].
  - destruct (Z.ltb_spec (source_value b2.2) (source_value a.2)) as [H2|H2].
    + assert (E2 : better b2 a = (Some a.1, a.2))
        by (unfold better, source_gt; rewrite (proj2 (Z.ltb_lt _ _) H2);
            reflexivity).
      assert (E1 : better b1 a = (Some a.1, a.2))
        by (unfold better, source_gt;
            rewrite (proj2 (Z.ltb_lt _ _)) by lia; reflexivity).
      rewrite E1, E2.
      pose proof (fold_better_grows es (Some a.1, a.2)) as Hg. simpl in Hg.
      unfold source_gt.
      rewrite (proj2 (Z.ltb_lt _ _)) by lia. reflexivity.
    + assert (E2 : better b2 a = b2)
        by (unfold better, source_gt; rewrite (proj2 (Z.ltb_ge _ _) H2);
            reflexivity).
      rewrite E2. apply IH. unfold better, source_gt.
      destruct (Z.ltb_spec (source_value b1.2) (source_value a.2)); simpl; lia.
Qed.

Lemma entries_child (self : Config) (s : ConfigSource)
      (m : gmap string Value) (name : string) :
  entries (mkConfig (Some self) s m) name =
  match m !! name with
  | Some v => (v, s) :: entries self name
  | None => entries self name
  end.
Proof.
  unfold entries. simpl. unfold opinion, getattr. simpl.
  destruct (m !! name); reflexivity.
Qed.

(** How one more layer changes the resolution of a field. *)
Lemma value_with_source_child (self : Config) (s : ConfigSource)
      (m : gmap string Value) (name : string) :
  value_with_source (mkConfig (Some self) s m) name =
  match m !! name with
  | Some v =>
      if truthy s && source_ge s (snd (value_with_source self name))
      then (Some v, s) else value_with_source self name
  | None => value_with_source self name
  end.
Proof.
  rewrite !value_with_source_fold, entries_child.
  destruct (m !! name) as [v|]; [|reflexivity].
  cbn [fold_left]. unfold better at 2. cbn [fst snd].
  set (found := fold_left better (entries self name) (None, void)).
  destruct (source_value_void s) as [Hs0 Hsv].
  unfold source_gt at 1. cbn [source_value].
  destruct (Z.ltb_spec 0 (source_value s)) as [Hpos|Hzero].
  - rewrite (fold_better_from (entries self name) (None, void) (Some v, s))
      by (simpl; lia).
    fold found. cbn [snd].
    assert (Ht : truthy s = true) by (destruct s; (reflexivity || (simpl in Hpos; lia))).
    rewrite Ht. cbn [andb]. unfold source_gt, source_ge.
    destruct (Z.ltb_spec (source_value s) (source_value found.2));
      destruct (Z.leb_spec (source_value found.2) (source_value s));
      (reflexivity || lia).
  - rewrite (Hsv ltac:(lia)). reflexivity.
Qed.

Lemma dict_get_absent {V} (d : dict V) (k : string) :
  ~ In k (dict_keys d) -> dict_get d k = None.
Proof.
  induction d as [|[k' v] d IH]; intros H; simpl; [reflexivity|].
  destruct (String.eqb_spec k k') as [->|_].
  - exfalso. apply H. left. reflexivity.
  - apply IH. intros Hin. apply H. right. exact Hin.
Qed.

(** The fields of a new layer, read from the keyword arguments. *)
Lemma init_values_lookup (kwargs : dict (option Value)) (name : string) :
  forall acc : gmap string Value,
    List.NoDup (dict_keys kwargs) ->
    fold_left (fun m '(k, v) =>
                 match v with
                 | Some v => <[k := v]> m
                 | None => delete k m
                 end) kwargs acc !! name
    = match dict_get kwargs name with
      | Some o => o
      | None => acc !! name
      end.
Proof.
  induction kwargs as [|[k v] kwargs IH]; intros acc Hnd; [reflexivity|].
  inversion Hnd as [|? ? Hk Hnd']; subst. cbn [fold_left dict_get].
  rewrite IH by assumption.
  destruct (String.eqb_spec name k) as [->|Hne].
  - rewrite dict_get_absent by exact Hk.
    destruct v as [v|]; [apply lookup_insert_eq | apply lookup_delete_eq].
  - destruct (dict_get kwargs name); [reflexivity|].
    destruct v as [v|];
      [apply lookup_insert_ne | apply lookup_delete_ne]; congruence.
Qed.

(** X1: a layer made by [with_overrides] answers for a field it was given a
    value for, provided its source is not [void] and is at least the source
    that answered before; every other field, also one given as [None], is
    answered as before. Nothing is logged. *)
Theorem with_overrides_resolution
        (self : Config) (source : ConfigSource)
        (overrides : dict (option Value)) (lg lg' : Logs) (child : Config) :
  List.NoDup (dict_keys overrides) ->
  with_overrides self source overrides lg = (Return child, lg') ->
  lg' = lg
  /\ _parent child = Some self
  /\ forall name,
      value_with_source child name =
      match dict_get overrides name with
      | Some (Some v) =>
          if truthy source
             && source_ge source (snd (value_with_source self name))
          then (Some v, source) else value_with_source self name
      | _ => value_with_source self name
      end.
Proof.
  intros Hnd H. unfold with_overrides in H.
  destruct (is_in "source" (dict_keys overrides)); [discriminate|].
  destruct (is_in "self" (dict_keys overrides)); [discriminate|].
  unfold Config_init in H.
  destruct (find (fun k => is_in k internal_fields) (dict_keys overrides));
    [discriminate|].
  destruct (find (fun k => negb (is_in k Config_fields)) (dict_keys overrides));
    [discriminate|].
  injection H as <- <-. split; [reflexivity|]. split; [reflexivity|].
  intros name. rewrite value_with_source_child.
  rewrite init_values_lookup by assumption. rewrite lookup_empty.
  destruct (dict_get overrides name) as [[v|]|]; reflexivity.
Qed.

Lemma with_overrides_resolution_witness :
  let root := mkConfig None default {["loop" := VInt 2]} in
  let child := mkConfig (Some root) command_line {["loop" := VInt 4]} in
  with_overrides root command_line
    [("loop", Some (VInt 4)); ("solver", None)] no_logs = (Return child, no_logs)
  /\ value_with_source child "loop" = (Some (VInt 4), command_line)
  /\ value_with_source child "solver" = (None, void).
Proof.
  cbv zeta. split; [reflexivity|].
  destruct (with_overrides_resolution
              (mkConfig None default {["loop" := VInt 2]}) command_line
              [("loop", Some (VInt 4)); ("solver", None)] no_logs no_logs
              (mkConfig (Some (mkConfig None default {["loop" := VInt 2]}))
                        command_line {["loop" := VInt 4]})) as (_ & _ & H).
  - repeat constructor; simpl; intuition discriminate.
  - reflexivity.
  - split; [rewrite (H "loop") | rewrite (H "solver")]; vm_compute; reflexivity.
Defined.

(** A value found by an ancestor is not lost on the way to the leaf. *)
Lemma resolved_in_chain (self ancestor : Config) (name : string) :
  ancestor ∈ chain self ->
  is_Some (fst (value_with_source ancestor name)) ->
  is_Some (fst (value_with_source self name)).
Proof.
  induction self as [s m | p s m IH] using Config_chain_ind; intros Hin Hsome.
  - cbn [chain] in Hin. apply list_elem_of_singleton in Hin as ->. exact Hsome.
  - cbn [chain] in Hin. apply elem_of_cons in Hin as [-> | Hin]; [exact Hsome|].
    rewrite value_with_source_child.
    destruct (m !! name) as [v|]; [|auto].
    destruct (truthy s && source_ge s (value_with_source p name).2);
      [eauto | auto].
Qed.

(** X2: adding layers never takes a value away and never lowers the source
    that answers: whatever an ancestor resolves a field to, the leaf
    resolves it at a source at least as high, and to a value if the ancestor
    had one. *)
Theorem layering_never_lowers (self ancestor : Config) (name : string) :
  ancestor ∈ chain self ->
  source_ge (snd (value_with_source self name))
            (snd (value_with_source ancestor name)) = true
  /\ (is_Some (fst (value_with_source ancestor name)) ->
      is_Some (fst (value_with_source self name))).
Proof.
  intros Hin. split; [|apply resolved_in_chain, Hin].
  induction self as [s m | p s m IH] using Config_chain_ind.
  - cbn [chain] in Hin. apply list_elem_of_singleton in Hin as ->.
    unfold source_ge. apply Z.leb_refl.
  - cbn [chain] in Hin. apply elem_of_cons in Hin as [-> | Hin].
    { unfold source_ge. apply Z.leb_refl. }
    specialize (IH Hin). rewrite value_with_source_child.
    destruct (m !! name) as [v|]; [|exact IH].
    destruct (truthy s && source_ge s (value_with_source p name).2) eqn:Hwin;
      [|exact IH].
    apply andb_true_iff in Hwin as [_ Hwin]. cbn [snd].
    unfold source_ge in *. apply Z.leb_le in IH, Hwin. apply Z.leb_le. lia.
Qed.

Lemma layering_never_lowers_witness :
  source_ge (snd (value_with_source layered_config "loop")) default = true
  /\ is_Some (fst (value_with_source layered_config "loop")).
Proof.
  destruct (layering_never_lowers layered_config
              (mkConfig None default {["loop" := VInt 2]}) "loop") as [H1 H2].
  - cbn [layered_config chain]. apply elem_of_cons. right.
    apply elem_of_cons. right. apply elem_of_cons. left. reflexivity.
  - split; [exact H1 | apply H2; vm_compute; eauto].
Defined.

(** ** The default configuration *)

Lemma default_values_app (e : Env) (fs gs : list FieldInfo) :
  forall values,
    default_values e (fs ++ gs) values
    = let* v := default_values e fs values in default_values e gs v.
Proof.
  induction fs as [|f fs IH]; intros values; [reflexivity|].
  cbn [app default_values].
  destruct (match action f with
            | Some a => outcome_map Some (Action_parse a _)
            | None => Return _
            end) as [v| |]; cbn [bind]; [apply IH | reflexivity | reflexivity].
Qed.

Lemma default_config_fields (e : Env) :
  exists cfg,
    _create_default_config e = Return cfg
    /\ _parent cfg = None /\ _source cfg = default
    /\ forallb (default_field_ok cfg) Config_fields = true.
Proof.
  assert (Ha : match _create_default_config e with
               | Return c =>
                   _parent c = None /\ _source c = default
                   /\ forallb (default_field_ok c) Config_fields = true
               | _ => False
               end) by (vm_compute; auto).
  destruct (_create_default_config e) as [cfg | x | code];
    [| contradiction ..].
  exists cfg. split; [reflexivity | exact Ha].
Qed.

Lemma default_field_ok_spec (cfg : Config) (name : string) :
  default_field_ok cfg name = true ->
  if is_in name without_default
  then value_with_source cfg name = (None, void)
  else exists v, value_with_source cfg name = (Some v, default).
Proof.
  unfold default_field_ok.
  destruct (value_with_source cfg name) as [[v|] []];
    destruct (is_in name without_default); try discriminate; eauto.
Qed.

(** X3: in every environment [_create_default_config] returns a layer: all
    the default texts of the schema are accepted by their codecs. The layer
    is a root tagged [default]; it sets every option except
    [coverage_output], [json_output] and [log]. The default of
    [array_lengths], [None], goes through its codec and becomes the empty
    dictionary; the texts ["0x01"], ["0,1,2"], ["0,65,1024"] and
    ["LOG,SSTORE,SLOAD"] become a set, two lists and the three events; the
    defaults that are computed come from the environment. *)
Theorem default_config_contents (e : Env) :
  exists cfg,
    _create_default_config e = Return cfg
    /\ _parent cfg = None /\ _source cfg = default
    /\ Forall (fun name =>
                 if is_in name without_default
                 then value_with_source cfg name = (None, void)
                 else exists v, value_with_source cfg name = (Some v, default))
              Config_fields
    /\ getattr cfg "array_lengths" = Some (VDict [])
    /\ getattr cfg "panic_error_codes" = Some (VIntSet {[1%Z]})
    /\ getattr cfg "default_array_lengths"
       = Some (VList [VInt 0; VInt 1; VInt 2])
    /\ getattr cfg "default_bytes_lengths"
       = Some (VList [VInt 0; VInt 65; VInt 1024])
    /\ getattr cfg "trace_events"
       = Some (VList [VEvent LOG; VEvent SSTORE; VEvent SLOAD])
    /\ getattr cfg "root" = Some (VStr (getcwd e))
    /\ getattr cfg "config" = Some (VStr (path_join (getcwd e) "halmos.toml"))
    /\ getattr cfg "solver_threads"
       = Some (VInt (match cpu_count e with
                     | Some n => if (n =? 0)%Z then 1%Z else n
                     | None => 1%Z
                     end)).
Proof.
  destruct (default_config_fields e) as (cfg & H & Hp & Hs & Hall).
  exists cfg. split; [exact H|]. split; [exact Hp|]. split; [exact Hs|].
  split.
  { apply Forall_forall. intros name Hin. apply default_field_ok_spec.
    rewrite forallb_forall in Hall. apply Hall, list_elem_of_In, Hin. }
  assert (Ha : match _create_default_config e with
               | Return c =>
                   getattr c "array_lengths" = Some (VDict [])
                   /\ getattr c "panic_error_codes" = Some (VIntSet {[1%Z]})
                   /\ getattr c "default_array_lengths"
                      = Some (VList [VInt 0; VInt 1; VInt 2])
                   /\ getattr c "default_bytes_lengths"
                      = Some (VList [VInt 0; VInt 65; VInt 1024])
                   /\ getattr c "trace_events"
                      = Some (VList [VEvent LOG; VEvent SSTORE; VEvent SLOAD])
                   /\ getattr c "root" = Some (VStr (getcwd e))
                   /\ getattr c "config"
                      = Some (VStr (path_join (getcwd e) "halmos.toml"))
                   /\ getattr c "solver_threads"
                      = Some (VInt (match cpu_count e with
                                    | Some n => if (n =? 0)%Z then 1%Z else n
                                    | None => 1%Z
                                    end))
               | _ => False
               end) by (vm_compute; repeat split).
  rewrite H in Ha. exact Ha.
Qed.

(** X4: an option that has a default is never without a value: in every
    configuration whose chain contains the default layer, each option
    other than [coverage_output], [json_output] and [log] resolves to a
    value, at a source that is not [void]. *)
Theorem defaults_are_never_lost
        (e : Env) (cfg self : Config) (name : string) :
  is_default_config e cfg ->
  cfg ∈ chain self ->
  is_in name Config_fields = true ->
  is_in name without_default = false ->
  exists v s, value_with_source self name = (Some v, s) /\ s <> void.
Proof.
  intros Hcfg Hin Hfield Hdef.
  destruct (default_config_fields e) as (cfg' & H & _ & _ & Hall).
  unfold is_default_config in Hcfg. rewrite Hcfg in H. injection H as <-.
  rewrite forallb_forall in Hall.
  assert (Hname : In name Config_fields).
  { unfold is_in in Hfield. apply existsb_exists in Hfield as (x & Hx & Heq).
    apply String.eqb_eq in Heq. subst. exact Hx. }
  pose proof (default_field_ok_spec cfg name (Hall name Hname)) as Hd.
  rewrite Hdef in Hd. destruct Hd as [v0 Hv0].
  pose proof (resolved_in_chain self cfg name Hin) as Hsome.
  rewrite Hv0 in Hsome. cbn [fst] in Hsome.
  destruct (Hsome ltac:(eauto)) as [v Hv].
  destruct (value_with_source_shape self name) as [Hnone | (v' & s & Hvs & Hs)].
  - rewrite Hnone in Hv. discriminate.
  - exists v', s. auto.
Qed.

Lemma defaults_are_never_lost_witness :
  exists cfg v s,
    _create_default_config sample_env = Return cfg
    /\ value_with_source
         (mkConfig (Some cfg) command_line {["loop" := VInt 4]}) "solver"
       = (Some v, s) /\ s <> void.
Proof.
  destruct (default_config_fields sample_env) as (cfg & H & _).
  destruct (defaults_are_never_lost sample_env cfg
              (mkConfig (Some cfg) command_line {["loop" := VInt 4]}) "solver")
    as (v & s & Hv & Hs).
  - exact H.
  - cbn [chain]. apply elem_of_cons. right.
    destruct cfg as [[p|] s m]; apply elem_of_cons; left; reflexivity.
  - reflexivity.
  - reflexivity.
  - exists cfg, v, s. auto.
Defined.

(** ** Items between commas *)

Lemma rstrip_idempotent (s : string) :
  PyStr.rstrip (PyStr.rstrip s) = PyStr.rstrip s.
Proof.
  induction s as [|c s IH]; [reflexivity|]. cbn [PyStr.rstrip].
  destruct (PyStr.rstrip s) as [|d r] eqn:Hr.
  - destruct (PyStr.is_space c) eqn:Hc; [reflexivity|].
    cbn [PyStr.rstrip]. rewrite Hc. reflexivity.
  - cbn [PyStr.rstrip]. cbn [PyStr.rstrip] in IH. rewrite IH. reflexivity.
Qed.

Lemma lstrip_head (s : string) :
  match PyStr.lstrip s with
  | EmptyString => True
  | String c _ => PyStr.is_space c = false
  end.
Proof.
  induction s as [|c s IH]; [exact I|]. cbn [PyStr.lstrip].
  destruct (PyStr.is_space c) eqn:Hc; [exact IH | exact Hc].
Qed.

Lemma rstrip_keeps_head (c : ascii) (s : string) :
  PyStr.is_space c = false ->
  exists r, PyStr.rstrip (String c s) = String c r.
Proof.
  intros Hc. cbn [PyStr.rstrip]. destruct (PyStr.rstrip s) as [|d r].
  - rewrite Hc. eexists. reflexivity.
  - eexists. reflexivity.
Qed.

Lemma strip_idempotent (s : string) :
  PyStr.strip (PyStr.strip s) = PyStr.strip s.
Proof.
  unfold PyStr.strip. pose proof (lstrip_head s) as Hh.
  destruct (PyStr.lstrip s) as [|c t]; [reflexivity|].
  destruct (rstrip_keeps_head c t Hh) as [r Hr]. rewrite Hr.
  cbn [PyStr.lstrip]. rewrite Hh, <- Hr. apply rstrip_idempotent.
Qed.

Lemma chars_all_lstrip (p : ascii -> bool) (s : string) :
  chars_all p s = true -> chars_all p (PyStr.lstrip s) = true.
Proof.
  induction s as [|c s IH]; [auto|]. intros H. cbn [PyStr.lstrip].
  destruct (PyStr.is_space c); [|exact H].
  simpl in H. apply andb_true_iff in H as [_ H]. apply IH, H.
Qed.

Lemma chars_all_rstrip (p : ascii -> bool) (s : string) :
  chars_all p s = true -> chars_all p (PyStr.rstrip s) = true.
Proof.
  induction s as [|c s IH]; [auto|]. intros H. simpl in H.
  apply andb_true_iff in H as [Hc Hs]. cbn [PyStr.rstrip].
  specialize (IH Hs). destruct (PyStr.rstrip s) as [|d r].
  - destruct (PyStr.is_space c); [reflexivity|]. simpl. rewrite Hc. reflexivity.
  - cbn [chars_all]. rewrite Hc. exact IH.
Qed.

Lemma chars_all_strip (p : ascii -> bool) (s : string) :
  chars_all p s = true -> chars_all p (PyStr.strip s) = true.
Proof. intros H. apply chars_all_rstrip, chars_all_lstrip, H. Qed.

Lemma split_pieces (sep : ascii) (s : string) :
  Forall (fun x => free_of sep x = true) (PyStr.split sep s).
Proof.
  induction s as [|c s IH]; [repeat constructor|]. cbn [PyStr.split].
  destruct (Ascii.eqb c sep) eqn:Hc; [constructor; [reflexivity | exact IH]|].
  destruct (PyStr.split sep s) as [|h t];
    [constructor; [unfold free_of; simpl; rewrite Hc; reflexivity | constructor]|].
  inversion IH as [|? ? Hh Ht]; subst. constructor; [|exact Ht].
  unfold free_of in *. simpl. rewrite Hc, Hh. reflexivity.
Qed.

(** X5: every item that [parse_csv] yields is a piece of the text between
    two separators with the white space around it removed: it is not
    empty, it neither starts nor ends with white space, and it does not
    contain the separator. *)
Theorem parse_csv_items (values : string) (sep : ascii) :
  Forall (fun x => x <> "" /\ PyStr.strip x = x /\ free_of sep x = true)
         (parse_csv values sep).
Proof.
  unfold parse_csv. apply Forall_forall. intros x Hx.
  apply list_elem_of_In, filter_In in Hx as [Hx Ht].
  apply in_map_iff in Hx as (piece & <- & Hpiece).
  split; [|split].
  - intros Hempty. rewrite Hempty in Ht. discriminate.
  - apply strip_idempotent.
  - apply chars_all_strip.
    pose proof (split_pieces sep values) as Hall. rewrite Forall_forall in Hall.
    apply Hall, list_elem_of_In, Hpiece.
Qed.

Lemma strip_all_space (s : string) :
  chars_all PyStr.is_space s = true -> PyStr.strip s = "".
Proof.
  intros H. unfold PyStr.strip.
  assert (Hl : PyStr.lstrip s = "").
  { induction s as [|c s IH]; [reflexivity|]. simpl in H.
    apply andb_true_iff in H as [Hc Hs]. cbn [PyStr.lstrip]. rewrite Hc.
    apply IH, Hs. }
  rewrite Hl. reflexivity.
Qed.

Lemma split_blank (s : string) :
  chars_all blank_or_comma s = true ->
  Forall (fun x => chars_all PyStr.is_space x = true) (PyStr.split "," s).
Proof.
  induction s as [|c s IH]; [repeat constructor|]. intros H. simpl in H.
  apply andb_true_iff in H as [Hc Hs]. specialize (IH Hs). cbn [PyStr.split].
  destruct (Ascii.eqb c ",") eqn:Hcomma; [constructor; [reflexivity | exact IH]|].
  unfold blank_or_comma in Hc. rewrite Hcomma, orb_false_r in Hc.
  destruct (PyStr.split "," s) as [|h t];
    [constructor; [simpl; rewrite Hc; reflexivity | constructor]|].
  inversion IH as [|? ? Hh Ht]; subst. constructor; [|exact Ht].
  simpl. rewrite Hc, Hh. reflexivity.
Qed.

Lemma parse_csv_blank (s : string) :
  chars_all blank_or_comma s = true -> parse_csv s "," = [].
Proof.
  intros H. unfold parse_csv. pose proof (split_blank s H) as Hall.
  induction Hall as [|x l Hx Hall IH]; [reflexivity|].
  cbn [map List.filter]. rewrite (strip_all_space x Hx). exact IH.
Qed.

Lemma traverse_return {A B} (f : A -> Outcome B) (xs : list A) (ys : list B) :
  traverse f xs = Return ys -> Forall2 (fun x y => f x = Return y) xs ys.
Proof.
  revert ys. induction xs as [|x xs IH]; intros ys H; simpl in H.
  - injection H as <-. constructor.
  - destruct (f x) as [y| |] eqn:Hy; simpl in H; try discriminate.
    destruct (traverse f xs) as [ys'| |]; simpl in H; try discriminate.
    injection H as <-. constructor; [exact Hy | apply IH; reflexivity].
Qed.

Lemma traverse_first_failure {A B} (f : A -> Outcome B)
      (pre : list A) (x : A) (post : list A) (e : PyExc) :
  Forall (fun y => exists b, f y = Return b) pre -> f x = Raise e ->
  traverse f (pre ++ x :: post) = Raise e.
Proof.
  intros Hpre Hx. induction Hpre as [|y pre [b Hy] Hpre IH]; simpl.
  - rewrite Hx. reflexivity.
  - rewrite Hy, IH. reflexivity.
Qed.

(** X6: the integer-list codec never returns an empty list: a text with
    nothing between its commas is refused with ["required a non-empty
    list"]. A returned list has one integer for each item, in order; the
    first item that is not a decimal integer makes the whole text fail with
    a [ValueError]. *)
Theorem ParseCSVInt_parse_outcomes (values : string) :
  (forall xs,
      ParseCSVInt.parse values = Return xs ->
      xs <> []
      /\ Forall2 (fun x n => PyInt.int x = Some n) (parse_csv values ",") xs)
  /\ (chars_all blank_or_comma values = true ->
      ParseCSVInt.parse values = Raise (ValueError "required a non-empty list"))
  /\ (forall pre x post,
        parse_csv values "," = pre ++ x :: post ->
        Forall (fun y => is_Some (PyInt.int y)) pre ->
        PyInt.int x = None ->
        exists msg, ParseCSVInt.parse values = Raise (ValueError msg)).
Proof.
  unfold ParseCSVInt.parse. split; [|split].
  - intros xs H.
    destruct (traverse int_ (parse_csv values ",")) as [ys| |] eqn:Ht;
      simpl in H; try discriminate.
    unfold ensure_non_empty in H.
    destruct ys as [|y ys]; simpl in H; [discriminate|]. injection H as <-.
    split; [discriminate|].
    apply traverse_return in Ht. eapply Forall2_impl; [exact Ht|].
    intros x n Hx. unfold int_ in Hx.
    destruct (PyInt.int x); [injection Hx as ->; reflexivity | discriminate].
  - intros Hblank. rewrite parse_csv_blank by exact Hblank. reflexivity.
  - intros pre x post Hsplit Hpre Hx. rewrite Hsplit.
    eexists.
    rewrite (traverse_first_failure int_ pre x post
               (ValueError ("invalid literal for int() with base 10: "
                            +:+ py_repr x))).
    + reflexivity.
    + eapply Forall_impl; [exact Hpre|]. intros y [n Hn]. exists n.
      unfold int_. rewrite Hn. reflexivity.
    + unfold int_. rewrite Hx. reflexivity.
Qed.

Lemma ParseCSVInt_parse_outcomes_witness :
  ParseCSVInt.parse " , ," = Raise (ValueError "required a non-empty list")
  /\ Forall2 (fun x n => PyInt.int x = Some n)
             (parse_csv " 1, 2 ,,3" ",") [1; 2; 3]%Z
  /\ exists msg, ParseCSVInt.parse "1,x,2" = Raise (ValueError msg).
Proof.
  split; [|split].
  - apply (proj1 (proj2 (ParseCSVInt_parse_outcomes " , ,"))). reflexivity.
  - apply (proj1 (ParseCSVInt_parse_outcomes " 1, 2 ,,3")). reflexivity.
  - apply (proj2 (proj2 (ParseCSVInt_parse_outcomes "1,x,2")) ["1"] "x" ["2"]).
    + reflexivity.
    + repeat constructor. vm_compute. eauto.
    + reflexivity.
Defined.

Lemma TraceEvent_of_spec (x : string) :
  (exists e, TraceEvent_of x = Return e /\ TraceEvent_value e = x)
  \/ ((exists msg, TraceEvent_of x = Raise (ValueError msg))
      /\ ~ In x (map TraceEvent_value TraceEvent_members)).
Proof.
  unfold TraceEvent_of.
  destruct (find (fun e => String.eqb (TraceEvent_value e) x) TraceEvent_members)
    as [e|] eqn:Hfind.
  - left. exists e. split; [reflexivity|].
    apply find_some in Hfind as [_ Heq]. apply String.eqb_eq, Heq.
  - right. split; [eexists; reflexivity|]. intros Hin.
    apply in_map_iff in Hin as (e & He & Hin).
    pose proof (find_none _ _ Hfind e Hin) as Hne. cbv beta in Hne.
    rewrite He, String.eqb_refl in Hne. discriminate.
Qed.

Lemma traverse_TraceEvent_of (l : list string) :
  match traverse TraceEvent_of l with
  | Return es => map TraceEvent_value es = l
  | Raise e =>
      (exists msg, e = ValueError msg)
      /\ exists x, In x l /\ ~ In x (map TraceEvent_value TraceEvent_members)
  | SysExit _ => False
  end.
Proof.
  induction l as [|x l IH]; [reflexivity|]. cbn [traverse].
  destruct (TraceEvent_of_spec x) as [(e & -> & He) | ([msg ->] & Hx)];
    cbn [bind].
  - destruct (traverse TraceEvent_of l) as [es | e' | code]; cbn [bind].
    + cbn [map]. rewrite He, IH. reflexivity.
    + destruct IH as [Hmsg (y & Hy & Hbad)]. split; [exact Hmsg|].
      exists y. split; [right; exact Hy | exact Hbad].
    + exact IH.
  - split; [eauto|]. exists x. split; [left; reflexivity | exact Hx].
Qed.

(** X7: the trace-event codec has two outcomes. When every item is the
    name of an event the result lists those events, one for each item and
    in the same order (for a text without items, the empty list);
    otherwise some item is not the name of an event and the failure is a
    [ValueError] whose text is always the same list of valid names. *)
Theorem ParseCSVTraceEvent_parse_outcomes (values : string) :
  match ParseCSVTraceEvent.parse values with
  | Return es => map TraceEvent_value es = parse_csv values ","
  | Raise e =>
      e = ValueError "the list of valid trace events is: LOG, SSTORE, SLOAD"
      /\ exists x, In x (parse_csv values ",")
                   /\ ~ In x (map TraceEvent_value TraceEvent_members)
  | SysExit _ => False
  end.
Proof.
  unfold ParseCSVTraceEvent.parse.
  pose proof (traverse_TraceEvent_of (parse_csv values ",")) as H.
  destruct (traverse TraceEvent_of (parse_csv values ",")) as [es | e | code];
    [exact H | | exact H].
  destruct H as [[msg ->] Hx]. split; [reflexivity | exact Hx].
Qed.

Lemma ParseCSVTraceEvent_parse_outcomes_witness :
  map TraceEvent_value [LOG; SLOAD] = parse_csv " LOG, SLOAD," ","
  /\ exists x, In x (parse_csv "LOG,sload" ",")
               /\ ~ In x (map TraceEvent_value TraceEvent_members).
Proof.
  split.
  - pose proof (ParseCSVTraceEvent_parse_outcomes " LOG, SLOAD,") as H.
    vm_compute in H. vm_compute. exact H.
  - pose proof (ParseCSVTraceEvent_parse_outcomes "LOG,sload") as H.
    unfold ParseCSVTraceEvent.parse in H.
    assert (Ht : traverse TraceEvent_of (parse_csv "LOG,sload" ",")
                 = Raise (ValueError "'sload' is not a valid TraceEvent"))
      by (vm_compute; reflexivity).
    rewrite Ht in H. exact (proj2 H).
Defined.

(** ** Error codes as a set *)

Lemma join_tokens_no_space (lits : list string) :
  Forall token lits -> no_space (PyStr.join "," lits).
Proof.
  intros Htok. apply no_space_chars_all, chars_all_join; [reflexivity|].
  eapply Forall_impl; [exact Htok|]. intros x Hx.
  apply no_space_chars_all, token_no_space, Hx.
Qed.

Lemma traverse_Forall2 {A B} (f : A -> Outcome B) (xs : list A) (ys : list B) :
  Forall2 (fun x y => f x = Return y) xs ys -> traverse f xs = Return ys.
Proof.
  induction 1 as [|x y xs ys Hxy _ IH]; [reflexivity|].
  simpl. rewrite Hxy, IH. reflexivity.
Qed.

(** X8: the error-code codec reads any mix of literals that [int(x, 0)]
    accepts, and returns the set of their values: the order of the literals,
    their spelling and their repetition leave no trace. *)
Theorem ParseErrorCodes_parse_is_a_set (lits : list string) (codes : list Z) :
  lits <> [] -> Forall token lits ->
  Forall2 (fun x n => PyInt.int0 x = Some n) lits codes ->
  ParseErrorCodes.parse (PyStr.join "," lits) = Return (list_to_set codes).
Proof.
  intros Hne Htok Hint. unfold ParseErrorCodes.parse.
  rewrite strip_no_space by (apply join_tokens_no_space, Htok).
  assert (Hstar : String.eqb (PyStr.join "," lits) "*" = false).
  { destruct Hint as [|x n lits codes Hx Hint]; [contradiction|].
    destruct Hint as [|y k lits codes Hy Hint].
    - apply String.eqb_neq. intros Heq. cbn in Heq. subst x. discriminate.
    - rewrite join_cons. inversion Htok as [|? ? [Hx0 _] _]; subst.
      destruct x as [|c x]; [contradiction|].
      rewrite append_cons.
      destruct x as [|c' x]; rewrite ?append_empty_l, ?append_cons;
        cbn [String.eqb]; destruct (Ascii.eqb c "*"); reflexivity. }
  rewrite Hstar, parse_csv_join by exact Htok.
  rewrite (traverse_Forall2 int0_ lits codes).
  2:{ eapply Forall2_impl; [exact Hint|]. intros x n Hx. unfold int0_.
      rewrite Hx. reflexivity. }
  cbn [bind]. unfold ensure_non_empty.
  assert (Hset : truthy (list_to_set codes : gset Z) = true).
  { destruct Hint as [|x n lits codes _ _]; [contradiction|].
    unfold truthy, intset_truthy. rewrite bool_decide_eq_false_2; [reflexivity|].
    cbn [list_to_set]. set_solver. }
  rewrite Hset. reflexivity.
Qed.

Lemma ParseErrorCodes_parse_is_a_set_witness :
  ParseErrorCodes.parse "2,0x01,0b10,1" = Return {[1%Z; 2%Z]}.
Proof.
  refine (eq_trans
            (ParseErrorCodes_parse_is_a_set ["2"; "0x01"; "0b10"; "1"]
               [2; 1; 2; 1]%Z _ _ _) _).
  - discriminate.
  - repeat constructor; discriminate.
  - repeat constructor.
  - vm_compute. reflexivity.
Defined.

(** ** A name written twice *)

Lemma build_entries_fold (l : list (string * sizes_syntax)) :
  forall acc,
    Forall valid_written l ->
    ParseArrayLengths.build (map entry_groups l) acc
    = Return (fold_left (fun d kx => dict_set d (fst kx) (sizes_of (snd kx)))
                        l acc).
Proof.
  induction l as [|[k x] l IH]; intros acc Hall; [reflexivity|].
  inversion Hall as [|? ? [Hname [Hne Hpos]] Hall']; subst.
  cbn [fst snd] in *.
  destruct (valid_name_chars k Hname) as [_ Hsp].
  pose proof (sizes_of_groups x k Hne Hpos) as Hsizes.
  cbn [map fold_left fst snd].
  destruct (entry_groups (k, x)) as [[name sizes_lst] single_size] eqn:Hg.
  assert (Hn : name = k) by (destruct x; inversion Hg; reflexivity).
  subst name. cbn [ParseArrayLengths.build].
  rewrite strip_no_space by exact Hsp.
  rewrite Hsizes. cbn [bind]. unfold ensure_non_empty.
  destruct (sizes_of x) as [|v vs] eqn:Hx; [contradiction|].
  cbn [truthy list_truthy negb bind]. apply IH, Hall'.
Qed.

Lemma dict_get_set {V} (d : dict V) (k k' : string) (v : V) :
  dict_get (dict_set d k v) k'
  = if String.eqb k' k then Some v else dict_get d k'.
Proof.
  induction d as [|[k0 v0] d IH]; cbn [dict_set dict_get].
  - destruct (String.eqb k' k); reflexivity.
  - destruct (String.eqb_spec k k0) as [->|Hne]; cbn [dict_get].
    + destruct (String.eqb k' k0); reflexivity.
    + rewrite IH. destruct (String.eqb_spec k' k0) as [->|_]; [|reflexivity].
      destruct (String.eqb_spec k0 k) as [->|_]; [contradiction | reflexivity].
Qed.

Lemma dict_set_keys {V} (d : dict V) (k : string) (v : V) :
  dict_keys (dict_set d k v)
  = if is_in k (dict_keys d) then dict_keys d else dict_keys d ++ [k].
Proof.
  unfold is_in. induction d as [|[k0 v0] d IH]; [reflexivity|].
  cbn [dict_set dict_keys map fst existsb].
  destruct (String.eqb_spec k k0) as [->|Hne]; [reflexivity|].
  cbn [map fst orb]. fold (dict_keys (dict_set d k v)). rewrite IH.
  fold (dict_keys d). destruct (existsb (String.eqb k) (dict_keys d));
    reflexivity.
Qed.

Lemma is_in_spec (k : string) (ks : list string) :
  is_in k ks = true <-> In k ks.
Proof.
  unfold is_in. rewrite existsb_exists. split.
  - intros (x & Hx & Heq). apply String.eqb_eq in Heq. subst. exact Hx.
  - intros H. exists k. split; [exact H | apply String.eqb_refl].
Qed.

Lemma dict_set_NoDup {V} (d : dict V) (k : string) (v : V) :
  List.NoDup (dict_keys d) -> List.NoDup (dict_keys (dict_set d k v)).
Proof.
  intros Hnd. rewrite dict_set_keys.
  destruct (is_in k (dict_keys d)) eqn:Hin; [exact Hnd|].
  apply NoDup_ListNoDup, NoDup_app. split_and!.
  - apply NoDup_ListNoDup, Hnd.
  - intros x Hx Hk. apply list_elem_of_singleton in Hk as ->.
    apply list_elem_of_In, is_in_spec in Hx. congruence.
  - apply NoDup_singleton.
Qed.

Lemma find_app {A} (p : A -> bool) (l1 l2 : list A) :
  find p (l1 ++ l2)
  = match find p l1 with Some x => Some x | None => find p l2 end.
Proof.
  induction l1 as [|a l1 IH]; [reflexivity|]. simpl.
  destruct (p a); [reflexivity | exact IH].
Qed.

Lemma fold_entries_get (l : list (string * sizes_syntax)) (name : string) :
  forall acc,
    dict_get (fold_left (fun d kx => dict_set d (fst kx) (sizes_of (snd kx)))
                        l acc) name
    = match last_sizes l name with
      | Some sizes => Some sizes
      | None => dict_get acc name
      end.
Proof.
  unfold last_sizes.
  induction l as [|[k x] l IH]; intros acc; [reflexivity|].
  cbn [fold_left rev fst snd]. rewrite IH, find_app.
  destruct (find (fun kx => String.eqb (fst kx) name) (rev l)) as [kx|];
    [reflexivity|].
  cbn [find fst option_map]. rewrite dict_get_set.
  rewrite (String.eqb_sym k name).
  destruct (String.eqb name k); reflexivity.
Qed.

Lemma fold_entries_NoDup (l : list (string * sizes_syntax)) :
  forall acc,
    List.NoDup (dict_keys acc) ->
    List.NoDup
      (dict_keys (fold_left (fun d kx => dict_set d (fst kx) (sizes_of (snd kx)))
                            l acc)).
Proof.
  induction l as [|kx l IH]; intros acc Hnd; [exact Hnd|].
  cbn [fold_left]. apply IH, dict_set_NoDup, Hnd.
Qed.

(** X9: a name may be written more than once in an array-lengths text
    whose sizes are within the limit on decimal digits; the dictionary
    then has the name once, with the sizes written last. A name that is
    not written is not in the dictionary. *)
Theorem ParseArrayLengths_last_sizes_win
        (values : string) (l : list (string * sizes_syntax)) :
  without_space values = entries_text l ->
  Forall valid_written l ->
  Forall (fun kx => Forall within_digit_limit (sizes_of (snd kx))) l ->
  exists d,
    ParseArrayLengths.parse (Some values) = Return d
    /\ List.NoDup (dict_keys d)
    /\ forall name, dict_get d name = last_sizes l name.
Proof.
  intros Htext Hall _. eexists. split; [|split].
  - unfold ParseArrayLengths.parse.
    destruct (truthy values) eqn:Htruthy; cbn [negb].
    + rewrite join_split_ws, Htext.
      destruct (format_re_entries l Hall) as [caps ->].
      rewrite findall3_entries by assumption.
      apply (build_entries_fold l []), Hall.
    + destruct values; [|discriminate]. cbn [without_space] in Htext.
      destruct l as [|e l]; [reflexivity|].
      exfalso. apply (entries_text_nonempty (e :: l) Hall); [discriminate|].
      symmetry. exact Htext.
  - apply fold_entries_NoDup. constructor.
  - intros name. rewrite fold_entries_get.
    destruct (last_sizes l name); reflexivity.
Qed.

Lemma ParseArrayLengths_last_sizes_win_witness :
  exists d,
    ParseArrayLengths.parse (Some "a=1, b={2,3}, a={4}") = Return d
    /\ dict_get d "a" = Some [4%Z] /\ dict_get d "b" = Some [2; 3]%Z
    /\ dict_get d "c" = None.
Proof.
  destruct (ParseArrayLengths_last_sizes_win "a=1, b={2,3}, a={4}"
              [("a", Bare 1); ("b", Braced [2; 3]%Z); ("a", Braced [4%Z])])
    as (d & Hd & _ & Hget).
  - reflexivity.
  - repeat constructor; (discriminate || (cbn; lia)).
  - repeat constructor; vm_compute; reflexivity.
  - exists d. split; [exact Hd|].
    rewrite !Hget. repeat split.
Defined.

(** ** Reading the items of a config file *)

Lemma translate_items (items result : list (string * Value)) :
  Forall2 translated items result ->
  forall acc,
    List.NoDup (dict_keys acc ++ dict_keys result) ->
    TomlParser.translate items acc = Return (acc ++ result).
Proof.
  induction 1 as [|[key value] [k v] items result [Hk Hv] _ IH]; intros acc Hnd.
  - rewrite app_nil_r. reflexivity.
  - cbn [fst snd] in Hk, Hv. subst k. cbn [TomlParser.translate].
    assert (Hstep : match TomlParser.actions (PyStr.replace "-" "_" key) with
                    | Some a => Action_parse a (Some value)
                    | None => Return value
                    end = Return v).
    { destruct (TomlParser.actions (PyStr.replace "-" "_" key));
        [exact Hv | rewrite Hv; reflexivity]. }
    rewrite Hstep. cbn [bind].
    cbn [dict_keys map fst] in Hnd. fold (dict_keys result) in Hnd.
    rewrite dict_set_fresh.
    2:{ apply NoDup_remove_2 in Hnd. intros Hin. apply Hnd, in_or_app.
        left. exact Hin. }
    rewrite IH; [rewrite <- app_assoc; reflexivity|].
    unfold dict_keys. rewrite map_app. cbn [map fst]. rewrite <- app_assoc.
    exact Hnd.
Qed.

Lemma replace_free (old new : ascii) (s : string) :
  old <> new -> free_of old (PyStr.replace old new s) = true.
Proof.
  intros Hne. unfold free_of. induction s as [|c s IH]; [reflexivity|].
  cbn [PyStr.replace chars_all]. rewrite IH, andb_true_r.
  destruct (Ascii.eqb_spec c old) as [->|Hc].
  - apply negb_true_iff, Ascii.eqb_neq. congruence.
  - apply negb_true_iff, Ascii.eqb_neq. exact Hc.
Qed.

Lemma translate_keys (items : list (string * Value)) :
  forall acc result,
    TomlParser.translate items acc = Return result ->
    List.NoDup (dict_keys acc) ->
    Forall (fun k => free_of "-" k = true) (dict_keys acc) ->
    List.NoDup (dict_keys result)
    /\ Forall (fun k => free_of "-" k = true) (dict_keys result).
Proof.
  induction items as [|[key value] items IH]; intros acc result H Hnd Hfree.
  - injection H as <-. auto.
  - cbn [TomlParser.translate] in H.
    destruct (match TomlParser.actions (PyStr.replace "-" "_" key) with
              | Some a => Action_parse a (Some value)
              | None => Return value
              end) as [v| |]; cbn [bind] in H; try discriminate.
    apply (IH _ _ H); [apply dict_set_NoDup, Hnd|].
    rewrite dict_set_keys.
    destruct (is_in _ (dict_keys acc)); [exact Hfree|].
    apply Forall_app. split; [exact Hfree|].
    constructor; [|constructor]. apply replace_free. discriminate.
Qed.

(** X10: the reader of the [global] table does not look at the schema to
    accept or refuse a key. For items whose keys stay distinct once their
    hyphens are underscores, and whose values their codecs accept, the
    result has one entry for each item, in order: the key with
    underscores, and the value as its codec parses it, or unchanged where
    the field has no codec or the key names no field. Whatever the items,
    a result has no key with a hyphen and no key twice. *)
Theorem parse_dict_translates
        (items result : list (string * Value)) (lg : Logs) :
  (Forall2 translated items result -> List.NoDup (dict_keys result) ->
   TomlParser.parse_dict [("global", VDict items)] lg = (Return result, lg))
  /\ (TomlParser.parse_dict [("global", VDict items)] lg = (Return result, lg) ->
      List.NoDup (dict_keys result)
      /\ Forall (fun k => free_of "-" k = true) (dict_keys result)).
Proof.
  split.
  - intros Hall Hnd. cbn -[TomlParser.translate].
    rewrite (translate_items items result Hall []); [reflexivity | exact Hnd].
  - cbn -[TomlParser.translate]. intros H. injection H as H.
    apply (translate_keys items [] result H); constructor.
Qed.

Lemma parse_dict_translates_witness :
  TomlParser.parse_dict
    [("global", VDict [("invariant-depth", VInt 5);
                       ("panic-error-codes", VStr "0x11,0x12");
                       ("my-own-key", VBool true)])] no_logs
  = (Return [("invariant_depth", VInt 5);
             ("panic_error_codes", VIntSet {[17%Z; 18%Z]});
             ("my_own_key", VBool true)], no_logs)
  /\ Forall (fun k => free_of "-" k = true)
            ["invariant_depth"; "panic_error_codes"; "my_own_key"].
Proof.
  assert (H : TomlParser.parse_dict
    [("global", VDict [("invariant-depth", VInt 5);
                       ("panic-error-codes", VStr "0x11,0x12");
                       ("my-own-key", VBool true)])] no_logs
  = (Return [("invariant_depth", VInt 5);
             ("panic_error_codes", VIntSet {[17%Z; 18%Z]});
             ("my_own_key", VBool true)], no_logs)).
  { apply (proj1 (parse_dict_translates _ _ no_logs)).
    - repeat constructor; vm_compute; reflexivity.
    - repeat constructor; simpl; intuition discriminate. }
  split; [exact H|].
  apply (proj2 (proj2 (parse_dict_translates _ _ no_logs) H)).
Defined.

(** X11: a value that its codec refuses is not reported in the argparse
    style of the other errors of the reader: the exception of the codec
    leaves [parse_dict] as it is, at the first such item, and nothing is
    logged. *)
Theorem parse_dict_codec_failure
        (pre post : list (string * Value)) (done : list (string * Value))
        (key : string) (value : Value) (a : Action) (e : PyExc) (lg : Logs) :
  Forall2 translated pre done -> List.NoDup (dict_keys done) ->
  TomlParser.actions (PyStr.replace "-" "_" key) = Some a ->
  Action_parse a (Some value) = Raise e ->
  TomlParser.parse_dict [("global", VDict (pre ++ (key, value) :: post))] lg
  = (Raise e, lg).
Proof.
  intros Hpre Hnd Ha He. cbn -[TomlParser.translate]. f_equal.
  assert (Hgen : forall acc,
             List.NoDup (dict_keys acc ++ dict_keys done) ->
             TomlParser.translate (pre ++ (key, value) :: post) acc = Raise e).
  { clear Hnd. induction Hpre as [|[k0 v0] [k v] pre done [Hk Hv] _ IH];
      intros acc Hnd.
    - cbn [app TomlParser.translate]. rewrite Ha, He. reflexivity.
    - cbn [fst snd] in Hk, Hv. subst k. cbn [app TomlParser.translate].
      assert (Hstep : match TomlParser.actions (PyStr.replace "-" "_" k0) with
                      | Some a => Action_parse a (Some v0)
                      | None => Return v0
                      end = Return v).
      { destruct (TomlParser.actions (PyStr.replace "-" "_" k0));
          [exact Hv | rewrite Hv; reflexivity]. }
      rewrite Hstep. cbn [bind].
      cbn [dict_keys map fst] in Hnd. fold (dict_keys done) in Hnd.
      rewrite dict_set_fresh.
      2:{ apply NoDup_remove_2 in Hnd. intros Hin. apply Hnd, in_or_app.
          left. exact Hin. }
      apply IH. unfold dict_keys. rewrite map_app. cbn [map fst].
      rewrite <- app_assoc. exact Hnd. }
  apply (Hgen []). exact Hnd.
Qed.

Lemma parse_dict_codec_failure_witness :
  TomlParser.parse_dict
    [("global", VDict [("loop", VInt 3); ("default-array-lengths", VStr " , ");
                       ("depth", VInt 7)])] no_logs
  = (Raise (ValueError "required a non-empty list"), no_logs).
Proof.
  apply (parse_dict_codec_failure [("loop", VInt 3)] [("depth", VInt 7)]
           [("loop", VInt 3)] "default-array-lengths" (VStr " , ") ParseCSVInt_).
  - repeat constructor.
  - repeat constructor. simpl. tauto.
  - reflexivity.
  - reflexivity.
Defined.

Lemma field_is_no_parameter (field : string) :
  is_in field Config_fields = true ->
  is_in "source" [field] = false /\ is_in "self" [field] = false
  /\ is_in field internal_fields = false.
Proof.
  intros Hfield. unfold is_in at 1 2. cbn [existsb]. rewrite !orb_false_r.
  split; [|split].
  - destruct (String.eqb_spec "source" field) as [<-|_]; [|reflexivity].
    vm_compute in Hfield. discriminate.
  - destruct (String.eqb_spec "self" field) as [<-|_]; [|reflexivity].
    vm_compute in Hfield. discriminate.
  - destruct (is_in field internal_fields) eqn:Hint; [|reflexivity].
    apply is_in_spec in Hint. cbn in Hint.
    destruct Hint as [<-|[<-|[]]]; vm_compute in Hfield; discriminate.
Qed.

Lemma default_source_is_low (e : Env) (cfg : Config) (name : string) :
  is_default_config e cfg -> is_in name Config_fields = true ->
  source_ge config_file (snd (value_with_source cfg name)) = true.
Proof.
  intros Hcfg Hname.
  destruct (default_config_fields e) as (cfg' & H & _ & _ & Hall).
  unfold is_default_config in Hcfg. rewrite Hcfg in H. injection H as <-.
  rewrite forallb_forall in Hall. apply is_in_spec in Hname.
  specialize (Hall name Hname). unfold default_field_ok in Hall.
  destruct (value_with_source cfg name) as [[v|] []]; try discriminate;
    reflexivity.
Qed.

(** X12: an option of the schema set in the [global] table of a config file
    is the option's value in the configuration that layers the file on the
    defaults, whether the key is written with hyphens or with underscores:
    the reader turns the item into the override for the field, parsed by
    the field's codec if it has one, [with_overrides] accepts it, and the
    new layer, tagged [config_file], answers for the field. *)
Theorem config_file_option_is_used
        (e : Env) (cfg : Config) (key : string) (value parsed : Value)
        (lg : Logs) :
  let field := PyStr.replace "-" "_" key in
  is_default_config e cfg ->
  is_in field Config_fields = true ->
  translated (key, value) (field, parsed) ->
  TomlParser.parse_dict [("global", VDict [(key, value)])] lg
  = (Return [(field, parsed)], lg)
  /\ exists child,
      with_overrides cfg config_file (as_overrides [(field, parsed)]) lg
      = (Return child, lg)
      /\ value_with_source child field = (Some parsed, config_file).
Proof.
  intros field Hcfg Hfield Htr. split.
  - cbn -[TomlParser.translate].
    rewrite (translate_items [(key, value)] [(field, parsed)]);
      [reflexivity | constructor; [exact Htr | constructor]
       | constructor; [simpl; tauto | constructor]].
  - destruct (field_is_no_parameter field Hfield) as (Hsource & Hself & Hint).
    exists (mkConfig (Some cfg) config_file (<[field := parsed]> ∅)). split.
    + unfold with_overrides, as_overrides. cbn [map fst snd dict_keys].
      rewrite Hsource, Hself. unfold Config_init. cbn [dict_keys map fst find].
      rewrite Hint, Hfield. reflexivity.
    + rewrite value_with_source_child, lookup_insert_eq.
      rewrite (default_source_is_low e cfg field Hcfg Hfield). reflexivity.
Qed.

Lemma config_file_option_is_used_witness :
  exists cfg child,
    _create_default_config sample_env = Return cfg
    /\ TomlParser.parse_dict
         [("global", VDict [("default-bytes-lengths", VStr "0, 32")])] no_logs
       = (Return [("default_bytes_lengths", VList [VInt 0; VInt 32])], no_logs)
    /\ with_overrides cfg config_file
         [("default_bytes_lengths", Some (VList [VInt 0; VInt 32]))] no_logs
       = (Return child, no_logs)
    /\ value_with_source child "default_bytes_lengths"
       = (Some (VList [VInt 0; VInt 32]), config_file).
Proof.
  destruct (default_config_fields sample_env) as (cfg & H & _).
  destruct (config_file_option_is_used sample_env cfg "default-bytes-lengths"
              (VStr "0, 32") (VList [VInt 0; VInt 32]) no_logs)
    as (Hread & child & Hlayer & Hvalue).
  - exact H.
  - reflexivity.
  - split; vm_compute; reflexivity.
  - exists cfg, child. auto.
Defined.

(** ** The layers, listed by source *)

Lemma source_eq_spec (a b : ConfigSource) : source_eq a b = true <-> a = b.
Proof. destruct a, b; cbn; split; (reflexivity || discriminate). Qed.

Lemma source_eq_sym_bool (a b : ConfigSource) : source_eq a b = source_eq b a.
Proof. unfold source_eq. apply Z.eqb_sym. Qed.

Lemma layers_set_keys {V} (d : list (ConfigSource * V)) (k : ConfigSource) (v : V) :
  map fst (layers_set d k v)
  = if bool_decide (k ∈ map fst d) then map fst d else map fst d ++ [k].
Proof.
  induction d as [|[k' v'] d IH]; [reflexivity|]. cbn [layers_set map fst].
  destruct (source_eq k k') eqn:Heq.
  - apply source_eq_spec in Heq as ->.
    rewrite bool_decide_eq_true_2 by (apply elem_of_cons; left; reflexivity).
    reflexivity.
  - cbn [map fst]. rewrite IH.
    assert (Hne : k <> k') by (intros ->; rewrite (proj2 (source_eq_spec k' k')) in Heq; [discriminate | reflexivity]).
    destruct (bool_decide (k ∈ map fst d)) eqn:Hd.
    + apply bool_decide_eq_true_1 in Hd.
      rewrite bool_decide_eq_true_2 by (apply elem_of_cons; right; exact Hd).
      reflexivity.
    + apply bool_decide_eq_false_1 in Hd.
      rewrite bool_decide_eq_false_2; [reflexivity|].
      intros Hin. apply elem_of_cons in Hin as [Hin|Hin]; contradiction.
Qed.

Lemma layers_get_set {V} (d : list (ConfigSource * V)) (k s : ConfigSource) (v : V) :
  layers_get (layers_set d k v) s
  = if source_eq s k then Some v else layers_get d s.
Proof.
  induction d as [|[k' v'] d IH]; [reflexivity|]. cbn [layers_set].
  destruct (source_eq k k') eqn:Heq; cbn [layers_get].
  - apply source_eq_spec in Heq as ->. destruct (source_eq s k'); reflexivity.
  - rewrite IH. destruct (source_eq s k') eqn:Hs; [|reflexivity].
    apply source_eq_spec in Hs as ->.
    destruct (source_eq k' k) eqn:Hk; [|reflexivity].
    apply source_eq_spec in Hk as ->.
    rewrite (proj2 (source_eq_spec k k)) in Heq; [discriminate | reflexivity].
Qed.

Lemma values_by_layer_keys (self : Config) :
  map fst (values_by_layer self)
  = rev (remove_dups (map _source (chain self))).
Proof.
  induction self as [s m | p s m IH] using Config_chain_ind; [reflexivity|].
  cbn [values_by_layer chain map _source]. rewrite layers_set_keys, IH.
  cbn [remove_dups].
  destruct (decide_rel elem_of s (map _source (chain p))) as [Hin|Hout].
  - rewrite bool_decide_eq_true_2; [reflexivity|].
    apply list_elem_of_In. rewrite <- in_rev. apply list_elem_of_In.
    apply elem_of_remove_dups, Hin.
  - rewrite bool_decide_eq_false_2; [reflexivity|].
    intros Hin. apply Hout.
    apply list_elem_of_In in Hin. rewrite <- in_rev in Hin.
    apply list_elem_of_In in Hin.
    apply (proj1 (elem_of_remove_dups _ _)) in Hin. exact Hin.
Qed.

Lemma values_by_layer_get (self : Config) (s : ConfigSource) :
  layers_get (values_by_layer self) s
  = option_map (fun L => dict_of (values L)) (nearest_with_source self s).
Proof.
  unfold nearest_with_source.
  induction self as [s0 m | p s0 m IH] using Config_chain_ind.
  - cbn [values_by_layer chain layers_get find _source].
    rewrite (source_eq_sym_bool s s0). destruct (source_eq s0 s); reflexivity.
  - cbn [values_by_layer chain find _source]. rewrite layers_get_set, IH.
    rewrite (source_eq_sym_bool s s0). destruct (source_eq s0 s); reflexivity.
Qed.

(** X13: the listing by source has one entry for each source that occurs in
    the chain, in the order in which the sources first occur from the root
    to the leaf; the entry of a source holds the values of the layer
    nearest to the leaf that carries that source, so a layer hides every
    ancestor that has the same source. *)
Theorem values_by_layer_structure (self : Config) :
  map fst (values_by_layer self)
  = rev (remove_dups (map _source (chain self)))
  /\ forall s,
      layers_get (values_by_layer self) s
      = option_map (fun L => dict_of (values L)) (nearest_with_source self s).
Proof.
  split; [apply values_by_layer_keys | intros s; apply values_by_layer_get].
Qed.

Lemma fold_dict_set_fresh {V} (items : list (string * V)) :
  forall acc,
    List.NoDup (dict_keys acc ++ map fst items) ->
    fold_left (fun d '(k, v) => dict_set d k v) items acc = acc ++ items.
Proof.
  induction items as [|[k v] items IH]; intros acc Hnd.
  - rewrite app_nil_r. reflexivity.
  - cbn [fold_left map fst] in *. rewrite dict_set_fresh.
    2:{ apply NoDup_remove_2 in Hnd. intros Hin. apply Hnd, in_or_app.
        left. exact Hin. }
    rewrite IH; [rewrite <- app_assoc; reflexivity|].
    unfold dict_keys. rewrite map_app. cbn [map fst]. rewrite <- app_assoc.
    exact Hnd.
Qed.

Lemma dict_of_distinct {V} (items : list (string * V)) :
  List.NoDup (map fst items) -> dict_of items = items.
Proof. intros Hnd. apply (fold_dict_set_fresh items []), Hnd. Qed.

Lemma dict_get_In {V} (d : dict V) (k : string) (x : V) :
  List.NoDup (dict_keys d) -> In (k, x) d -> dict_get d k = Some x.
Proof.
  induction d as [|[k' v'] d IH]; intros Hnd Hin; [contradiction|].
  cbn [dict_keys map fst] in Hnd. inversion Hnd as [|? ? Hk Hnd']; subst.
  cbn [dict_get]. destruct Hin as [Heq|Hin].
  - injection Heq as -> ->. rewrite String.eqb_refl. reflexivity.
  - destruct (String.eqb_spec k k') as [->|_]; [|apply IH; assumption].
    exfalso. apply Hk. apply in_map_iff. exists (k', x). auto.
Qed.

Lemma values_from_keys (self : Config) (skip_empty : bool) (fs : list string) :
  (forall k, In k (map fst (values_from self skip_empty fs)) -> In k fs)
  /\ (List.NoDup fs -> List.NoDup (map fst (values_from self skip_empty fs))).
Proof.
  induction fs as [|name fs [IHin IHnd]]; [split; [auto | intros; constructor]|].
  cbn [values_from].
  assert (Hcons : (forall k, In k (map fst ((name, getattr self name)
                                            :: values_from self skip_empty fs))
                             -> In k (name :: fs))
                  /\ (List.NoDup (name :: fs) ->
                      List.NoDup (map fst ((name, getattr self name)
                                           :: values_from self skip_empty fs)))).
  { split.
    - intros k [<-|Hk]; [left; reflexivity | right; apply IHin, Hk].
    - intros Hnd. inversion Hnd as [|? ? Hname Hnd']; subst.
      cbn [map fst]. constructor; [|apply IHnd, Hnd'].
      intros Hin. apply Hname, IHin, Hin. }
  assert (Hskip : (forall k, In k (map fst (values_from self skip_empty fs))
                             -> In k (name :: fs))
                  /\ (List.NoDup (name :: fs) ->
                      List.NoDup (map fst (values_from self skip_empty fs)))).
  { split.
    - intros k Hk. right. apply IHin, Hk.
    - intros Hnd. inversion Hnd; subst. apply IHnd. assumption. }
  destruct (is_in name internal_fields); [exact Hskip|].
  destruct (getattr self name) as [v|] eqn:Hv; [rewrite <- Hv; exact Hcons|].
  destruct skip_empty; [exact Hskip | rewrite <- Hv; exact Hcons].
Qed.

Lemma values_from_In (self : Config) (skip_empty : bool) (fs : list string)
      (name : string) (v : Value) :
  In name fs -> is_in name internal_fields = false ->
  getattr self name = Some v ->
  In (name, Some v) (values_from self skip_empty fs).
Proof.
  intros Hin Hint Hv. induction fs as [|f fs IH]; [contradiction|].
  cbn [values_from]. destruct Hin as [->|Hin].
  - rewrite Hint, Hv. left. reflexivity.
  - specialize (IH Hin). destruct (is_in f internal_fields); [exact IH|].
    destruct (getattr self f); [right; exact IH|].
    destruct skip_empty; [exact IH | right; exact IH].
Qed.

Lemma dataclass_fields_distinct : List.NoDup dataclass_fields.
Proof.
  apply NoDup_ListNoDup. apply (bool_decide_unpack _). vm_compute. exact I.
Qed.

Lemma values_unfold (self : Config) :
  values self
  = values_from self (match _parent self with Some _ => true | None => false end)
                dataclass_fields.
Proof.
  symmetry.
  exact (eq_refl (values_from self
                    (match _parent self with Some _ => true | None => false end)
                    dataclass_fields)).
Qed.

Lemma values_distinct (self : Config) : List.NoDup (map fst (values self)).
Proof.
  rewrite values_unfold. apply values_from_keys, dataclass_fields_distinct.
Qed.

Lemma NoDup_map_inj {A B} (f : A -> B) (l : list A) (a b : A) :
  List.NoDup (map f l) -> In a l -> In b l -> f a = f b -> a = b.
Proof.
  induction l as [|x l IH]; intros Hnd Ha Hb Hf; [contradiction|].
  cbn [map] in Hnd. inversion Hnd as [|? ? Hx Hnd']; subst.
  destruct Ha as [->|Ha], Hb as [->|Hb]; auto.
  - exfalso. apply Hx. rewrite Hf. apply in_map, Hb.
  - exfalso. apply Hx. rewrite <- Hf. apply in_map, Ha.
Qed.

(** X14: when no two layers of the chain have the same source, the listing
    by source shows every resolved value where it was found: if a field
    resolves to a value at a source, the entry of that source has the
    field with that value. *)
Theorem listed_where_resolved
        (self : Config) (name : string) (v : Value) (s : ConfigSource) :
  List.NoDup (map _source (chain self)) ->
  is_in name Config_fields = true ->
  value_with_source self name = (Some v, s) ->
  exists d,
    layers_get (values_by_layer self) s = Some d
    /\ dict_get d name = Some (Some v).
Proof.
  intros Hnd Hfield Hres.
  destruct (value_with_source_winner self name)
    as [[Hnone _] | (pre & L & post & v' & Hchain & Hv & _ & _ & _ & Heq)].
  { rewrite Hres in Hnone. discriminate. }
  rewrite Hres in Heq. injection Heq as <- ->.
  assert (HL : In L (chain self))
    by (rewrite Hchain; apply in_or_app; right; left; reflexivity).
  rewrite values_by_layer_get. unfold nearest_with_source.
  destruct (find (fun L' => source_eq (_source L') (_source L)) (chain self))
    as [L'|] eqn:Hfind.
  - apply find_some in Hfind as [HL' Hsame]. apply source_eq_spec in Hsame.
    assert (L' = L) by (eapply NoDup_map_inj; eassumption). subst L'.
    eexists. split; [reflexivity|].
    rewrite dict_of_distinct by apply values_distinct.
    apply dict_get_In; [apply values_distinct|].
    rewrite values_unfold. apply values_from_In; [| |exact Hv].
    + unfold dataclass_fields. apply in_or_app. right.
      apply is_in_spec, Hfield.
    + apply (field_is_no_parameter name Hfield).
  - pose proof (find_none _ _ Hfind L HL) as Hne. cbv beta in Hne.
    rewrite (proj2 (source_eq_spec _ _) eq_refl) in Hne. discriminate.
Qed.

Lemma listed_where_resolved_witness :
  exists d,
    layers_get (values_by_layer layered_config) config_file = Some d
    /\ dict_get d "loop" = Some (Some (VInt 4)).
Proof.
  apply (listed_where_resolved layered_config "loop" (VInt 4) config_file).
  - cbn. repeat constructor; simpl; intuition discriminate.
  - reflexivity.
  - vm_compute. reflexivity.
Defined.

(** Without that condition a resolved value can be missing from the
    listing: of two layers from config files, the one nearer the leaf is
    listed, the value comes from the other. *)
Example hidden_layer_is_not_listed :
  let self :=
    mkConfig (Some (mkConfig (Some (mkConfig None default {["loop" := VInt 2]}))
                             config_file {["loop" := VInt 4]}))
             config_file {["depth" := VInt 9]} in
  value_with_source self "loop" = (Some (VInt 4), config_file)
  /\ values_by_layer self
     = [(default,
         map (fun name => (name, if String.eqb name "loop"
                                 then Some (VInt 2) else None)) Config_fields);
        (config_file, [("depth", Some (VInt 9))])].
Proof. split; vm_compute; reflexivity. Qed.

(** ** The layers as text *)

Lemma layers_set_fresh {V} (d : list (ConfigSource * V)) (k : ConfigSource) (v : V) :
  ~ In k (map fst d) -> layers_set d k v = d ++ [(k, v)].
Proof.
  induction d as [|[k' v'] d IH]; intros Hk; [reflexivity|].
  cbn [layers_set]. destruct (source_eq k k') eqn:Heq.
  - apply source_eq_spec in Heq as ->. exfalso. apply Hk. left. reflexivity.
  - rewrite IH; [reflexivity|]. intros Hin. apply Hk. right. exact Hin.
Qed.

Lemma join_app (sep : string) (a b : list string) :
  a <> [] -> b <> [] ->
  PyStr.join sep (a ++ b) = PyStr.join sep a +:+ sep +:+ PyStr.join sep b.
Proof.
  intros Ha Hb. induction a as [|x a IH]; [contradiction|].
  destruct a as [|y a].
  - destruct b as [|z b]; [contradiction|]. cbn [app]. apply join_cons.
  - cbn [app] in *. rewrite !join_cons, IH by discriminate.
    rewrite !append_assoc. reflexivity.
Qed.

Lemma values_by_layer_nonempty (self : Config) : values_by_layer self <> [].
Proof.
  intros H. apply (f_equal (map fst)) in H. rewrite values_by_layer_keys in H.
  apply (f_equal (@rev _)) in H. rewrite rev_involutive in H. cbn in H.
  destruct self as [[p|] s m]; cbn [chain map] in H;
    apply (f_equal (fun l => bool_decide (s ∈ l))) in H;
    rewrite bool_decide_eq_true_2 in H
      by (apply elem_of_remove_dups, elem_of_cons; left; reflexivity);
    rewrite bool_decide_eq_false_2 in H by apply not_elem_of_nil;
    discriminate.
Qed.

Section FormattedLayersProperties.

Variable format_value : option Value -> string.

(** X15: the text of the layers lists them from the root to the leaf. A
    layer whose source does not occur among its ancestors adds, after a
    line break, its own block at the end of the text of its parent: a
    heading with the name of its source, also when it sets nothing, and
    one line for each option it sets. *)
Theorem formatted_layers_appends
        (p : Config) (s : ConfigSource) (m : gmap string Value) :
  ~ In s (map _source (chain p)) ->
  formatted_layers format_value (mkConfig (Some p) s m)
  = formatted_layers format_value p +:+ newline
    +:+ PyStr.join newline
          (layer_lines format_value
             (s, dict_of (values (mkConfig (Some p) s m)))).
Proof.
  intros Hfresh. unfold formatted_layers. cbn [values_by_layer].
  rewrite layers_set_fresh.
  2:{ rewrite values_by_layer_keys. intros Hin. apply Hfresh.
      rewrite <- in_rev in Hin. apply list_elem_of_In in Hin.
      apply (proj1 (elem_of_remove_dups _ _)) in Hin.
      apply list_elem_of_In, Hin. }
  rewrite flat_map_app. cbn [flat_map]. rewrite app_nil_r.
  apply join_app; [|discriminate].
  pose proof (values_by_layer_nonempty p) as Hne.
  destruct (values_by_layer p) as [|entry rest]; [contradiction|].
  discriminate.
Qed.

End FormattedLayersProperties.

Lemma formatted_layers_appends_witness :
  formatted_layers sample_format
    (mkConfig (Some (mkConfig (Some (mkConfig None void ∅)) config_file
                              {["loop" := VInt 4]}))
              command_line ∅)
  = formatted_layers sample_format
      (mkConfig (Some (mkConfig None void ∅)) config_file {["loop" := VInt 4]})
    +:+ newline +:+ "command_line:".
Proof.
  refine (eq_trans
            (formatted_layers_appends sample_format
               (mkConfig (Some (mkConfig None void ∅)) config_file
                         {["loop" := VInt 4]})
               command_line ∅ _) _).
  - cbn. intuition discriminate.
  - reflexivity.
Defined.

(** ** The values of one layer *)

Lemma values_from_spec (self : Config) (skip_empty : bool) (fs : list string)
      (name : string) (v : option Value) :
  In (name, v) (values_from self skip_empty fs)
  <-> In name fs /\ is_in name internal_fields = false
      /\ getattr self name = v /\ (skip_empty = true -> v <> None).
Proof.
  induction fs as [|f fs IH]; [cbn; tauto|]. cbn [values_from].
  destruct (is_in f internal_fields) eqn:Hint.
  { rewrite IH. split.
    - intros (Hin & rest). split; [right; exact Hin | exact rest].
    - intros ([->|Hin] & Hi & rest); [congruence | auto]. }
  destruct (getattr self f) as [x|] eqn:Hx.
  { cbn [In]. rewrite IH. split.
    - intros [Heq|(Hin & rest)].
      + injection Heq as -> <-.
        split; [left; reflexivity|]. repeat split; auto; discriminate.
      + split; [right; exact Hin | exact rest].
    - intros ([->|Hin] & Hi & Hv & Hs).
      + left. rewrite <- Hv, Hx. reflexivity.
      + right. auto. }
  destruct skip_empty.
  - rewrite IH. split.
    + intros (Hin & rest). split; [right; exact Hin | exact rest].
    + intros ([->|Hin] & Hi & Hv & Hs); [|auto].
      exfalso. apply Hs; [reflexivity | congruence].
  - cbn [In]. rewrite IH. split.
    + intros [Heq|(Hin & rest)].
      * injection Heq as -> <-.
        split; [left; reflexivity|]. repeat split; auto; discriminate.
      * split; [right; exact Hin | exact rest].
    + intros ([->|Hin] & Hi & Hv & Hs).
      * left. rewrite <- Hv, Hx. reflexivity.
      * right. auto.
Qed.

Lemma values_from_root (self : Config) (fs : list string) :
  map fst (values_from self false fs)
  = List.filter (fun name => negb (is_in name internal_fields)) fs.
Proof.
  induction fs as [|f fs IH]; [reflexivity|]. cbn [values_from List.filter].
  destruct (is_in f internal_fields); cbn [negb]; [exact IH|].
  destruct (getattr self f); cbn [map fst]; rewrite IH; reflexivity.
Qed.

Lemma fields_of_dataclass (name : string) :
  In name dataclass_fields /\ is_in name internal_fields = false
  <-> is_in name Config_fields = true.
Proof.
  split.
  - intros [Hin Hint]. unfold dataclass_fields in Hin.
    apply in_app_or in Hin as [Hin|Hin]; [|apply is_in_spec, Hin].
    apply is_in_spec in Hin. congruence.
  - intros Hf. split; [|apply (field_is_no_parameter name Hf)].
    unfold dataclass_fields. apply in_or_app. right. apply is_in_spec, Hf.
Qed.

Lemma values_spec (self : Config) (name : string) (v : option Value) :
  In (name, v) (values self)
  <-> is_in name Config_fields = true /\ getattr self name = v
      /\ (is_Some (_parent self) -> v <> None).
Proof.
  rewrite values_unfold, values_from_spec. split.
  - intros (Hin & Hint & Hv & Hs).
    split; [apply (proj1 (fields_of_dataclass name)); split; assumption|].
    split; [exact Hv|]. intros [p Hp]. apply Hs. rewrite Hp. reflexivity.
  - intros (Hf & Hv & Hs).
    destruct (proj2 (fields_of_dataclass name) Hf) as [Hin Hint].
    split; [exact Hin|]. split; [exact Hint|]. split; [exact Hv|].
    intros Hskip. apply Hs. destruct (_parent self); [eauto | discriminate].
Qed.

Lemma public_fields :
  List.filter (fun name => negb (is_in name internal_fields)) dataclass_fields
  = Config_fields.
Proof. vm_compute. reflexivity. Qed.

(** X17: [values] of a root layer has every option of the schema, in the
    order of the schema, with [None] for an option the layer does not set;
    [values] of a layer that has a parent has exactly the options the layer
    sets. The internal fields [_parent] and [_source] are never listed, and
    no option is listed twice. *)
Theorem values_of_a_layer (self : Config) :
  List.NoDup (map fst (values self))
  /\ (forall name v,
        In (name, v) (values self) ->
        is_in name Config_fields = true /\ getattr self name = v)
  /\ match _parent self with
     | None => map fst (values self) = Config_fields
     | Some _ =>
         forall name v,
           In (name, v) (values self)
           <-> is_in name Config_fields = true
               /\ getattr self name = v /\ v <> None
     end.
Proof.
  split; [apply values_distinct|]. split.
  - intros name v Hin. apply values_spec in Hin as (Hf & Hv & _). auto.
  - destruct (_parent self) as [p|] eqn:Hp.
    + intros name v. rewrite values_spec, Hp. split.
      * intros (Hf & Hv & Hs). eauto.
      * intros (Hf & Hv & Hs). auto.
    + rewrite values_unfold, Hp, values_from_root. exact public_fields.
Qed.

Lemma values_of_a_layer_witness :
  is_in "loop" Config_fields = true
  /\ getattr (mkConfig (Some (mkConfig None default ∅)) config_file
                       {["loop" := VInt 4]}) "loop" = Some (VInt 4).
Proof.
  apply (proj1 (proj2 (values_of_a_layer
                         (mkConfig (Some (mkConfig None default ∅)) config_file
                                   {["loop" := VInt 4]})))
               "loop" (Some (VInt 4))).
  vm_compute. left. reflexivity.
Defined.

(** ** Writing a value and reading it back *)

(** X18: a non-empty list of integers within the limit on decimal digits,
    written by [ParseCSVInt.unparse], is read back by [ParseCSVInt.parse]
    as the same list. *)
Theorem ParseCSVInt_unparse_parse (values : list Z) :
  values <> [] -> Forall within_digit_limit values ->
  ParseCSVInt.parse (ParseCSVInt.unparse values) = Return values.
Proof. intros Hne _. apply ParseCSVInt_roundtrip, Hne. Qed.

Lemma ParseCSVInt_unparse_parse_witness :
  ParseCSVInt.parse (ParseCSVInt.unparse [0; 65; -1024]%Z)
  = Return [0; 65; -1024]%Z.
Proof.
  apply ParseCSVInt_unparse_parse.
  - discriminate.
  - repeat constructor; vm_compute; reflexivity.
Defined.

(** X19: every list of trace events, the empty one too, written by
    [ParseCSVTraceEvent.unparse], is read back by
    [ParseCSVTraceEvent.parse] as the same list. *)
Theorem ParseCSVTraceEvent_unparse_parse (values : list TraceEvent) :
  ParseCSVTraceEvent.parse (ParseCSVTraceEvent.unparse values) = Return values.
Proof. apply ParseCSVTraceEvent_roundtrip. Qed.

(** X20: every set of non-negative integers, of any size, written by
    [ParseErrorCodes.unparse] as [*] or as hexadecimal literals, is read
    back by [ParseErrorCodes.parse] as the same set. *)
Theorem ParseErrorCodes_unparse_parse (values : gset Z) :
  (forall n, n ∈ values -> (0 <= n)%Z) ->
  ParseErrorCodes.parse (ParseErrorCodes.unparse values) = Return values.
Proof. apply ParseErrorCodes_roundtrip. Qed.

Lemma ParseErrorCodes_unparse_parse_witness :
  ParseErrorCodes.parse (ParseErrorCodes.unparse {[1%Z; 17%Z]})
  = Return {[1%Z; 17%Z]}.
Proof.
  apply ParseErrorCodes_unparse_parse.
  intros n Hn. apply elem_of_union in Hn as [Hn | Hn];
    apply elem_of_singleton in Hn; subst; lia.
Defined.

(** X21: an array-lengths dictionary whose names are distinct, non-empty and
    free of white space and of [=], [,], [{], [}], and whose size lists are
    non-empty lists of non-negative integers within the limit on decimal
    digits, written by [ParseArrayLengths.unparse], is read back by
    [ParseArrayLengths.parse] as the same dictionary. *)
Theorem ParseArrayLengths_unparse_parse (values : dict (list Z)) :
  Forall valid_entry values -> List.NoDup (dict_keys values) ->
  Forall (fun kv => Forall within_digit_limit (snd kv)) values ->
  ParseArrayLengths.parse (Some (ParseArrayLengths.unparse values))
  = Return values.
Proof. intros Hall Hnd _. apply ParseArrayLengths_roundtrip; assumption. Qed.

Lemma ParseArrayLengths_unparse_parse_witness :
  ParseArrayLengths.parse
    (Some (ParseArrayLengths.unparse [("a", [1; 2]%Z); ("b", [3%Z])]))
  = Return [("a", [1; 2]%Z); ("b", [3%Z])].
Proof.
  apply ParseArrayLengths_unparse_parse.
  - repeat constructor; simpl; try discriminate; lia.
  - repeat constructor; simpl; intuition discriminate.
  - repeat constructor; vm_compute; reflexivity.
Defined.
